(** * Vectoria: HNSW graph engine, indexer facade and migration controller

    A shallow embedding of [src/lib/hnsw.ts], [src/index.ts],
    [src/lib/db.ts] and [src/lib/migration.ts], with the properties of the
    specification settled over it and further properties of the code.

    Modelling conventions.
    - A JavaScript [Map] keeps its keys in insertion order and [toJSON]
      iterates it, so a map is an association list in insertion order
      ([JsMap]); a [Set<string>] is a duplicate-free list in insertion order.
    - Scores are IEEE doubles in the source. The engine only compares them,
      so a score is an integer in the engine of section [Engine] and [dist]
      is a parameter: any function from two vectors to a score. This leaves
      [NaN] scores out. The traversals and [addPoint] are given once more in
      module [Js], with scores that may be [NaN] and any sort that the
      language allows; the properties that depend on the order of scores are
      stated there. The two agree where every similarity is a number
      ([js_search_agrees], [js_addPoint_agrees]).
    - Counts ([M], [ef], [k], levels, batch sizes) are natural numbers.
    - An exception is a [Throw] outcome; a mutating operation returns the
      state it leaves behind together with its outcome.
    - The two [while] loops of the engine run on fuel; [fuel_of] is shown to
      be enough, so that [OutOfFuel] is never the outcome of an operation. *)

From Stdlib Require Import String List ZArith Lia Bool Arith Permutation Sorted.
Import ListNotations.

Set Implicit Arguments.

(** ** Outcomes of a call *)

Inductive error : Type :=
| DuplicateId (id : string)   (* Error(`Node with id ${id} already exists`) *)
| TypeError                   (* a property read on [undefined] *)
| AlreadyRunning              (* Error("Migration already running") *)
| EmbedderFailure.            (* the embedder capability rejected *)

Inductive outcome (A : Type) : Type :=
| Return (a : A)
| Throw (e : error)
| OutOfFuel.

Arguments Return {A} a.
Arguments Throw {A} e.
Arguments OutOfFuel {A}.

Definition bind {A B : Type} (o : outcome A) (k : A -> outcome B) : outcome B :=
  match o with
  | Return a => k a
  | Throw e => Throw e
  | OutOfFuel => OutOfFuel
  end.

Notation "'let*' x ':=' o 'in' k" := (bind o (fun x => k))
  (at level 10, x pattern, o at level 100, k at level 200).

Definition returns {A : Type} (o : outcome A) : Prop := exists a, o = Return a.

(** ** JavaScript [Map] and [Set] in insertion order *)

Section JsMap.
Variable V : Type.

Definition JsMap := list (string * V).

Fixpoint map_get (k : string) (m : JsMap) : option V :=
  match m with
  | [] => None
  | (k', v) :: m' => if String.eqb k' k then Some v else map_get k m'
  end.

Definition map_has (k : string) (m : JsMap) : bool :=
  match map_get k m with Some _ => true | None => false end.

(** [Map.prototype.set]: an existing key keeps its place, a new key goes
    to the end. *)
Fixpoint map_set (k : string) (v : V) (m : JsMap) : JsMap :=
  match m with
  | [] => [(k, v)]
  | (k', v') :: m' =>
      if String.eqb k' k then (k', v) :: m' else (k', v') :: map_set k v m'
  end.

Definition map_keys (m : JsMap) : list string := map fst m.
Definition map_values (m : JsMap) : list V := map snd m.
End JsMap.

Definition set_has (x : string) (s : list string) : bool :=
  existsb (String.eqb x) s.

Definition set_add (x : string) (s : list string) : list string :=
  if set_has x s then s else s ++ [x].

(** [xs[i] = x] for an index inside the array; every such assignment of the
    engine is inside it (see [addPoint]). *)
Fixpoint list_set {A : Type} (i : nat) (x : A) (xs : list A) : list A :=
  match xs, i with
  | [], _ => []
  | _ :: t, 0 => x :: t
  | h :: t, S i' => h :: list_set i' x t
  end.

Definition last_opt {A : Type} (xs : list A) : option A :=
  match rev xs with [] => None | x :: _ => Some x end.

(** ** Scored candidates and [Array.prototype.sort] *)

Record Cand : Type := { c_id : string; c_score : Z }.

(** [xs.sort((a, b) => b.score - a.score)]: descending by score and stable,
    as the language requires of [sort]. *)
Fixpoint insert_desc (x : Cand) (l : list Cand) : list Cand :=
  match l with
  | [] => [x]
  | y :: ys =>
      if (c_score y <=? c_score x)%Z then x :: l else y :: insert_desc x ys
  end.

Definition sort_desc (l : list Cand) : list Cand := fold_right insert_desc [] l.

Definition desc (a b : Cand) : Prop := (c_score b <= c_score a)%Z.

(** ** The graph engine, [src/lib/hnsw.ts] *)

(** The numbers of the engine: elements of a [Float32Array] and JavaScript
    numbers, the rounding of [new Float32Array(xs)] and the widening of
    [Array.from(v)], the cosine similarity [dist(a, b)] (higher is better),
    the truthiness of a number and [1 / Math.log(M)]. *)
Class Numeric : Type := {
  float32 : Type;
  float64 : Type;
  fround : float64 -> float32;
  widen : float32 -> float64;
  dist : list float32 -> list float32 -> Z;
  truthy : float64 -> bool;
  inv_log : nat -> float64
}.

Section Engine.
Context {num : Numeric}.

Record Node : Type := {
  n_id : string;
  n_vector : list float32;
  n_level : nat;
  n_neighbors : list (list string)
}.

Record HNSWConfig : Type := {
  cfg_M : option nat;
  cfg_efConstruction : option nat;
  cfg_efSearch : option nat;
  cfg_levelMultiplier : option float64
}.

Record HNSWIndex : Type := {
  nodes : JsMap Node;
  entryPointId : option string;
  M : nat;
  efConstruction : nat;
  efSearch : nat;
  levelMultiplier : float64;
  maxLevel : nat
}.

(** The value [toJSON] returns. *)
Record JNode : Type := {
  jn_id : string;
  jn_vector : list float64;
  jn_level : nat;
  jn_neighbors : list (list string)
}.

Record JIndex : Type := {
  j_M : nat;
  j_efConstruction : nat;
  j_efSearch : nat;
  j_levelMultiplier : float64;
  j_maxLevel : nat;
  j_entryPointId : option string;
  j_nodes : list JNode
}.

Definition or_default (x : option nat) (d : nat) : nat :=
  match x with
  | Some (S n) => S n
  | _ => d
  end.

(** [constructor(config)] *)
Definition new_HNSWIndex (config : HNSWConfig) : HNSWIndex :=
  let m := or_default (cfg_M config) 16 in
  {| nodes := [];
     entryPointId := None;
     M := m;
     efConstruction := or_default (cfg_efConstruction config) 200;
     efSearch := or_default (cfg_efSearch config) 200;
     levelMultiplier :=
       match cfg_levelMultiplier config with
       | Some x => if truthy x then x else inv_log m
       | None => inv_log m
       end;
     maxLevel := 0 |}.

Definition default_config : HNSWConfig :=
  {| cfg_M := None; cfg_efConstruction := None; cfg_efSearch := None;
     cfg_levelMultiplier := None |}.

Definition with_nodes (g : HNSWIndex) (ns : JsMap Node) : HNSWIndex :=
  {| nodes := ns; entryPointId := entryPointId g; M := M g;
     efConstruction := efConstruction g; efSearch := efSearch g;
     levelMultiplier := levelMultiplier g; maxLevel := maxLevel g |}.

Definition with_entry (g : HNSWIndex) (ep : option string) (lvl : nat)
  : HNSWIndex :=
  {| nodes := nodes g; entryPointId := ep; M := M g;
     efConstruction := efConstruction g; efSearch := efSearch g;
     levelMultiplier := levelMultiplier g; maxLevel := lvl |}.

Definition getNode (g : HNSWIndex) (id : string) : option Node :=
  map_get id (nodes g).

(** Fuel for the [while] loops: two more than the number of nodes. *)
Definition fuel_of (g : HNSWIndex) : nat := S (S (length (nodes g))).

(** [getRandomLevel]; [coin i] is the outcome of the test
    [Math.random() < this.levelMultiplier] at its i-th evaluation. *)
Fixpoint getRandomLevel_loop (n : nat) (coin : nat -> bool) (level : nat) : nat :=
  match n with
  | 0 => level
  | S n' =>
      if coin level && (level <? 16)
      then getRandomLevel_loop n' coin (S level)
      else level
  end.

Definition getRandomLevel (coin : nat -> bool) : nat :=
  getRandomLevel_loop 17 coin 0.

(** [selectNeighbors(candidates, M)] *)
Definition selectNeighbors (candidates : list Cand) (m : nat) : list Cand :=
  firstn m (sort_desc candidates).

(** The [for] loop of the hill-climb over [currObj.neighbors[l]]. *)
Fixpoint bestOf (g : HNSWIndex) (query : list float32)
    (neighbors : list string) (bestNeighbor : option Node) (bestDist : Z)
  : outcome (option Node * Z) :=
  match neighbors with
  | [] => Return (bestNeighbor, bestDist)
  | neighborId :: rest =>
      match map_get neighborId (nodes g) with
      | None => Throw TypeError                 (* neighbor.vector *)
      | Some neighbor =>
          let d := dist query (n_vector neighbor) in
          if (bestDist <? d)%Z
          then bestOf g query rest (Some neighbor) d
          else bestOf g query rest bestNeighbor bestDist
      end
  end.

(** [while (changed)] on layer [l]. *)
Fixpoint climb (fuel : nat) (g : HNSWIndex) (query : list float32) (l : nat)
    (currObj : Node) (currDist : Z) : outcome (Node * Z) :=
  match fuel with
  | 0 => OutOfFuel
  | S fuel' =>
      match nth_error (n_neighbors currObj) l with
      | None => Throw TypeError                 (* undefined is not iterable *)
      | Some neighbors =>
          let* (bestNeighbor, bestDist) :=
            bestOf g query neighbors None currDist in
          match bestNeighbor with
          | Some best => climb fuel' g query l best bestDist
          | None => Return (currObj, currDist)
          end
      end
  end.

(** [for (let l = top; l > lo; l--)] with [top = lo + count]. *)
Fixpoint descend (count : nat) (g : HNSWIndex) (query : list float32)
    (lo : nat) (currObj : Node) (currDist : Z) : outcome (Node * Z) :=
  match count with
  | 0 => Return (currObj, currDist)
  | S count' =>
      let* (currObj', currDist') :=
        climb (fuel_of g) g query (lo + S count') currObj currDist in
      descend count' g query lo currObj' currDist'
  end.

(** The [for] loop of [searchLayer] over [cNode.neighbors[level]];
    [f] is the worst result read before the loop. *)
Fixpoint visitNeighbors (g : HNSWIndex) (query : list float32) (ef : nat)
    (f : Cand) (neighbors : list string)
    (v : list string) (C W : list Cand)
  : outcome (list string * list Cand * list Cand) :=
  match neighbors with
  | [] => Return (v, C, W)
  | neighborId :: rest =>
      if set_has neighborId v then visitNeighbors g query ef f rest v C W
      else
        let v1 := set_add neighborId v in
        match map_get neighborId (nodes g) with
        | None => Throw TypeError               (* neighbor.vector *)
        | Some neighbor =>
            let score := dist query (n_vector neighbor) in
            if (length W <? ef) || (c_score f <? score)%Z then
              let e := {| c_id := neighborId; c_score := score |} in
              let W1 := sort_desc (W ++ [e]) in
              visitNeighbors g query ef f rest v1 (C ++ [e])
                (if ef <? length W1 then removelast W1 else W1)
            else visitNeighbors g query ef f rest v1 C W
        end
  end.

(** [while (C.length > 0)] *)
Fixpoint searchLayer_loop (fuel : nat) (g : HNSWIndex) (query : list float32)
    (ef level : nat) (v : list string) (C W : list Cand)
  : outcome (list Cand) :=
  match fuel with
  | 0 => OutOfFuel
  | S fuel' =>
      match sort_desc C with
      | [] => Return W
      | c :: C1 =>
          let W1 := sort_desc W in
          match last_opt W1 with
          | None => Throw TypeError             (* f.score *)
          | Some f =>
              if (c_score c <? c_score f)%Z && (ef <=? length W1)
              then Return W1
              else
                match map_get (c_id c) (nodes g) with
                | None => Throw TypeError       (* cNode.neighbors *)
                | Some cNode =>
                    match nth_error (n_neighbors cNode) level with
                    | None => Throw TypeError   (* undefined is not iterable *)
                    | Some neighbors =>
                        let* (v', C', W') :=
                          visitNeighbors g query ef f neighbors v C1 W1 in
                        searchLayer_loop fuel' g query ef level v' C' W'
                    end
                end
          end
      end
  end.

Definition searchLayer (g : HNSWIndex) (query : list float32) (entry : Node)
    (ef level : nat) : outcome (list Cand) :=
  let e := {| c_id := n_id entry; c_score := dist query (n_vector entry) |} in
  searchLayer_loop (fuel_of g) g query ef level [n_id entry] [e] [e].

(** [search(query, k)] *)
Definition search (g : HNSWIndex) (query : list float64) (k : nat)
  : outcome (list Cand) :=
  match entryPointId g with
  | None => Return []
  | Some ep =>
      let queryVector := map fround query in
      match map_get ep (nodes g) with
      | None => Throw TypeError                 (* currObj.vector *)
      | Some currObj =>
          let currDist := dist queryVector (n_vector currObj) in
          let* (currObj', _) :=
            descend (maxLevel g) g queryVector 0 currObj currDist in
          let* W := searchLayer g queryVector currObj' (efSearch g) 0 in
          Return (firstn k W)
      end
  end.

(** A write through the reference to the node object stored under [key]. *)
Definition mutate (key : string) (f : Node -> Node) (ns : JsMap Node)
  : JsMap Node :=
  match map_get key ns with
  | Some n => map_set key (f n) ns
  | None => ns
  end.

(** [node.neighbors[l] = ids] *)
Definition set_layer (l : nat) (ids : list string) (n : Node) : Node :=
  {| n_id := n_id n; n_vector := n_vector n; n_level := n_level n;
     n_neighbors := list_set l ids (n_neighbors n) |}.

(** [neighbor.neighbors[l].map(nid => ({ id: nid, score: ... }))] *)
Fixpoint neighborCandidates (g : HNSWIndex) (neighbor : Node)
    (ids : list string) : outcome (list Cand) :=
  match ids with
  | [] => Return []
  | nid :: rest =>
      match map_get nid (nodes g) with
      | None => Throw TypeError                 (* n.vector *)
      | Some n =>
          let* cs := neighborCandidates g neighbor rest in
          Return ({| c_id := nid;
                     c_score := dist (n_vector neighbor) (n_vector n) |} :: cs)
      end
  end.

(** [for (const neighborInfo of neighbors)]: link each selected neighbor
    back to the new node and shrink its list when it outgrows [M]. *)
Fixpoint connectNeighbors (g : HNSWIndex) (id : string) (l : nat)
    (neighbors : list Cand) (touchedNodes : list string)
  : outcome (list string) * HNSWIndex :=
  match neighbors with
  | [] => (Return touchedNodes, g)
  | neighborInfo :: rest =>
      match map_get (c_id neighborInfo) (nodes g) with
      | None => (Throw TypeError, g)            (* neighbor.neighbors *)
      | Some neighbor =>
          match nth_error (n_neighbors neighbor) l with
          | None => (Throw TypeError, g)        (* undefined.push *)
          | Some ids =>
              let pushed := ids ++ [id] in
              let neighbor1 := set_layer l pushed neighbor in
              let g1 :=
                with_nodes g (map_set (c_id neighborInfo) neighbor1 (nodes g)) in
              let touched1 := set_add (n_id neighbor) touchedNodes in
              if M g <? length pushed then
                match neighborCandidates g1 neighbor1 pushed with
                | Return neighborCandidates =>
                    let kept := map c_id (selectNeighbors neighborCandidates (M g)) in
                    let g2 :=
                      with_nodes g1
                        (map_set (c_id neighborInfo) (set_layer l kept neighbor1)
                           (nodes g1)) in
                    connectNeighbors g2 id l rest touched1
                | Throw e => (Throw e, g1)
                | OutOfFuel => (OutOfFuel, g1)
                end
              else connectNeighbors g1 id l rest touched1
          end
      end
  end.

(** [for (let l = top; l >= 0; l--)] with [n = top + 1] layers to go.
    [currObj] is [None] when [this.nodes.get(W[0].id)] was [undefined]. *)
Fixpoint connectLayers (n : nat) (g : HNSWIndex) (id : string)
    (floatVector : list float32) (currObj : option Node)
    (touchedNodes : list string) : outcome (list string) * HNSWIndex :=
  match n with
  | 0 => (Return touchedNodes, g)
  | S l =>
      match currObj with
      | None => (Throw TypeError, g)            (* entry.id *)
      | Some entry =>
          match searchLayer g floatVector entry (efConstruction g) l with
          | Return W =>
              (* selectNeighbors sorts W in place *)
              let W' := sort_desc W in
              let neighbors := firstn (M g) W' in
              let g1 :=
                with_nodes g
                  (mutate id (set_layer l (map c_id neighbors)) (nodes g)) in
              match connectNeighbors g1 id l neighbors touchedNodes with
              | (Return touched1, g2) =>
                  let currObj' :=
                    match W' with
                    | [] => currObj
                    | w0 :: _ => map_get (c_id w0) (nodes g2)
                    end in
                  connectLayers l g2 id floatVector currObj' touched1
              | failed => failed
              end
          | Throw e => (Throw e, g)
          | OutOfFuel => (OutOfFuel, g)
          end
      end
  end.

(** [addPoint(id, vector)]; the set of touched ids is returned and the
    graph is the second component, whatever the outcome. *)
Definition addPoint (coin : nat -> bool) (g : HNSWIndex) (id : string)
    (vector : list float64) : outcome (list string) * HNSWIndex :=
  let floatVector := map fround vector in
  let touchedNodes : list string := [] in
  if map_has id (nodes g) then (Throw (DuplicateId id), g)
  else
    let level := getRandomLevel coin in
    let newNode :=
      {| n_id := id; n_vector := floatVector; n_level := level;
         n_neighbors := repeat [] (level + 1) |} in
    let g1 := with_nodes g (map_set id newNode (nodes g)) in
    let touchedNodes := set_add id touchedNodes in
    match entryPointId g1 with
    | None => (Return touchedNodes, with_entry g1 (Some id) level)
    | Some ep =>
        match map_get ep (nodes g1) with
        | None => (Throw TypeError, g1)         (* currObj.vector *)
        | Some currObj =>
            let currDist := dist floatVector (n_vector currObj) in
            match descend (maxLevel g1 - level) g1 floatVector level
                    currObj currDist with
            | Return (currObj', _) =>
                match connectLayers (S (Nat.min level (maxLevel g1))) g1 id
                        floatVector (Some currObj') touchedNodes with
                | (Return touched, g2) =>
                    (Return touched,
                     if maxLevel g2 <? level
                     then with_entry g2 (Some id) level
                     else g2)
                | failed => failed
                end
            | Throw e => (Throw e, g1)
            | OutOfFuel => (OutOfFuel, g1)
            end
        end
    end.

(** [toJSON()] *)
Definition toJSON (g : HNSWIndex) : JIndex :=
  {| j_M := M g;
     j_efConstruction := efConstruction g;
     j_efSearch := efSearch g;
     j_levelMultiplier := levelMultiplier g;
     j_maxLevel := maxLevel g;
     j_entryPointId := entryPointId g;
     j_nodes :=
       map (fun entry : string * Node =>
              let (id, node) := entry in
              {| jn_id := id;
                 jn_vector := map widen (n_vector node);
                 jn_level := n_level node;
                 jn_neighbors := n_neighbors node |})
           (nodes g) |}.

(** [fromJSON(json)] *)
Definition fromJSON (json : JIndex) : HNSWIndex :=
  let index :=
    new_HNSWIndex
      {| cfg_M := Some (j_M json);
         cfg_efConstruction := Some (j_efConstruction json);
         cfg_efSearch := Some (j_efSearch json);
         cfg_levelMultiplier := Some (j_levelMultiplier json) |} in
  let index := with_entry index (j_entryPointId json) (j_maxLevel json) in
  with_nodes index
    (fold_left
       (fun ns (nodeData : JNode) =>
          map_set (jn_id nodeData)
            {| n_id := jn_id nodeData;
               n_vector := map fround (jn_vector nodeData);
               n_level := jn_level nodeData;
               n_neighbors := jn_neighbors nodeData |} ns)
       (j_nodes json) (nodes index)).

(** What an insertion never changes in a stored node: everything but its
    neighbor lists. *)
Definition core (n : Node) : string * list float32 * nat :=
  (n_id n, n_vector n, n_level n).

Definition skeleton (m : JsMap Node) : JsMap (string * list float32 * nat) :=
  map (fun p => (fst p, core (snd p))) m.

(** [g'] differs from [g] in neighbor lists only. *)
Definition same_frame (g g' : HNSWIndex) : Prop :=
  g' = with_nodes g (nodes g') /\ skeleton (nodes g') = skeleton (nodes g).

(** The only exception the traversals raise is a [TypeError]. *)
Definition only_TypeError {A : Type} (o : outcome A) : Prop :=
  forall e, o = Throw e -> e = TypeError.

(** Measures of the two [while] loops: the stored nodes that score above
    [d], and the keys not yet visited. *)
Definition better (g : HNSWIndex) (query : list float32) (d : Z) : nat :=
  length (filter (fun p => (d <? dist query (n_vector (snd p)))%Z) (nodes g)).

Definition unvisited (g : HNSWIndex) (v : list string) : nat :=
  length (filter (fun k => negb (set_has k v)) (map_keys (nodes g))).

(** ** What the specification says about a graph *)

(** Invariant 1: [neighbors[L].length <= M] on every layer [L <= level]. *)
Definition degree_bound (g : HNSWIndex) : Prop :=
  forall k n l ids,
    map_get k (nodes g) = Some n -> l <= n_level n ->
    nth_error (n_neighbors n) l = Some ids -> length ids <= M g.

(** [x] is the key of a node that has a neighbor list on layer [l]. *)
Definition has_layer (g : HNSWIndex) (x : string) (l : nat) : Prop :=
  exists n, map_get x (nodes g) = Some n /\ l < length (n_neighbors n).

(** [n] is a node of the map and has a neighbor list on layer [l]. *)
Definition stored (g : HNSWIndex) (n : Node) (l : nat) : Prop :=
  (exists k, map_get k (nodes g) = Some n) /\ l < length (n_neighbors n).

(** All candidates are keys of nodes that have layer [l]. *)
Definition on_layer (g : HNSWIndex) (l : nat) (cs : list Cand) : Prop :=
  Forall (fun c => has_layer g (c_id c) l) cs.

(** [x] occurs in a neighbor list and is not a key of the node map. *)
Definition dangling (g : HNSWIndex) (x : string) : Prop :=
  map_get x (nodes g) = None /\
  exists k n l ids,
    map_get k (nodes g) = Some n /\ nth_error (n_neighbors n) l = Some ids /\
    In x ids.

(** The shape every graph built by [addPoint] has: a node is stored under
    its own id with [level + 1] neighbor lists, a neighbor on layer [l] is
    a stored node that has layer [l] (so no id is dangling), and the entry
    point is a stored node with a list on layer [maxLevel]. *)
Record well_formed (g : HNSWIndex) : Prop := {
  wf_keys : NoDup (map_keys (nodes g));
  wf_ids : forall k n, map_get k (nodes g) = Some n -> n_id n = k;
  wf_layers : forall k n,
    map_get k (nodes g) = Some n -> length (n_neighbors n) = S (n_level n);
  wf_closed : forall k n l ids x,
    map_get k (nodes g) = Some n -> nth_error (n_neighbors n) l = Some ids ->
    In x ids -> has_layer g x l;
  wf_entry : forall ep, entryPointId g = Some ep -> has_layer g ep (maxLevel g)
}.

(** Invariant 3 and the bound on levels. *)
Definition entry_invariant (g : HNSWIndex) : Prop :=
  (entryPointId g = None <-> nodes g = []) /\
  forall ep, entryPointId g = Some ep ->
    (exists n, map_get ep (nodes g) = Some n /\ n_level n = maxLevel g) /\
    (forall k n, map_get k (nodes g) = Some n -> n_level n <= maxLevel g).

(** Graphs built from an empty one by calls of [addPoint] that return. *)
Inductive reachable : HNSWIndex -> Prop :=
| reach_new (config : HNSWConfig) : reachable (new_HNSWIndex config)
| reach_add (g : HNSWIndex) (coin : nat -> bool) (id : string)
    (vector : list float64) (touched : list string) (g' : HNSWIndex) :
    reachable g -> addPoint coin g id vector = (Return touched, g') ->
    reachable g'.

(** What the constructor establishes and nothing changes afterwards: the
    three counts are truthy, [levelMultiplier] is truthy or the default for
    [M]; and a [Map] holds a key once. *)
Definition params_ok (g : HNSWIndex) : Prop :=
  M g <> 0 /\ efConstruction g <> 0 /\ efSearch g <> 0 /\
  (truthy (levelMultiplier g) = false -> levelMultiplier g = inv_log (M g)) /\
  NoDup (map_keys (nodes g)).

(** The node [fromJSON] builds from an element of [json.nodes]. *)
Definition node_of_json (nodeData : JNode) : Node :=
  {| n_id := jn_id nodeData;
     n_vector := map fround (jn_vector nodeData);
     n_level := jn_level nodeData;
     n_neighbors := jn_neighbors nodeData |}.

(** [linked g l x z]: a path of neighbor links on layer [l] leads from
    [x] to [z]. *)
Inductive linked (g : HNSWIndex) (l : nat) : string -> string -> Prop :=
| linked_refl (x : string) : linked g l x x
| linked_step (x y z : string) (n : Node) (ids : list string) :
    linked g l x y -> map_get y (nodes g) = Some n ->
    nth_error (n_neighbors n) l = Some ids -> In z ids ->
    linked g l x z.

(** Every neighbor of [y] on layer [l] has been visited. *)
Definition expanded (g : HNSWIndex) (l : nat) (v : list string) (y : string)
  : Prop :=
  forall n ids z,
    map_get y (nodes g) = Some n -> nth_error (n_neighbors n) l = Some ids ->
    In z ids -> In z v.

(** The state of [searchLayer] while nothing has been turned away or
    evicted: the visited ids are keys, each is a result, and each is still
    a candidate or has been expanded. *)
Record frontier (g : HNSWIndex) (l : nat) (v : list string) (C W : list Cand)
  : Prop := {
  fr_nodup : NoDup v;
  fr_keys : incl v (map_keys (nodes g));
  fr_results : forall x, In x v -> In x (map c_id W);
  fr_count : length W = length v;
  fr_done : forall y, In y v -> In y (map c_id C) \/ expanded g l v y
}.

(** [adds g g']: a sequence of calls of [addPoint] that return leads from
    [g] to [g']. *)
Inductive adds : HNSWIndex -> HNSWIndex -> Prop :=
| adds_nil (g : HNSWIndex) : adds g g
| adds_step (g : HNSWIndex) (coin : nat -> bool) (id : string)
    (vector : list float64) (touched : list string) (g1 g2 : HNSWIndex) :
    addPoint coin g id vector = (Return touched, g1) -> adds g1 g2 ->
    adds g g2.

(** Every index object there can be: made by the constructor or by
    [fromJSON], then changed by [addPoint], whatever its outcome. *)
Inductive instance : HNSWIndex -> Prop :=
| inst_new (config : HNSWConfig) : instance (new_HNSWIndex config)
| inst_fromJSON (json : JIndex) : instance (fromJSON json)
| inst_addPoint (g : HNSWIndex) (coin : nat -> bool) (id : string)
    (vector : list float64) :
    instance g -> instance (snd (addPoint coin g id vector)).

End Engine.

(** ** Further notions about the engine *)

Section EngineNotions.
Context {num : Numeric}.

(** Every node is stored under its own id. *)
Definition ids_ok (g : HNSWIndex) : Prop :=
  forall k n, map_get k (nodes g) = Some n -> n_id n = k.

(** [c] is a stored node together with its similarity to [query]. *)
Definition scored (g : HNSWIndex) (query : list float32) (c : Cand) : Prop :=
  exists n,
    getNode g (c_id c) = Some n /\ c_score c = dist query (n_vector n).

(** The element of [json.nodes] that [fromJSON] keeps for the id [k]: the
    last one with that id. *)
Definition json_node (json : JIndex) (k : string) : option JNode :=
  find (fun nd => String.eqb (jn_id nd) k) (rev (j_nodes json)).

(** What of a stored node no call of the engine changes: id, vector, level
    and the number of its neighbor lists. *)
Definition shape (n : Node) : string * list float32 * nat * nat :=
  (n_id n, n_vector n, n_level n, length (n_neighbors n)).

(** [{ ...node, vector: Array.from(node.vector) }], the record [saveIndex]
    writes for a node. *)
Definition node_to_json (node : Node) : JNode :=
  {| jn_id := n_id node;
     jn_vector := map widen (n_vector node);
     jn_level := n_level node;
     jn_neighbors := n_neighbors node |}.

(** A JSON value that [fromJSON] takes as it is: truthy parameters, one
    element for an id, single-precision vector components. *)
Definition json_ok (json : JIndex) : Prop :=
  j_M json <> 0 /\ j_efConstruction json <> 0 /\ j_efSearch json <> 0 /\
  (truthy (j_levelMultiplier json) = true) /\
  NoDup (map jn_id (j_nodes json)) /\
  Forall (fun nd => map widen (map fround (jn_vector nd)) = jn_vector nd)
    (j_nodes json).

(** Every id that the node under [x] lists on layer [l] is a key. *)
Definition resolves (g : HNSWIndex) (l : nat) (x : string) : Prop :=
  forall n ids z,
    map_get x (nodes g) = Some n -> nth_error (n_neighbors n) l = Some ids ->
    In z ids -> map_has z (nodes g) = true.

End EngineNotions.

(** ** Similarities that are not numbers

    [dist(a, b)] reads as many components of [b] as [a] has. Past the end of
    a shorter [b] a component is [undefined] and the similarity is [NaN]; so
    it is when a component is [NaN] or infinite. Every comparison with [NaN]
    is false, and [Array.prototype.sort] counts a [NaN] result of its
    comparator as [+0]. The traversals of [search] and [selectNeighbors] are
    given here with such scores. *)

Inductive score : Type :=
| Num (z : Z)
| NaN.

Record Scored : Type := { s_id : string; s_score : score }.

Definition numeric (c : Scored) : Prop := s_score c <> NaN.

(** [a < b] and [a > b] *)
Definition js_lt (a b : score) : bool :=
  match a, b with
  | Num x, Num y => (x <? y)%Z
  | _, _ => false
  end.

Definition js_gt (a b : score) : bool := js_lt b a.

(** [a <= b] *)
Definition js_le (a b : score) : Prop :=
  match a, b with
  | Num x, Num y => (x <= y)%Z
  | _, _ => False
  end.

Definition desc_js (a b : Scored) : Prop := js_le (s_score b) (s_score a).

(** The comparator [(a, b) => b.score - a.score] as [sort] reads it: the
    sign of the difference, and [+0] for [NaN]. *)
Definition by_score (a b : Scored) : comparison :=
  match s_score a, s_score b with
  | Num x, Num y => Z.compare y x
  | _, _ => Eq
  end.

(** The stable sort by [by_score]. *)
Fixpoint insert_stable (x : Scored) (l : list Scored) : list Scored :=
  match l with
  | [] => [x]
  | y :: ys =>
      match by_score x y with
      | Gt => y :: insert_stable x ys
      | _ => x :: l
      end
  end.

Definition sort_stable (l : list Scored) : list Scored :=
  fold_right insert_stable [] l.

(** The similarity [dist(a, b)] and [xs.sort((a, b) => b.score - a.score)]
    of the engine that runs the code. *)
Class Scoring {num : Numeric} : Type := {
  sim : list float32 -> list float32 -> score;
  sort : list Scored -> list Scored
}.

(** What the language requires of [sort]: it permutes the array, and where
    the comparator orders the elements consistently, as it does when every
    score is a number, the result is sorted and stable. Where it does not,
    the order is left to the engine. *)
Definition conforms {num : Numeric} {sc : Scoring} : Prop :=
  (forall l, Permutation (sort l) l) /\
  (forall l, Forall numeric l -> sort l = sort_stable l).

(** A score that is a number, as a score that might not be one. *)
Definition lift (c : Cand) : Scored :=
  {| s_id := c_id c; s_score := Num (c_score c) |}.

Definition outcome_map {A B : Type} (f : A -> B) (o : outcome A) : outcome B :=
  match o with
  | Return a => Return (f a)
  | Throw e => Throw e
  | OutOfFuel => OutOfFuel
  end.

(** Every similarity is a number: the one that [dist] stands for. *)
Definition numbers {num : Numeric} {sc : Scoring} : Prop :=
  forall a b, sim a b = Num (dist a b).

Module Js.
Section Search.
Context {num : Numeric} {sc : Scoring}.

(** [selectNeighbors(candidates, M)] *)
Definition selectNeighbors (candidates : list Scored) (m : nat) : list Scored :=
  firstn m (sort candidates).

(** The [for] loop of the hill-climb over [currObj.neighbors[l]]. *)
Fixpoint bestOf (g : HNSWIndex) (query : list float32)
    (neighbors : list string) (bestNeighbor : option Node) (bestDist : score)
  : outcome (option Node * score) :=
  match neighbors with
  | [] => Return (bestNeighbor, bestDist)
  | neighborId :: rest =>
      match map_get neighborId (nodes g) with
      | None => Throw TypeError                 (* neighbor.vector *)
      | Some neighbor =>
          let d := sim query (n_vector neighbor) in
          if js_gt d bestDist
          then bestOf g query rest (Some neighbor) d
          else bestOf g query rest bestNeighbor bestDist
      end
  end.

(** [while (changed)] on layer [l]. *)
Fixpoint climb (fuel : nat) (g : HNSWIndex) (query : list float32) (l : nat)
    (currObj : Node) (currDist : score) : outcome (Node * score) :=
  match fuel with
  | 0 => OutOfFuel
  | S fuel' =>
      match nth_error (n_neighbors currObj) l with
      | None => Throw TypeError                 (* undefined is not iterable *)
      | Some neighbors =>
          let* (bestNeighbor, bestDist) :=
            bestOf g query neighbors None currDist in
          match bestNeighbor with
          | Some best => climb fuel' g query l best bestDist
          | None => Return (currObj, currDist)
          end
      end
  end.

(** [for (let l = top; l > lo; l--)] with [top = lo + count]. *)
Fixpoint descend (count : nat) (g : HNSWIndex) (query : list float32)
    (lo : nat) (currObj : Node) (currDist : score) : outcome (Node * score) :=
  match count with
  | 0 => Return (currObj, currDist)
  | S count' =>
      let* (currObj', currDist') :=
        climb (fuel_of g) g query (lo + S count') currObj currDist in
      descend count' g query lo currObj' currDist'
  end.

(** The [for] loop of [searchLayer] over [cNode.neighbors[level]];
    [f] is the worst result read before the loop. *)
Fixpoint visitNeighbors (g : HNSWIndex) (query : list float32) (ef : nat)
    (f : Scored) (neighbors : list string)
    (v : list string) (C W : list Scored)
  : outcome (list string * list Scored * list Scored) :=
  match neighbors with
  | [] => Return (v, C, W)
  | neighborId :: rest =>
      if set_has neighborId v then visitNeighbors g query ef f rest v C W
      else
        let v1 := set_add neighborId v in
        match map_get neighborId (nodes g) with
        | None => Throw TypeError               (* neighbor.vector *)
        | Some neighbor =>
            let score := sim query (n_vector neighbor) in
            if (length W <? ef) || js_gt score (s_score f) then
              let e := {| s_id := neighborId; s_score := score |} in
              let W1 := sort (W ++ [e]) in
              visitNeighbors g query ef f rest v1 (C ++ [e])
                (if ef <? length W1 then removelast W1 else W1)
            else visitNeighbors g query ef f rest v1 C W
        end
  end.

(** [while (C.length > 0)] *)
Fixpoint searchLayer_loop (fuel : nat) (g : HNSWIndex) (query : list float32)
    (ef level : nat) (v : list string) (C W : list Scored)
  : outcome (list Scored) :=
  match fuel with
  | 0 => OutOfFuel
  | S fuel' =>
      match C with
      | [] => Return W
      | _ :: _ =>
          match sort C with
          | [] => Throw TypeError               (* c.score *)
          | c :: C1 =>
              let W1 := sort W in
              match last_opt W1 with
              | None => Throw TypeError         (* f.score *)
              | Some f =>
                  if js_lt (s_score c) (s_score f) && (ef <=? length W1)
                  then Return W1
                  else
                    match map_get (s_id c) (nodes g) with
                    | None => Throw TypeError   (* cNode.neighbors *)
                    | Some cNode =>
                        match nth_error (n_neighbors cNode) level with
                        | None => Throw TypeError (* undefined is not iterable *)
                        | Some neighbors =>
                            let* (v', C', W') :=
                              visitNeighbors g query ef f neighbors v C1 W1 in
                            searchLayer_loop fuel' g query ef level v' C' W'
                        end
                    end
              end
          end
      end
  end.

Definition searchLayer (g : HNSWIndex) (query : list float32) (entry : Node)
    (ef level : nat) : outcome (list Scored) :=
  let e := {| s_id := n_id entry; s_score := sim query (n_vector entry) |} in
  searchLayer_loop (fuel_of g) g query ef level [n_id entry] [e] [e].

(** [search(query, k)] *)
Definition search (g : HNSWIndex) (query : list float64) (k : nat)
  : outcome (list Scored) :=
  match entryPointId g with
  | None => Return []
  | Some ep =>
      let queryVector := map fround query in
      match map_get ep (nodes g) with
      | None => Throw TypeError                 (* currObj.vector *)
      | Some currObj =>
          let currDist := sim queryVector (n_vector currObj) in
          let* (currObj', _) :=
            descend (maxLevel g) g queryVector 0 currObj currDist in
          let* W := searchLayer g queryVector currObj' (efSearch g) 0 in
          Return (firstn k W)
      end
  end.

(** [neighbor.neighbors[l].map(nid => ({ id: nid, score: ... }))] *)
Fixpoint neighborCandidates (g : HNSWIndex) (neighbor : Node)
    (ids : list string) : outcome (list Scored) :=
  match ids with
  | [] => Return []
  | nid :: rest =>
      match map_get nid (nodes g) with
      | None => Throw TypeError                 (* n.vector *)
      | Some n =>
          let* cs := neighborCandidates g neighbor rest in
          Return ({| s_id := nid;
                     s_score := sim (n_vector neighbor) (n_vector n) |} :: cs)
      end
  end.

(** [for (const neighborInfo of neighbors)]: link each selected neighbor
    back to the new node and shrink its list when it outgrows [M]. *)
Fixpoint connectNeighbors (g : HNSWIndex) (id : string) (l : nat)
    (neighbors : list Scored) (touchedNodes : list string)
  : outcome (list string) * HNSWIndex :=
  match neighbors with
  | [] => (Return touchedNodes, g)
  | neighborInfo :: rest =>
      match map_get (s_id neighborInfo) (nodes g) with
      | None => (Throw TypeError, g)            (* neighbor.neighbors *)
      | Some neighbor =>
          match nth_error (n_neighbors neighbor) l with
          | None => (Throw TypeError, g)        (* undefined.push *)
          | Some ids =>
              let pushed := ids ++ [id] in
              let neighbor1 := set_layer l pushed neighbor in
              let g1 :=
                with_nodes g (map_set (s_id neighborInfo) neighbor1 (nodes g)) in
              let touched1 := set_add (n_id neighbor) touchedNodes in
              if M g <? length pushed then
                match neighborCandidates g1 neighbor1 pushed with
                | Return neighborCandidates =>
                    let kept := map s_id (selectNeighbors neighborCandidates (M g)) in
                    let g2 :=
                      with_nodes g1
                        (map_set (s_id neighborInfo) (set_layer l kept neighbor1)
                           (nodes g1)) in
                    connectNeighbors g2 id l rest touched1
                | Throw e => (Throw e, g1)
                | OutOfFuel => (OutOfFuel, g1)
                end
              else connectNeighbors g1 id l rest touched1
          end
      end
  end.

(** [for (let l = top; l >= 0; l--)] with [n = top + 1] layers to go.
    [currObj] is [None] when [this.nodes.get(W[0].id)] was [undefined]. *)
Fixpoint connectLayers (n : nat) (g : HNSWIndex) (id : string)
    (floatVector : list float32) (currObj : option Node)
    (touchedNodes : list string) : outcome (list string) * HNSWIndex :=
  match n with
  | 0 => (Return touchedNodes, g)
  | S l =>
      match currObj with
      | None => (Throw TypeError, g)            (* entry.id *)
      | Some entry =>
          match searchLayer g floatVector entry (efConstruction g) l with
          | Return W =>
              (* selectNeighbors sorts W in place *)
              let W' := sort W in
              let neighbors := firstn (M g) W' in
              let g1 :=
                with_nodes g
                  (mutate id (set_layer l (map s_id neighbors)) (nodes g)) in
              match connectNeighbors g1 id l neighbors touchedNodes with
              | (Return touched1, g2) =>
                  let currObj' :=
                    match W' with
                    | [] => currObj
                    | w0 :: _ => map_get (s_id w0) (nodes g2)
                    end in
                  connectLayers l g2 id floatVector currObj' touched1
              | failed => failed
              end
          | Throw e => (Throw e, g)
          | OutOfFuel => (OutOfFuel, g)
          end
      end
  end.

(** [addPoint(id, vector)]; the set of touched ids is returned and the
    graph is the second component, whatever the outcome. *)
Definition addPoint (coin : nat -> bool) (g : HNSWIndex) (id : string)
    (vector : list float64) : outcome (list string) * HNSWIndex :=
  let floatVector := map fround vector in
  let touchedNodes : list string := [] in
  if map_has id (nodes g) then (Throw (DuplicateId id), g)
  else
    let level := getRandomLevel coin in
    let newNode :=
      {| n_id := id; n_vector := floatVector; n_level := level;
         n_neighbors := repeat [] (level + 1) |} in
    let g1 := with_nodes g (map_set id newNode (nodes g)) in
    let touchedNodes := set_add id touchedNodes in
    match entryPointId g1 with
    | None => (Return touchedNodes, with_entry g1 (Some id) level)
    | Some ep =>
        match map_get ep (nodes g1) with
        | None => (Throw TypeError, g1)         (* currObj.vector *)
        | Some currObj =>
            let currDist := sim floatVector (n_vector currObj) in
            match descend (maxLevel g1 - level) g1 floatVector level
                    currObj currDist with
            | Return (currObj', _) =>
                match connectLayers (S (Nat.min level (maxLevel g1))) g1 id
                        floatVector (Some currObj') touchedNodes with
                | (Return touched, g2) =>
                    (Return touched,
                     if maxLevel g2 <? level
                     then with_entry g2 (Some id) level
                     else g2)
                | failed => failed
                end
            | Throw e => (Throw e, g1)
            | OutOfFuel => (OutOfFuel, g1)
            end
        end
    end.

(** Measure of the hill-climb: the stored nodes that score above [d]. *)
Definition better (g : HNSWIndex) (query : list float32) (d : score) : nat :=
  length (filter (fun p => js_gt (sim query (n_vector (snd p))) d) (nodes g)).

(** All candidates are keys of nodes that have layer [l]. *)
Definition on_layer (g : HNSWIndex) (l : nat) (cs : list Scored) : Prop :=
  Forall (fun c => has_layer g (s_id c) l) cs.

(** No stored vector has [NaN] for its similarity to [query]. *)
Definition comparable (g : HNSWIndex) (query : list float32) : Prop :=
  Forall (fun n => sim query (n_vector n) <> NaN) (map_values (nodes g)).

End Search.
End Js.

(** ** The stores, [src/lib/db.ts], and the indexer facade, [src/index.ts]

    First what the migration uses of the facade: [init], [indexDocuments],
    [resetIndex], [getAllDocuments] and [saveIndex]; the other operations
    follow further down. A store transaction always commits here; an
    object store is a map from key to record and [getAll] lists it in the
    order the keys came in. *)

Section Facade.
Context {num : Numeric}.
(** The type of [metadata], opaque to the indexer. *)
Variable Metadata : Type.

Record VectorDocument : Type := {
  d_id : string;
  d_text : string;
  d_metadata : option Metadata;
  d_embedding : option (list float64);
  d_createdAt : Z
}.

(** [toJSON()] without its [nodes], the record under the key ["hnsw-meta"]. *)
Record IndexMeta : Type := {
  mt_M : nat;
  mt_efConstruction : nat;
  mt_efSearch : nat;
  mt_levelMultiplier : float64;
  mt_maxLevel : nat;
  mt_entryPointId : option string
}.

Record VectorStore : Type := {
  documents : JsMap VectorDocument;
  meta : option IndexMeta;
  hnsw_nodes : JsMap JNode
}.

Record Vectoria : Type := {
  db : VectorStore;
  index : HNSWIndex;
  initialized : bool
}.

(** [store.put(doc)] on a store with [keyPath: 'id'], for each document. *)
Definition addMany (docs : list VectorDocument) (s : VectorStore) : VectorStore :=
  {| documents := fold_left (fun m doc => map_set (d_id doc) doc m) docs (documents s);
     meta := meta s;
     hnsw_nodes := hnsw_nodes s |}.

Definition saveNodes (ns : list JNode) (s : VectorStore) : VectorStore :=
  {| documents := documents s;
     meta := meta s;
     hnsw_nodes := fold_left (fun m n => map_set (jn_id n) n m) ns (hnsw_nodes s) |}.

Definition saveIndexMeta (data : IndexMeta) (s : VectorStore) : VectorStore :=
  {| documents := documents s; meta := Some data; hnsw_nodes := hnsw_nodes s |}.

Definition clearIndex (s : VectorStore) : VectorStore :=
  {| documents := documents s; meta := None; hnsw_nodes := [] |}.

Definition getAll (s : VectorStore) : list VectorDocument :=
  map_values (documents s).

Definition getAllNodes (s : VectorStore) : list JNode :=
  map_values (hnsw_nodes s).

Definition with_db (x : Vectoria) (s : VectorStore) : Vectoria :=
  {| db := s; index := index x; initialized := initialized x |}.

Definition with_index (x : Vectoria) (g : HNSWIndex) : Vectoria :=
  {| db := db x; index := g; initialized := initialized x |}.

(** [init()] *)
Definition init (x : Vectoria) : Vectoria :=
  if initialized x then x
  else
    match meta (db x) with
    | Some m =>
        {| db := db x;
           index :=
             fromJSON
               {| j_M := mt_M m;
                  j_efConstruction := mt_efConstruction m;
                  j_efSearch := mt_efSearch m;
                  j_levelMultiplier := mt_levelMultiplier m;
                  j_maxLevel := mt_maxLevel m;
                  j_entryPointId := mt_entryPointId m;
                  j_nodes := getAllNodes (db x) |};
           initialized := true |}
    | None => {| db := db x; index := index x; initialized := true |}
    end.

(** [saveIndex(touchedIds)], with the set of touched ids given. *)
Definition saveIndex (touchedIds : list string) (x : Vectoria) : Vectoria :=
  let json := toJSON (index x) in
  let s :=
    saveIndexMeta
      {| mt_M := j_M json;
         mt_efConstruction := j_efConstruction json;
         mt_efSearch := j_efSearch json;
         mt_levelMultiplier := j_levelMultiplier json;
         mt_maxLevel := j_maxLevel json;
         mt_entryPointId := j_entryPointId json |} (db x) in
  let nodesToSave :=
    flat_map
      (fun id =>
         match getNode (index x) id with
         | Some node =>
             [{| jn_id := n_id node;
                 jn_vector := map widen (n_vector node);
                 jn_level := n_level node;
                 jn_neighbors := n_neighbors node |}]
         | None => []
         end)
      touchedIds in
  with_db x (match nodesToSave with [] => s | _ => saveNodes nodesToSave s end).

(** The loop of [indexDocuments] over [docs]; [coins pos] are the random
    draws of the insertion of the document at position [pos]. *)
Fixpoint addPoints (coins : nat -> nat -> bool) (pos : nat)
    (docs : list VectorDocument) (g : HNSWIndex) (allTouchedIds : list string)
  : outcome (list string) * HNSWIndex :=
  match docs with
  | [] => (Return allTouchedIds, g)
  | doc :: rest =>
      match d_embedding doc with
      | Some embedding =>
          match addPoint (coins pos) g (d_id doc) embedding with
          | (Return touched, g') =>
              addPoints coins (S pos) rest g'
                (fold_left (fun s id => set_add id s) touched allTouchedIds)
          | failed => failed
          end
      | None => addPoints coins (S pos) rest g allTouchedIds
      end
  end.

(** [indexDocuments(docs)] *)
Definition indexDocuments (coins : nat -> nat -> bool)
    (docs : list VectorDocument) (x : Vectoria) : outcome unit * Vectoria :=
  let x := init x in
  match addPoints coins 0 docs (index x) [] with
  | (Return allTouchedIds, g) =>
      let x := with_index x g in
      let x := with_db x (addMany docs (db x)) in
      (Return tt, saveIndex allTouchedIds x)
  | (Throw e, g) => (Throw e, with_index x g)
  | (OutOfFuel, g) => (OutOfFuel, with_index x g)
  end.

(** [resetIndex()] *)
Definition resetIndex (x : Vectoria) : Vectoria :=
  {| db := clearIndex (db x);
     index := new_HNSWIndex default_config;
     initialized := initialized x |}.

(** [getAllDocuments()] *)
Definition getAllDocuments (x : Vectoria) : list VectorDocument := getAll (db x).

(** ** The migration controller, [src/lib/migration.ts]

    [start] is asynchronous and [stop] may be called while it waits. The
    flag [shouldStop] is read at the top of each iteration and after the
    loop only, so all that matters of a call of [stop] is the iteration
    during which it came: [stops 0] says whether [stop] was called while
    [start] waited for [getAllDocuments] and [resetIndex], [stops (S i)]
    whether it was called while iteration [i] waited for the embedder, the
    indexer or the timer. *)

Record MigrationStatus : Type := {
  st_total : nat;
  st_processed : nat;
  st_lastProcessedId : option string;
  st_isComplete : bool;
  st_error : option error
}.

Record MigrationManager : Type := {
  status : MigrationStatus;
  isRunning : bool;
  shouldStop : bool
}.

(** What a call of [start] leaves: its outcome, the manager, the indexer
    and, for the statements only, the batches handed to [indexDocuments]. *)
Record MigrationRun : Type := {
  r_outcome : outcome unit;
  r_manager : MigrationManager;
  r_indexer : Vectoria;
  r_batches : list (list VectorDocument)
}.

(** [targetEmbedder.embedBatch(texts)]; [None] when it rejects. *)
Variable embedBatch : list string -> option (list (list float64)).

Definition new_MigrationManager : MigrationManager :=
  {| status := {| st_total := 0; st_processed := 0; st_lastProcessedId := None;
                  st_isComplete := false; st_error := None |};
     isRunning := false;
     shouldStop := false |}.

Definition with_status (m : MigrationManager) (s : MigrationStatus)
  : MigrationManager :=
  {| status := s; isRunning := isRunning m; shouldStop := shouldStop m |}.

Definition with_flags (m : MigrationManager) (running stopping : bool)
  : MigrationManager :=
  {| status := status m; isRunning := running; shouldStop := stopping |}.

Definition set_total (n : nat) (s : MigrationStatus) : MigrationStatus :=
  {| st_total := n; st_processed := st_processed s;
     st_lastProcessedId := st_lastProcessedId s;
     st_isComplete := st_isComplete s; st_error := st_error s |}.

Definition set_progress (n : nat) (last : string) (s : MigrationStatus)
  : MigrationStatus :=
  {| st_total := st_total s; st_processed := n;
     st_lastProcessedId := Some last;
     st_isComplete := st_isComplete s; st_error := st_error s |}.

Definition set_processed (n : nat) (s : MigrationStatus) : MigrationStatus :=
  {| st_total := st_total s; st_processed := n;
     st_lastProcessedId := st_lastProcessedId s;
     st_isComplete := st_isComplete s; st_error := st_error s |}.

Definition set_complete (s : MigrationStatus) : MigrationStatus :=
  {| st_total := st_total s; st_processed := st_processed s;
     st_lastProcessedId := st_lastProcessedId s;
     st_isComplete := true; st_error := st_error s |}.

Definition set_error (e : error) (s : MigrationStatus) : MigrationStatus :=
  {| st_total := st_total s; st_processed := st_processed s;
     st_lastProcessedId := st_lastProcessedId s;
     st_isComplete := st_isComplete s; st_error := Some e |}.

(** [stop()] *)
Definition stop (m : MigrationManager) : MigrationManager :=
  with_flags m (isRunning m) true.

(** [getStatus()] *)
Definition getStatus (m : MigrationManager) : MigrationStatus := status m.

(** The calls of [stop] that came during a wait. *)
Definition signal (called : bool) (m : MigrationManager) : MigrationManager :=
  if called then stop m else m.

(** [batch.map((doc, idx) => ({ ...doc, embedding: newEmbeddings[idx] }))],
    from index [idx] on. *)
Fixpoint reembed (idx : nat) (newEmbeddings : list (list float64))
    (batch : list VectorDocument) : list VectorDocument :=
  match batch with
  | [] => []
  | doc :: rest =>
      {| d_id := d_id doc; d_text := d_text doc; d_metadata := d_metadata doc;
         d_embedding := nth_error newEmbeddings idx;
         d_createdAt := d_createdAt doc |}
      :: reembed (S idx) newEmbeddings rest
  end.

(** [for (let i = 0; i < allDocs.length; i += batchSize)], at iteration
    [iter] with index [i]; [coins iter] are the draws of that batch. *)
Fixpoint batches (fuel : nat) (stops : nat -> bool)
    (coins : nat -> nat -> nat -> bool) (batchSize : nat)
    (allDocs : list VectorDocument) (i iter processedCount : nat)
    (m : MigrationManager) (x : Vectoria)
    (done : list (list VectorDocument)) : MigrationRun :=
  match fuel with
  | 0 => {| r_outcome := OutOfFuel; r_manager := m; r_indexer := x;
            r_batches := done |}
  | S fuel' =>
      if i <? length allDocs then
        if shouldStop m then
          {| r_outcome := Return tt; r_manager := m; r_indexer := x;
             r_batches := done |}
        else
          let batch := firstn batchSize (skipn i allDocs) in
          let texts := map d_text batch in
          let m' := signal (stops (S iter)) m in
          match embedBatch texts with
          | None =>
              {| r_outcome := Throw EmbedderFailure; r_manager := m';
                 r_indexer := x; r_batches := done |}
          | Some newEmbeddings =>
              let updatedDocs := reembed 0 newEmbeddings batch in
              match indexDocuments (coins iter) updatedDocs x with
              | (Return _, x') =>
                  let processedCount := processedCount + length batch in
                  match last_opt batch with
                  | None =>                       (* batch[batch.length - 1].id *)
                      {| r_outcome := Throw TypeError;
                         r_manager :=
                           with_status m'
                             (set_processed processedCount (status m'));
                         r_indexer := x'; r_batches := done ++ [updatedDocs] |}
                  | Some lastDoc =>
                      batches fuel' stops coins batchSize allDocs
                        (i + batchSize) (S iter) processedCount
                        (with_status m'
                           (set_progress processedCount (d_id lastDoc)
                              (status m')))
                        x' (done ++ [updatedDocs])
                  end
              | (failed, x') =>
                  {| r_outcome := bind failed (fun _ => Return tt);
                     r_manager := m'; r_indexer := x'; r_batches := done |}
              end
          end
      else
        {| r_outcome := Return tt; r_manager := m; r_indexer := x;
           r_batches := done |}
  end.

(** [start(batchSize)] *)
Definition start (stops : nat -> bool) (coins : nat -> nat -> nat -> bool)
    (batchSize : nat) (m : MigrationManager) (x : Vectoria) : MigrationRun :=
  if isRunning m then
    {| r_outcome := Throw AlreadyRunning; r_manager := m; r_indexer := x;
       r_batches := [] |}
  else
    let m := with_flags m true false in
    let allDocs := getAllDocuments x in
    let m := with_status m (set_total (length allDocs) (status m)) in
    let x := resetIndex x in
    let m := signal (stops 0) m in
    let r :=
      batches (S (length allDocs)) stops coins batchSize allDocs 0 0 0 m x [] in
    match r_outcome r with
    | Return _ =>
        let m := r_manager r in
        let m :=
          if shouldStop m then m
          else with_status m (set_complete (status m)) in
        {| r_outcome := Return tt;
           r_manager := with_flags m false (shouldStop m);
           r_indexer := r_indexer r; r_batches := r_batches r |}
    | Throw e =>
        let m := r_manager r in
        let m := with_status m (set_error e (status m)) in
        {| r_outcome := Throw e;
           r_manager := with_flags m false (shouldStop m);
           r_indexer := r_indexer r; r_batches := r_batches r |}
    | OutOfFuel => r
    end.

(** An object store with [keyPath: 'id'] holds each document under its own
    id, once. *)
Definition store_ok (x : Vectoria) : Prop :=
  NoDup (map_keys (documents (db x))) /\
  forall k d, map_get k (documents (db x)) = Some d -> d_id d = k.


End Facade.

(** ** The rest of the stores and of the facade

    The single-record operations of [src/lib/db.ts] and the public
    operations of [src/index.ts]: [addDocument], [addDocuments], [search]
    and [clear]. The embedder is a capability of the indexer: [embed] and
    [embedBatch] give [None] when they reject. [uuidv4()] and [Date.now()]
    are given by the caller of the model, and [cosineSimilarity], of
    [src/lib/vector.ts], is any function from two vectors to a score. *)

Section Documents.
Context {num : Numeric}.
Variable Metadata : Type.

Local Abbreviation VectorDocument := (VectorDocument Metadata).
Local Abbreviation VectorStore := (VectorStore Metadata).
Local Abbreviation Vectoria := (Vectoria Metadata).

(** [store.delete(key)] *)
Definition map_delete (V : Type) (k : string) (m : JsMap V) : JsMap V :=
  filter (fun p => negb (String.eqb (fst p) k)) m.

(** [add(doc)] *)
Definition add (doc : VectorDocument) (s : VectorStore) : VectorStore :=
  {| documents := map_set (d_id doc) doc (documents s);
     meta := meta s;
     hnsw_nodes := hnsw_nodes s |}.

(** [get(id)] *)
Definition get (id : string) (s : VectorStore) : option VectorDocument :=
  map_get id (documents s).

(** [getMany(ids)]: one entry for each id, [None] for [undefined]. *)
Definition getMany (ids : list string) (s : VectorStore)
  : list (option VectorDocument) :=
  map (fun id => map_get id (documents s)) ids.

(** [delete(id)] *)
Definition delete (id : string) (s : VectorStore) : VectorStore :=
  {| documents := map_delete id (documents s);
     meta := meta s;
     hnsw_nodes := hnsw_nodes s |}.

(** [clear()] of the store *)
Definition clear (s : VectorStore) : VectorStore :=
  {| documents := []; meta := None; hnsw_nodes := [] |}.

(** [loadIndexMeta()] *)
Definition loadIndexMeta (s : VectorStore) : option (IndexMeta) := meta s.

(** [new Vectoria(config)] with an embedder configured, over the database
    that [config.dbName] names; [config.hnswConfig] is not read. *)
Definition new_Vectoria (s : VectorStore) : Vectoria :=
  {| db := s; index := new_HNSWIndex default_config; initialized := false |}.

Record SearchResult : Type := {
  sr_doc : VectorDocument;
  sr_score : Z
}.

(** An element of the argument of [addDocuments]. *)
Record Item : Type := {
  i_text : string;
  i_metadata : option Metadata
}.

Variable embed : string -> option (list float64).
Variable embedBatch : list string -> option (list (list float64)).
Variable cosineSimilarity : list float64 -> list float64 -> Z.
(** The object [{}]. *)
Variable no_metadata : Metadata.

(** [metadata = {}] and [item.metadata || {}] *)
Definition metadata_or_default (metadata : option Metadata) : Metadata :=
  match metadata with
  | Some md => md
  | None => no_metadata
  end.

(** [addDocument(text, metadata)]; [uuid] and [now] are the values of
    [uuidv4()] and [Date.now()], [coin] the draws of the insertion. *)
Definition addDocument (coin : nat -> bool) (uuid : string) (now : Z)
    (text : string) (metadata : option Metadata) (x : Vectoria)
  : outcome VectorDocument * Vectoria :=
  let x := init x in
  match embed text with
  | None => (Throw EmbedderFailure, x)
  | Some embedding =>
      let doc :=
        {| d_id := uuid; d_text := text;
           d_metadata := Some (metadata_or_default metadata);
           d_embedding := Some embedding; d_createdAt := now |} in
      match addPoint coin (index x) (d_id doc) embedding with
      | (Return touchedIds, g) =>
          let x := with_index x g in
          let x := with_db x (add doc (db x)) in
          (Return doc, saveIndex touchedIds x)
      | (Throw e, g) => (Throw e, with_index x g)
      | (OutOfFuel, g) => (OutOfFuel, with_index x g)
      end
  end.

(** [items.map((item, i) => ({ id: uuidv4(), ..., embedding: embeddings[i],
    createdAt: Date.now() }))], from index [i] on. *)
Fixpoint new_docs (uuid : nat -> string) (now : nat -> Z) (i : nat)
    (embeddings : list (list float64)) (items : list Item)
  : list VectorDocument :=
  match items with
  | [] => []
  | item :: rest =>
      {| d_id := uuid i; d_text := i_text item;
         d_metadata := Some (metadata_or_default (i_metadata item));
         d_embedding := nth_error embeddings i; d_createdAt := now i |}
      :: new_docs uuid now (S i) embeddings rest
  end.

(** [addDocuments(items)] *)
Definition addDocuments (coins : nat -> nat -> bool) (uuid : nat -> string)
    (now : nat -> Z) (items : list Item) (x : Vectoria)
  : outcome (list VectorDocument) * Vectoria :=
  let x := init x in
  let texts := map i_text items in
  match embedBatch texts with
  | None => (Throw EmbedderFailure, x)
  | Some embeddings =>
      let docs := new_docs uuid now 0 embeddings items in
      match addPoints coins 0 docs (index x) [] with
      | (Return allTouchedIds, g) =>
          let x := with_index x g in
          let x := with_db x (addMany docs (db x)) in
          (Return docs, saveIndex allTouchedIds x)
      | (Throw e, g) => (Throw e, with_index x g)
      | (OutOfFuel, g) => (OutOfFuel, with_index x g)
      end
  end.

(** [doc.embedding && doc.embedding.length > 0] *)
Definition has_embedding (doc : VectorDocument) : bool :=
  match d_embedding doc with
  | Some (_ :: _) => true
  | _ => false
  end.

(** [doc.embedding!] *)
Definition embedding_of (doc : VectorDocument) : list float64 :=
  match d_embedding doc with
  | Some embedding => embedding
  | None => []
  end.

(** The brute-force branch of [search]. *)
Definition bruteForce (queryEmbedding : list float64)
    (allDocs : list VectorDocument) (topK : nat) : list Cand :=
  firstn topK
    (sort_desc
       (map (fun doc =>
               {| c_id := d_id doc;
                  c_score := cosineSimilarity queryEmbedding (embedding_of doc) |})
          (filter has_embedding allDocs))).

(** [results.map((r, i) => docs[i] ? { ...docs[i], score: r.score } : null)
    .filter(Boolean)], from index [i] on. *)
Fixpoint finalResults (i : nat) (results : list Cand)
    (docs : list (option VectorDocument)) : list SearchResult :=
  match results with
  | [] => []
  | r :: rest =>
      match nth_error docs i with
      | Some (Some doc) =>
          {| sr_doc := doc; sr_score := c_score r |}
          :: finalResults (S i) rest docs
      | _ => finalResults (S i) rest docs
      end
  end.

(** [search(query, topK, useBruteForce)] of the facade *)
Definition Vectoria_search (query : string) (topK : nat)
    (useBruteForce : bool) (x : Vectoria)
  : outcome (list SearchResult) * Vectoria :=
  let x := init x in
  match embed query with
  | None => (Throw EmbedderFailure, x)
  | Some queryEmbedding =>
      let found :=
        if useBruteForce
        then Return (bruteForce queryEmbedding (getAll (db x)) topK)
        else search (index x) queryEmbedding topK in
      (let* results := found in
       let ids := map c_id results in
       let docs := getMany ids (db x) in
       Return (finalResults 0 results docs),
       x)
  end.

(** [clear()] of the facade *)
Definition Vectoria_clear (x : Vectoria) : Vectoria :=
  {| db := clear (db x);
     index := new_HNSWIndex default_config;
     initialized := initialized x |}.

(** The record [saveIndex] puts under ["hnsw-meta"] for a graph. *)
Definition meta_of (g : HNSWIndex) : IndexMeta :=
  {| mt_M := M g;
     mt_efConstruction := efConstruction g;
     mt_efSearch := efSearch g;
     mt_levelMultiplier := levelMultiplier g;
     mt_maxLevel := maxLevel g;
     mt_entryPointId := entryPointId g |}.

(** The node store holds, under its id, the record of every node of the
    graph in memory, and nothing else. *)
Definition mirrors (x : Vectoria) : Prop :=
  NoDup (map_keys (hnsw_nodes (db x))) /\
  forall k,
    map_get k (hnsw_nodes (db x)) =
    option_map node_to_json (getNode (index x) k).

(** The stores hold the graph in memory. *)
Definition persisted (x : Vectoria) : Prop :=
  meta (db x) = Some (meta_of (index x)) /\ mirrors x.

(** What [search] makes of one result of the index. *)
Definition found (s : VectorStore) (r : Cand) : list SearchResult :=
  match get (c_id r) s with
  | Some d => [{| sr_doc := d; sr_score := c_score r |}]
  | None => []
  end.

(** [if (doc.embedding)] *)
Definition indexed (d : VectorDocument) : bool :=
  match d_embedding d with
  | Some _ => true
  | None => false
  end.

(** Everything of the manager but the progress and the stop flag. *)
Definition kept (m m' : MigrationManager) : Prop :=
  isRunning m' = isRunning m /\
  st_total (status m') = st_total (status m) /\
  st_isComplete (status m') = st_isComplete (status m) /\
  st_error (status m') = st_error (status m).

(** [d'] is [d] with another embedding. *)
Definition same_fields (d d' : VectorDocument) : Prop :=
  d_id d' = d_id d /\ d_text d' = d_text d /\
  d_metadata d' = d_metadata d /\ d_createdAt d' = d_createdAt d.

(** The document store of [x] has the keys of [docs0] and each of its
    documents is the one of [docs0] with another embedding. *)
Definition docs_kept (docs0 : JsMap VectorDocument) (x : Vectoria) : Prop :=
  map_keys (documents (db x)) = map_keys docs0 /\
  forall k d, map_get k docs0 = Some d ->
    exists d', map_get k (documents (db x)) = Some d' /\ same_fields d d'.

End Documents.

(** ** A concrete instance for running the model

    Integer components, the dot product as similarity. On vectors that are
    all equal every pair has the same similarity, as with the cosine. *)
Module Run.
Open Scope string_scope.

Definition dot (a b : list Z) : Z :=
  fold_left Z.add (map (fun p => (fst p * snd p)%Z) (combine a b)) 0%Z.

#[export] Instance numeric : Numeric := {|
  float32 := Z;
  float64 := Z;
  fround := fun x => x;
  widen := fun x => x;
  dist := dot;
  truthy := fun x => negb (x =? 0)%Z;
  inv_log := fun _ => 1%Z
|}.

Definition empty : HNSWIndex := new_HNSWIndex default_config.

(** Every level drawn is 0, or 1 when the first draw falls below the
    multiplier. *)
Definition level0 : nat -> bool := fun _ => false.
Definition level1 : nat -> bool := fun i => Nat.eqb i 0.

Definition add (id : string) (v : list Z) (g : HNSWIndex) : HNSWIndex :=
  snd (addPoint level0 g id v).

(** Three documents. *)
Definition g3 : HNSWIndex :=
  add "c" [1; 2]%Z (add "b" [2; 1]%Z (add "a" [1; 1]%Z empty)).

(** A fourth document whose level is drawn as 1, above the top level 0 of
    [g3], and a fifth one on level 0. *)
Definition g4 : HNSWIndex := snd (addPoint level1 g3 "d" [2; 2]%Z).
Definition g5 : HNSWIndex := snd (addPoint level0 g4 "e" [3; 1]%Z).

(** The similarity is [NaN] where the stored vector is shorter than the
    query, and the sort is the stable one whatever the scores. *)
Definition similarity (a b : list Z) : score :=
  if Nat.ltb (length b) (length a) then NaN else Num (dot a b).

#[export] Instance scoring : Scoring :=
  {| sim := similarity; sort := sort_stable |}.

Definition insert (id : string) (v : list Z) (g : HNSWIndex) : HNSWIndex :=
  snd (Js.addPoint level0 g id v).

(** An index whose lists hold one id at most ([M = 1]): two documents,
    then a third one, whose insertion extends a full list, which is then
    pruned. *)
Definition tight : HNSWIndex :=
  new_HNSWIndex
    {| cfg_M := Some 1; cfg_efConstruction := None; cfg_efSearch := None;
       cfg_levelMultiplier := None |}.
Definition t1 : HNSWIndex := insert "a" [1; 1]%Z tight.
Definition t2 : HNSWIndex := insert "b" [2; 1]%Z t1.
Definition t3 : HNSWIndex := insert "c" [1; 2]%Z t2.

(** The index that [addPoint] builds from [b = [1, 0]], [a = [1]] and
    [c = [1, 1]], added in this order on level 0, as it is persisted: the
    second vector has one component where the others have two. *)
Definition mixed_json : JIndex :=
  {| j_M := 16; j_efConstruction := 200; j_efSearch := 200;
     j_levelMultiplier := 1%Z; j_maxLevel := 0; j_entryPointId := Some "b";
     j_nodes :=
       [{| jn_id := "b"; jn_vector := [1; 0]%Z; jn_level := 0;
           jn_neighbors := [["a"; "c"]] |};
        {| jn_id := "a"; jn_vector := [1]%Z; jn_level := 0;
           jn_neighbors := [["b"; "c"]] |};
        {| jn_id := "c"; jn_vector := [1; 1]%Z; jn_level := 0;
           jn_neighbors := [["b"; "a"]] |}] |}.

Definition mixed : HNSWIndex := fromJSON mixed_json.

(** A persisted index whose lists hold four ids at most: the entry [e]
    lists [c], [n] and [x]; the vector of [n] has one component, and [x]
    lists four ids that have no node. *)
Definition frayed_json : JIndex :=
  {| j_M := 4; j_efConstruction := 4; j_efSearch := 4;
     j_levelMultiplier := 1%Z; j_maxLevel := 0; j_entryPointId := Some "e";
     j_nodes :=
       [{| jn_id := "e"; jn_vector := [3; 4]%Z; jn_level := 0;
           jn_neighbors := [["c"; "n"; "x"]] |};
        {| jn_id := "c"; jn_vector := [1; 4]%Z; jn_level := 0;
           jn_neighbors := [["e"]] |};
        {| jn_id := "n"; jn_vector := [1]%Z; jn_level := 0;
           jn_neighbors := [["e"]] |};
        {| jn_id := "x"; jn_vector := [5; 0]%Z; jn_level := 0;
           jn_neighbors := [["g1"; "g2"; "g3"; "g4"]] |}] |}.

Definition frayed : HNSWIndex := fromJSON frayed_json.

Definition frayed_x : Node :=
  {| n_id := "x"; n_vector := [5; 0]%Z; n_level := 0;
     n_neighbors := [["g1"; "g2"; "g3"; "g4"; "q"]] |}.

(** Eighteen documents with the same embedding, default parameters. *)
Definition ids18 : list string :=
  ["01"; "02"; "03"; "04"; "05"; "06"; "07"; "08"; "09";
   "10"; "11"; "12"; "13"; "14"; "15"; "16"; "17"; "18"].

Definition g18 : HNSWIndex :=
  fold_left (fun g id => add id [1%Z] g) ids18 empty.

(** A persisted graph whose node lists an id that has no node. *)
Definition ghost_json : JIndex :=
  {| j_M := 16; j_efConstruction := 200; j_efSearch := 200;
     j_levelMultiplier := 1%Z; j_maxLevel := 1; j_entryPointId := Some "a";
     j_nodes :=
       [{| jn_id := "a"; jn_vector := [1%Z]; jn_level := 1;
           jn_neighbors := [["ghost"]; ["ghost"]] |}] |}.

Definition ghost : HNSWIndex := fromJSON ghost_json.

Definition ghost_a : Node :=
  {| n_id := "a"; n_vector := [1%Z]; n_level := 1;
     n_neighbors := [["ghost"]; ["ghost"]] |}.

Definition g3_a : Node :=
  {| n_id := "a"; n_vector := [1; 1]%Z; n_level := 0;
     n_neighbors := [["b"; "c"]] |}.

(** Five stored documents, an indexer that has not loaded anything yet and
    an embedder that maps every text to the same vector. *)
Definition doc (id text : string) (createdAt : Z) : VectorDocument unit :=
  {| d_id := id; d_text := text; d_metadata := Some tt;
     d_embedding := Some [2%Z]; d_createdAt := createdAt |}.

Definition docs5 : list (VectorDocument unit) :=
  [doc "a" "one" 11; doc "b" "two" 12; doc "c" "three" 13;
   doc "d" "four" 14; doc "e" "five" 15].

Definition indexer_of (docs : list (VectorDocument unit)) : Vectoria unit :=
  {| db := {| documents := map (fun d => (d_id d, d)) docs;
              meta := None; hnsw_nodes := [] |};
     index := empty;
     initialized := false |}.

Definition embedder (texts : list string) : option (list (list Z)) :=
  Some (map (fun _ => [1%Z]) texts).

Definition no_coins : nat -> nat -> nat -> bool := fun _ _ _ => false.

(** [stop] is called while iteration [j] waits. *)
Definition stop_during (j : nat) : nat -> bool := fun i => Nat.eqb i (S j).

(** The value of a call that returned, [d] otherwise. *)
Definition value (A : Type) (o : outcome A) (d : A) : A :=
  match o with
  | Return a => a
  | _ => d
  end.

(** An embedder for single texts, one that rejects everything, and a batch
    embedder that gives one vector, whatever the number of texts. *)
Definition embed (text : string) : option (list Z) := Some [0; 1]%Z.
Definition reject (texts : list string) : option (list (list Z)) := None.
Definition short_embedder (texts : list string) : option (list (list Z)) :=
  Some [[1; 0]%Z].

(** Ids as [uuidv4()] would draw them and a clock. *)
Definition uuid (i : nat) : string := if Nat.eqb i 0 then "u0" else "u1".
Definition clock (i : nat) : Z := Z.of_nat i.

(** An indexer over empty stores. *)
Definition fresh : Vectoria unit :=
  new_Vectoria {| documents := []; meta := None; hnsw_nodes := [] |}.

(** Two of the five documents indexed and saved. *)
Definition saved : Vectoria unit :=
  snd (indexDocuments (no_coins 0) (firstn 2 docs5) (indexer_of docs5)).

(** An indexer whose graph has nodes ["b"] and ["c"] without a document,
    and one whose graph has a dangling id. *)
Definition ghosts : Vectoria unit :=
  {| db := {| documents := [("a", doc "a" "one" 11)]; meta := None;
              hnsw_nodes := [] |};
     index := g3;
     initialized := true |}.

Definition broken : Vectoria unit :=
  {| db := {| documents := []; meta := None; hnsw_nodes := [] |};
     index := ghost;
     initialized := true |}.

Definition items2 : list (Item unit) :=
  [{| i_text := "one"; i_metadata := None |};
   {| i_text := "two"; i_metadata := Some tt |}].

End Run.


(** * Properties *)

(** ** Maps, sets and arrays *)

Section JsMapFacts.
Variable V : Type.
Implicit Types (m : JsMap V) (k : string) (v : V).

Lemma map_get_set_eq k v m : map_get k (map_set k v m) = Some v.
Proof.
  induction m as [|[k' v'] m IH]; simpl.
  - now rewrite String.eqb_refl.
  - destruct (String.eqb k' k) eqn:E; simpl; rewrite E; auto.
Qed.

Lemma map_get_set_ne k k' v m :
  k <> k' -> map_get k' (map_set k v m) = map_get k' m.
Proof.
  intros Hne. induction m as [|[k0 v0] m IH]; simpl.
  - destruct (String.eqb k k') eqn:E; auto.
    apply String.eqb_eq in E. contradiction.
  - destruct (String.eqb k0 k) eqn:E; simpl.
    + apply String.eqb_eq in E. subst k0.
      destruct (String.eqb k k') eqn:E'; auto.
      apply String.eqb_eq in E'. contradiction.
    + now rewrite IH.
Qed.

Lemma map_get_set k k' v m :
  map_get k' (map_set k v m) = if String.eqb k k' then Some v else map_get k' m.
Proof.
  destruct (String.eqb k k') eqn:E.
  - apply String.eqb_eq in E. subst. apply map_get_set_eq.
  - apply String.eqb_neq in E. now apply map_get_set_ne.
Qed.

Lemma map_get_In k v m : map_get k m = Some v -> In (k, v) m.
Proof.
  induction m as [|[k' v'] m IH]; simpl; [discriminate|].
  destruct (String.eqb k' k) eqn:E.
  - apply String.eqb_eq in E. intros [= ->]. subst. now left.
  - intros H. right. auto.
Qed.

Lemma map_get_key k v m : map_get k m = Some v -> In k (map_keys m).
Proof.
  intros H. apply map_get_In in H.
  unfold map_keys. change k with (fst (k, v)). now apply in_map.
Qed.

Lemma map_get_None k m : map_get k m = None <-> ~ In k (map_keys m).
Proof.
  induction m as [|[k' v'] m IH]; simpl.
  - tauto.
  - destruct (String.eqb k' k) eqn:E.
    + apply String.eqb_eq in E. split; [discriminate|]. intros H. tauto.
    + apply String.eqb_neq in E. rewrite IH. tauto.
Qed.

Lemma map_key_get k m : In k (map_keys m) -> exists v, map_get k m = Some v.
Proof.
  intros H. destruct (map_get k m) eqn:E; eauto.
  apply map_get_None in E. contradiction.
Qed.

Lemma map_has_true k m : map_has k m = true <-> In k (map_keys m).
Proof.
  unfold map_has. split.
  - destruct (map_get k m) eqn:E; [|discriminate].
    intros _. eapply map_get_key; eauto.
  - intros H. destruct (map_key_get _ _ H) as [v ->]. reflexivity.
Qed.

Lemma map_has_false k m : map_has k m = false <-> map_get k m = None.
Proof.
  unfold map_has. destruct (map_get k m); split; congruence.
Qed.

Lemma map_keys_set_old k v m :
  In k (map_keys m) -> map_keys (map_set k v m) = map_keys m.
Proof.
  induction m as [|[k' v'] m IH]; simpl; [tauto|].
  destruct (String.eqb k' k) eqn:E; simpl; auto.
  intros [H|H].
  - subst. now rewrite String.eqb_refl in E.
  - now rewrite IH.
Qed.

Lemma map_keys_set_new k v m :
  ~ In k (map_keys m) -> map_keys (map_set k v m) = map_keys m ++ [k].
Proof.
  induction m as [|[k' v'] m IH]; simpl; auto.
  intros H. destruct (String.eqb k' k) eqn:E.
  - apply String.eqb_eq in E. tauto.
  - simpl. rewrite IH; tauto.
Qed.

Lemma map_set_new k v m : map_get k m = None -> map_set k v m = m ++ [(k, v)].
Proof.
  induction m as [|[k' v'] m IH]; simpl; auto.
  destruct (String.eqb k' k); [discriminate|].
  intros H. now rewrite IH.
Qed.

Lemma map_set_length_old k v m :
  In k (map_keys m) -> length (map_set k v m) = length m.
Proof.
  intros H. rewrite <- (length_map fst (map_set k v m)).
  fold (map_keys (map_set k v m)). rewrite map_keys_set_old by assumption.
  apply length_map.
Qed.

Lemma NoDup_map_keys_set k v m :
  NoDup (map_keys m) -> NoDup (map_keys (map_set k v m)).
Proof.
  intros H. destruct (in_dec string_dec k (map_keys m)) as [Hin|Hin].
  - now rewrite map_keys_set_old.
  - rewrite map_keys_set_new by assumption.
    apply NoDup_app; auto.
    + constructor; [tauto|constructor].
    + intros x Hx [<-|[]]. contradiction.
Qed.

Lemma map_In_get k v m : NoDup (map_keys m) -> In (k, v) m -> map_get k m = Some v.
Proof.
  induction m as [|[k' v'] m IH]; simpl; [tauto|].
  intros Hnd [H|H].
  - injection H as -> ->. now rewrite String.eqb_refl.
  - inversion Hnd as [|? ? Hnin Hnd']; subst.
    destruct (String.eqb k' k) eqn:E.
    + apply String.eqb_eq in E. subst. exfalso. apply Hnin.
      change k with (fst (k, v)). now apply in_map.
    + auto.
Qed.
End JsMapFacts.

Lemma set_has_true x s : set_has x s = true <-> In x s.
Proof.
  unfold set_has. rewrite existsb_exists. split.
  - intros (y & Hy & E). apply String.eqb_eq in E. now subst.
  - intros H. exists x. split; auto. apply String.eqb_refl.
Qed.

Lemma set_has_false x s : set_has x s = false <-> ~ In x s.
Proof.
  rewrite <- set_has_true. destruct (set_has x s); split; congruence.
Qed.

Lemma set_add_In x y s : In y (set_add x s) <-> y = x \/ In y s.
Proof.
  unfold set_add. destruct (set_has x s) eqn:E.
  - apply set_has_true in E. split; [tauto|]. intros [->|H]; auto.
  - rewrite in_app_iff. simpl. split; intros H; intuition (subst; auto).
Qed.

Lemma set_add_NoDup x s : NoDup s -> NoDup (set_add x s).
Proof.
  intros H. unfold set_add. destruct (set_has x s) eqn:E; auto.
  apply set_has_false in E. apply NoDup_app; auto.
  - constructor; [tauto|constructor].
  - intros y Hy [<-|[]]. contradiction.
Qed.

Lemma nth_error_list_set {A : Type} (l l' : nat) (x : A) (xs : list A) :
  nth_error (list_set l x xs) l' =
  if Nat.eqb l l' then (if l <? length xs then Some x else None)
  else nth_error xs l'.
Proof.
  revert l l'. induction xs as [|h t IH]; intros l l'; simpl.
  - destruct l, l'; simpl; auto. destruct (Nat.eqb l l'); reflexivity.
  - destruct l as [|l]; destruct l' as [|l']; simpl; auto.
Qed.

Lemma length_list_set {A : Type} (l : nat) (x : A) (xs : list A) :
  length (list_set l x xs) = length xs.
Proof.
  revert l. induction xs as [|h t IH]; intros [|l]; simpl; auto.
Qed.


Lemma last_opt_app {A : Type} (xs : list A) (x : A) : last_opt (xs ++ [x]) = Some x.
Proof. unfold last_opt. now rewrite rev_app_distr. Qed.

Lemma last_opt_None {A : Type} (xs : list A) : last_opt xs = None -> xs = [].
Proof.
  unfold last_opt. destruct (rev xs) eqn:E; [|discriminate].
  intros _. apply (f_equal (@rev A)) in E. now rewrite rev_involutive in E.
Qed.

Lemma last_opt_In {A : Type} (xs : list A) (x : A) : last_opt xs = Some x -> In x xs.
Proof.
  unfold last_opt. destruct (rev xs) eqn:E; [discriminate|].
  intros [= ->]. apply in_rev. rewrite E. now left.
Qed.

(** ** Sorting *)

Lemma insert_desc_perm x l : Permutation (x :: l) (insert_desc x l).
Proof.
  induction l as [|y ys IH]; simpl; auto.
  destruct (c_score y <=? c_score x)%Z; auto.
  rewrite perm_swap. now constructor.
Qed.

Lemma sort_desc_perm l : Permutation l (sort_desc l).
Proof.
  induction l as [|x l IH]; simpl; auto.
  rewrite <- insert_desc_perm. now constructor.
Qed.

Lemma sort_desc_length l : length (sort_desc l) = length l.
Proof. symmetry. apply Permutation_length, sort_desc_perm. Qed.

Lemma sort_desc_In x l : In x (sort_desc l) <-> In x l.
Proof.
  split; apply Permutation_in; [symmetry|]; apply sort_desc_perm.
Qed.

Lemma insert_desc_sorted x l :
  StronglySorted desc l -> StronglySorted desc (insert_desc x l).
Proof.
  induction 1 as [|y ys Hs IH Hall]; simpl.
  - repeat constructor.
  - destruct (c_score y <=? c_score x)%Z eqn:E.
    + apply Z.leb_le in E. constructor.
      * now constructor.
      * constructor; [exact E|].
        eapply Forall_impl; [|exact Hall]. unfold desc. intros; lia.
    + apply Z.leb_gt in E. constructor; auto.
      eapply Permutation_Forall; [apply insert_desc_perm|].
      constructor; auto. unfold desc. lia.
  Qed.

Lemma sort_desc_sorted l : StronglySorted desc (sort_desc l).
Proof.
  induction l as [|x l IH]; simpl; [constructor|].
  now apply insert_desc_sorted.
Qed.

(** Sorting is stable, so a sorted array is left as it is. *)
Lemma sort_desc_fixed l : StronglySorted desc l -> sort_desc l = l.
Proof.
  induction 1 as [|x l Hs IH Hall]; simpl; auto.
  rewrite IH. destruct l as [|y ys]; simpl; auto.
  inversion Hall as [|? ? Hxy _]; subst. unfold desc in Hxy.
  apply Z.leb_le in Hxy. now rewrite Hxy.
Qed.

Lemma sorted_firstn k l : StronglySorted desc l -> StronglySorted desc (firstn k l).
Proof.
  intros H. revert k. induction H as [|x l Hs IH Hall]; intros [|k]; simpl;
    try constructor; auto.
  rewrite Forall_forall in *. intros y Hy. apply Hall.
  rewrite <- (firstn_skipn k l). apply in_or_app. now left.
Qed.

Lemma sorted_removelast l : StronglySorted desc l -> StronglySorted desc (removelast l).
Proof.
  intros H. rewrite removelast_firstn_len. now apply sorted_firstn.
Qed.

Lemma sorted_nth l :
  StronglySorted desc l ->
  forall i j a b, i <= j -> nth_error l i = Some a -> nth_error l j = Some b ->
    (c_score b <= c_score a)%Z.
Proof.
  induction 1 as [|x l Hs IH Hall]; intros i j a b Hij Ha Hb.
  - destruct i; discriminate.
  - destruct i as [|i]; destruct j as [|j]; simpl in *; try lia.
    + injection Ha as <-. injection Hb as <-. lia.
    + injection Ha as <-. rewrite Forall_forall in Hall.
      apply (Hall b). eapply nth_error_In; eauto.
    + apply (IH i j); auto. lia.
Qed.

(** ** The engine *)

Section EngineFacts.
Context {num : Numeric}.

Lemma fuel_of_eq (g : HNSWIndex) : fuel_of g = S (S (length (nodes g))).
Proof. reflexivity. Qed.

Opaque fuel_of.

Implicit Types (g : HNSWIndex) (v : list string) (C W : list Cand).

(** *** Results of [searchLayer] are sorted *)

Lemma visitNeighbors_sorted g query ef f neighbors :
  forall v C W v' C' W',
    StronglySorted desc W ->
    visitNeighbors g query ef f neighbors v C W = Return (v', C', W') ->
    StronglySorted desc W'.
Proof.
  induction neighbors as [|x rest IH]; intros v C W v' C' W' HW H; simpl in H.
  - now injection H as <- <- <-.
  - destruct (set_has x v); [eauto|].
    destruct (map_get x (nodes g)) as [nb|]; [|discriminate].
    destruct (_ || _).
    + eapply IH; [|exact H].
      destruct (ef <? _); [apply sorted_removelast|]; apply sort_desc_sorted.
    + eauto.
Qed.

Lemma searchLayer_loop_sorted query ef level g fuel :
  forall v C W R,
    StronglySorted desc W ->
    searchLayer_loop fuel g query ef level v C W = Return R ->
    StronglySorted desc R.
Proof.
  induction fuel as [|fuel IH]; intros v C W R HW H; simpl in H; [discriminate|].
  destruct (sort_desc C) as [|c C1]; [now injection H as <-|].
  destruct (last_opt (sort_desc W)) as [f|]; [|discriminate].
  destruct (_ && _).
  - injection H as <-. apply sort_desc_sorted.
  - destruct (map_get (c_id c) (nodes g)) as [cNode|]; [|discriminate].
    destruct (nth_error (n_neighbors cNode) level) as [neighbors|]; [|discriminate].
    destruct (visitNeighbors g query ef f neighbors v C1 (sort_desc W))
      as [[[v' C'] W']| |] eqn:E; simpl in H; try discriminate.
    eapply IH; [|exact H].
    eapply visitNeighbors_sorted; [|exact E]. apply sort_desc_sorted.
Qed.

Lemma searchLayer_sorted g query entry ef level R :
  searchLayer g query entry ef level = Return R -> StronglySorted desc R.
Proof.
  unfold searchLayer. apply searchLayer_loop_sorted. repeat constructor.
Qed.

(** *** Errors of the engine

    Apart from the duplicate-id check of [addPoint], the only exception the
    engine raises is a [TypeError]. *)

Lemma bestOf_only_TypeError g query neighbors :
  forall best d, only_TypeError (bestOf g query neighbors best d).
Proof.
  induction neighbors as [|x rest IH]; intros best d e H; simpl in H.
  - discriminate.
  - destruct (map_get x (nodes g)); [|congruence].
    destruct (d <? _)%Z; exact (IH _ _ _ H).
Qed.

Lemma climb_only_TypeError g query l fuel :
  forall cur d, only_TypeError (climb fuel g query l cur d).
Proof.
  induction fuel as [|fuel IH]; intros cur d e H; simpl in H; [discriminate|].
  destruct (nth_error (n_neighbors cur) l) as [ids|]; [|congruence].
  destruct (bestOf g query ids None d) as [[[b|] d']| |] eqn:E; simpl in H;
    try discriminate.
  - exact (IH _ _ _ H).
  - injection H as <-. eapply bestOf_only_TypeError; eauto.
Qed.

Lemma descend_only_TypeError g query lo count :
  forall cur d, only_TypeError (descend count g query lo cur d).
Proof.
  induction count as [|count IH]; intros cur d e H; simpl in H; [discriminate|].
  destruct (climb (fuel_of g) g query (lo + S count) cur d)
    as [[cur' d']| |] eqn:E; simpl in H; try discriminate.
  - exact (IH _ _ _ H).
  - injection H as <-. eapply climb_only_TypeError; eauto.
Qed.

Lemma visitNeighbors_only_TypeError g query ef f neighbors :
  forall v C W, only_TypeError (visitNeighbors g query ef f neighbors v C W).
Proof.
  induction neighbors as [|x rest IH]; intros v C W e H; simpl in H.
  - discriminate.
  - destruct (set_has x v); [exact (IH _ _ _ _ H)|].
    destruct (map_get x (nodes g)); [|congruence].
    destruct (_ || _); exact (IH _ _ _ _ H).
Qed.

Lemma searchLayer_loop_only_TypeError g query ef level fuel :
  forall v C W, only_TypeError (searchLayer_loop fuel g query ef level v C W).
Proof.
  induction fuel as [|fuel IH]; intros v C W e H; simpl in H; [discriminate|].
  destruct (sort_desc C) as [|c C1]; [discriminate|].
  destruct (last_opt (sort_desc W)) as [f|]; [|congruence].
  destruct (_ && _); [discriminate|].
  destruct (map_get (c_id c) (nodes g)) as [cNode|]; [|congruence].
  destruct (nth_error (n_neighbors cNode) level) as [ids|]; [|congruence].
  destruct (visitNeighbors g query ef f ids v C1 (sort_desc W))
    as [[[v' C'] W']| |] eqn:E; simpl in H; try discriminate.
  - exact (IH _ _ _ _ H).
  - injection H as <-. eapply visitNeighbors_only_TypeError; eauto.
Qed.

Lemma searchLayer_only_TypeError g query entry ef level :
  only_TypeError (searchLayer g query entry ef level).
Proof. apply searchLayer_loop_only_TypeError. Qed.

Lemma neighborCandidates_only_TypeError g nb ids :
  only_TypeError (neighborCandidates g nb ids).
Proof.
  induction ids as [|x rest IH]; intros e H; simpl in H; [discriminate|].
  destruct (map_get x (nodes g)); [|congruence].
  destruct (neighborCandidates g nb rest); simpl in H; try discriminate.
  apply IH. congruence.
Qed.

Lemma neighborCandidates_fuel g nb ids : neighborCandidates g nb ids <> OutOfFuel.
Proof.
  induction ids as [|x rest IH]; simpl; [discriminate|].
  destruct (map_get x (nodes g)); [|discriminate].
  destruct (neighborCandidates g nb rest); simpl; congruence.
Qed.

Lemma connectNeighbors_only_TypeError id l neighbors :
  forall g touched, only_TypeError (fst (connectNeighbors g id l neighbors touched)).
Proof.
  induction neighbors as [|nb rest IH]; intros g touched e H; simpl in H.
  - discriminate.
  - destruct (map_get (c_id nb) (nodes g)) as [n|]; [|simpl in H; congruence].
    destruct (nth_error (n_neighbors n) l) as [ids|]; [|simpl in H; congruence].
    destruct (M g <? _).
    + match type of H with context [neighborCandidates ?a ?b ?c] =>
        destruct (neighborCandidates a b c) eqn:E end; simpl in H.
      * exact (IH _ _ _ H).
      * injection H as <-. eapply neighborCandidates_only_TypeError; eauto.
      * discriminate.
    + exact (IH _ _ _ H).
Qed.

Lemma connectLayers_only_TypeError id fv n :
  forall g cur touched,
    only_TypeError (fst (connectLayers n g id fv cur touched)).
Proof.
  induction n as [|l IH]; intros g cur touched e H; simpl in H; [discriminate|].
  destruct cur as [entry|]; [|simpl in H; congruence].
  destruct (searchLayer g fv entry (efConstruction g) l) as [W| |] eqn:E;
    simpl in H; try discriminate.
  - match type of H with context [connectNeighbors ?a ?b ?c ?d ?t] =>
      destruct (connectNeighbors a b c d t) as [[t1| |] g2] eqn:E2 end;
      simpl in H; try discriminate.
    + exact (IH _ _ _ _ H).
    + injection H as <-.
      eapply connectNeighbors_only_TypeError. rewrite E2. reflexivity.
  - injection H as <-. eapply searchLayer_only_TypeError; eauto.
Qed.

(** *** What [addPoint] leaves alone *)

Lemma map_get_app (V : Type) (k : string) (m1 m2 : JsMap V) :
  map_get k (m1 ++ m2) =
  match map_get k m1 with Some x => Some x | None => map_get k m2 end.
Proof.
  induction m1 as [|[k' x] m1 IH]; simpl; auto.
  destruct (String.eqb k' k); auto.
Qed.

Lemma skeleton_get k (m : JsMap Node) :
  map_get k (skeleton m) = option_map core (map_get k m).
Proof.
  induction m as [|[k' n] m IH]; simpl; auto.
  destruct (String.eqb k' k); auto.
Qed.

Lemma skeleton_keys (m : JsMap Node) : map_keys (skeleton m) = map_keys m.
Proof. unfold map_keys, skeleton. rewrite map_map. reflexivity. Qed.

Lemma skeleton_set_same k n n' (m : JsMap Node) :
  map_get k m = Some n -> core n' = core n ->
  skeleton (map_set k n' m) = skeleton m.
Proof.
  intros Hget Hcore. induction m as [|[k' x] m IH]; simpl in *; [discriminate|].
  destruct (String.eqb k' k) eqn:E; simpl.
  - injection Hget as ->. now rewrite Hcore.
  - now rewrite IH.
Qed.

Lemma skeleton_set_new k n (m : JsMap Node) :
  map_get k m = None -> skeleton (map_set k n m) = skeleton m ++ [(k, core n)].
Proof.
  intros H. rewrite map_set_new by assumption.
  unfold skeleton. now rewrite map_app.
Qed.

Lemma skeleton_mutate k l ids (m : JsMap Node) :
  skeleton (mutate k (set_layer l ids) m) = skeleton m.
Proof.
  unfold mutate. destruct (map_get k m) eqn:E; auto.
  eapply skeleton_set_same; eauto.
Qed.

Lemma same_frame_refl g : same_frame g g.
Proof. split; auto. now destruct g. Qed.

Lemma same_frame_trans g1 g2 g3 :
  same_frame g1 g2 -> same_frame g2 g3 -> same_frame g1 g3.
Proof.
  intros [Ha Hb] [Hc Hd]. split; [|congruence].
  rewrite Hc. rewrite Ha. reflexivity.
Qed.

Lemma same_frame_nodes g ns :
  skeleton ns = skeleton (nodes g) -> same_frame g (with_nodes g ns).
Proof. intros H. split; auto. Qed.

Lemma connectNeighbors_frame id l neighbors :
  forall g touched, same_frame g (snd (connectNeighbors g id l neighbors touched)).
Proof.
  induction neighbors as [|nb rest IH]; intros g touched; simpl.
  - apply same_frame_refl.
  - destruct (map_get (c_id nb) (nodes g)) as [n|] eqn:E; [|apply same_frame_refl].
    destruct (nth_error (n_neighbors n) l) as [ids|]; [|apply same_frame_refl].
    assert (F1 : same_frame g
              (with_nodes g (map_set (c_id nb) (set_layer l (ids ++ [id]) n) (nodes g)))).
    { apply same_frame_nodes. eapply skeleton_set_same; eauto. }
    destruct (M g <? _).
    + match goal with |- context [neighborCandidates ?a ?b ?c] =>
        destruct (neighborCandidates a b c) end; simpl; auto.
      eapply same_frame_trans; [|apply IH].
      eapply same_frame_trans; [exact F1|].
      apply same_frame_nodes. simpl.
      eapply skeleton_set_same; [apply map_get_set_eq|reflexivity].
    + eapply same_frame_trans; [exact F1|apply IH].
Qed.

Lemma connectLayers_frame id fv n :
  forall g cur touched,
    same_frame g (snd (connectLayers n g id fv cur touched)).
Proof.
  induction n as [|l IH]; intros g cur touched; simpl.
  - apply same_frame_refl.
  - destruct cur as [entry|]; [|apply same_frame_refl].
    destruct (searchLayer g fv entry (efConstruction g) l) as [W| |];
      try apply same_frame_refl.
    match goal with |- context [connectNeighbors ?a ?b ?c ?d ?t] =>
      pose proof (connectNeighbors_frame b c d a t) as F2;
      destruct (connectNeighbors a b c d t) as [[t1| |] g2] end;
      simpl in *.
    + eapply same_frame_trans; [|apply IH].
      eapply same_frame_trans; [|exact F2].
      apply same_frame_nodes. apply skeleton_mutate.
    + eapply same_frame_trans; [|exact F2].
      apply same_frame_nodes. apply skeleton_mutate.
    + eapply same_frame_trans; [|exact F2].
      apply same_frame_nodes. apply skeleton_mutate.
Qed.

(** The shape of a call of [addPoint] that returns. *)
Lemma addPoint_returns coin g id vector touched g' :
  addPoint coin g id vector = (Return touched, g') ->
  let level := getRandomLevel coin in
  map_get id (nodes g) = None /\
  skeleton (nodes g') =
    skeleton (nodes g) ++ [(id, (id, map fround vector, level))] /\
  M g' = M g /\ efConstruction g' = efConstruction g /\
  efSearch g' = efSearch g /\ levelMultiplier g' = levelMultiplier g /\
  (entryPointId g', maxLevel g') =
    match entryPointId g with
    | None => (Some id, level)
    | Some ep => if maxLevel g <? level then (Some id, level)
                 else (Some ep, maxLevel g)
    end.
Proof.
  intros H level. unfold addPoint in H. fold level in H.
  destruct (map_has id (nodes g)) eqn:Hhas; [discriminate|].
  apply map_has_false in Hhas. split; [exact Hhas|].
  remember (S (Nat.min _ _)) as n eqn:Hn in H. clear Hn.
  simpl in H.
  destruct (entryPointId g) as [ep|] eqn:Hep.
  - destruct (map_get ep _) as [cur|]; [|discriminate].
    destruct (descend _ _ _ _ _ _) as [[cur' d']| |]; try discriminate.
    match type of H with context [connectLayers ?n ?a ?b ?c ?d ?t] =>
      pose proof (connectLayers_frame b c n a d t) as [F1 F2];
      destruct (connectLayers n a b c d t) as [[t1| |] g2] end;
      try discriminate.
    simpl in F1, F2. injection H as <- <-.
    rewrite skeleton_set_new in F2 by assumption.
    assert (Hm : maxLevel g2 = maxLevel g) by (rewrite F1; reflexivity).
    assert (He : entryPointId g2 = Some ep) by (rewrite F1; exact Hep).
    assert (HM : M g2 = M g) by (rewrite F1; reflexivity).
    assert (H1 : efConstruction g2 = efConstruction g) by (rewrite F1; reflexivity).
    assert (H2 : efSearch g2 = efSearch g) by (rewrite F1; reflexivity).
    assert (H3 : levelMultiplier g2 = levelMultiplier g) by (rewrite F1; reflexivity).
    rewrite Hm. destruct (maxLevel g <? level); simpl; rewrite ?F2, ?Hm, ?He; auto 10.
  - injection H as <- <-. simpl.
    rewrite skeleton_set_new by assumption. auto 10.
Qed.

(** *** Duplicate ids *)

(** C3. [addPoint] on an id that is already a key of the node map throws
    the duplicate-id error and leaves the whole graph (node map,
    [entryPointId], [maxLevel] and parameters) as it was; on an id that is
    not a key it never throws a duplicate-id error. *)
Theorem addPoint_duplicate_id coin g id vector :
  (map_has id (nodes g) = true ->
   addPoint coin g id vector = (Throw (DuplicateId id), g)) /\
  (map_has id (nodes g) = false ->
   forall id', fst (addPoint coin g id vector) <> Throw (DuplicateId id')).
Proof.
  split; intros Hhas; unfold addPoint; rewrite Hhas; [reflexivity|].
  intros id' H.
  remember (S (Nat.min _ _)) as n eqn:Hn in H. clear Hn.
  simpl in H.
  destruct (entryPointId g) as [ep|]; [|discriminate].
  destruct (map_get ep _) as [cur|]; [|discriminate].
  destruct (descend _ _ _ _ _ _) as [[cur' d']| |] eqn:E; simpl in H;
    try discriminate.
  - match type of H with context [connectLayers ?n ?a ?b ?c ?d ?t] =>
      pose proof (@connectLayers_only_TypeError b c n a d t) as HT;
      destruct (connectLayers n a b c d t) as [[t1| |] g2] end;
      simpl in H; try discriminate.
    specialize (HT _ H). discriminate.
  - apply descend_only_TypeError in E. injection H as ->. discriminate.
Qed.

(** *** Entry point and top level *)

Lemma addPoint_entry_invariant coin g id vector touched g' :
  entry_invariant g ->
  addPoint coin g id vector = (Return touched, g') ->
  entry_invariant g'.
Proof.
  intros [Hnull Hep] H. apply addPoint_returns in H.
  destruct H as (Hfresh & Hsk & _ & _ & _ & _ & Hentry).
  assert (Hlvl : forall k n, map_get k (nodes g') = Some n ->
            (map_get k (nodes g) = None /\ k = id /\
             n_level n = getRandomLevel coin) \/
            (exists n0, map_get k (nodes g) = Some n0 /\ n_level n0 = n_level n)).
  { intros k n Hk.
    pose proof (skeleton_get k (nodes g')) as Hs. rewrite Hsk, Hk in Hs.
    rewrite map_get_app, skeleton_get in Hs. simpl in Hs.
    destruct (map_get k (nodes g)) as [n0|] eqn:E0; simpl in Hs.
    - right. exists n0. split; auto. unfold core in Hs. congruence.
    - left. destruct (String.eqb id k) eqn:Ek; [|discriminate].
      apply String.eqb_eq in Ek. unfold core in Hs. split; auto.
      split; [congruence|]. congruence. }
  assert (Hnew : exists n, map_get id (nodes g') = Some n /\
                           n_level n = getRandomLevel coin).
  { pose proof (skeleton_get id (nodes g')) as Hs. rewrite Hsk in Hs.
    rewrite map_get_app, skeleton_get, Hfresh in Hs. simpl in Hs.
    rewrite String.eqb_refl in Hs.
    destruct (map_get id (nodes g')) as [n|]; [|discriminate].
    exists n. split; auto. unfold core in Hs. simpl in Hs. congruence. }
  assert (Hold : forall k n0, map_get k (nodes g) = Some n0 ->
            exists n, map_get k (nodes g') = Some n /\ n_level n = n_level n0).
  { intros k n0 Hk.
    pose proof (skeleton_get k (nodes g')) as Hs. rewrite Hsk in Hs.
    rewrite map_get_app, skeleton_get, Hk in Hs. simpl in Hs.
    destruct (map_get k (nodes g')) as [n|]; [|discriminate].
    exists n. split; auto. unfold core in Hs. simpl in Hs. congruence. }
  split.
  - split.
    + intros Hn. exfalso. destruct (entryPointId g); [destruct (_ <? _)|];
        congruence.
    + intros Hn. exfalso. destruct Hnew as (n & Hn' & _).
      rewrite Hn in Hn'. discriminate.
  - intros ep' Hep'. destruct (entryPointId g) as [ep|] eqn:E.
    + destruct (Hep ep eq_refl) as [(n0 & Hn0 & Hl0) Hall].
      destruct (maxLevel g <? getRandomLevel coin) eqn:Hlt;
        injection Hentry as He Hm; rewrite He in Hep'; injection Hep' as <-;
        rewrite Hm.
      * apply Nat.ltb_lt in Hlt. split; [exact Hnew|].
        intros k n Hk. destruct (Hlvl k n Hk) as [(_ & _ & ->)|(m & Hm0 & <-)];
          [lia|]. specialize (Hall _ _ Hm0). lia.
      * apply Nat.ltb_ge in Hlt. split.
        -- destruct (Hold _ _ Hn0) as (n & Hn & Hl). exists n. split; auto. lia.
        -- intros k n Hk.
           destruct (Hlvl k n Hk) as [(_ & _ & ->)|(m & Hm0 & <-)]; [lia|].
           exact (Hall _ _ Hm0).
    + injection Hentry as He Hm; rewrite He in Hep'; injection Hep' as <-.
      rewrite Hm. split; [exact Hnew|].
      intros k n Hk. destruct (Hlvl k n Hk) as [(_ & _ & ->)|(m & Hm0 & _)];
        [lia|]. destruct Hnull as [Hnull _]. rewrite (Hnull eq_refl) in Hm0.
      discriminate.
Qed.

(** C6. In every graph built from the empty one by calls of [addPoint] that
    return, [entryPointId] is null exactly when the node map is empty;
    otherwise it is the key of a node whose level is [maxLevel], and no
    stored node has a level above [maxLevel]. *)
Theorem entry_point_invariant g : reachable g -> entry_invariant g.
Proof.
  induction 1 as [config|g coin id vector touched g' Hr IH Hadd].
  - split; [split; reflexivity|]. intros ep H. discriminate.
  - eapply addPoint_entry_invariant; eauto.
Qed.

Lemma reachable_null_level g :
  reachable g -> entryPointId g = None -> maxLevel g = 0.
Proof.
  induction 1 as [config|g coin id vector touched g' Hr IH Hadd]; auto.
  intros Hn. apply addPoint_returns in Hadd.
  destruct Hadd as (_ & _ & _ & _ & _ & _ & Hentry). exfalso.
  destruct (entryPointId g); [destruct (_ <? _)|]; congruence.
Qed.

Lemma adds_reachable g g' : reachable g -> adds g g' -> reachable g'.
Proof.
  intros Hr Ha. induction Ha as [g|g coin id vector touched g1 g2 H _ IH]; auto.
  apply IH. eapply reach_add; eauto.
Qed.

Lemma addPoint_entry_step coin g id vector touched g' :
  addPoint coin g id vector = (Return touched, g') ->
  (entryPointId g = None -> maxLevel g = 0) ->
  maxLevel g <= maxLevel g' /\ entryPointId g' <> None.
Proof.
  intros H H0. apply addPoint_returns in H.
  destruct H as (_ & _ & _ & _ & _ & _ & Hentry).
  destruct (entryPointId g) as [ep|].
  - destruct (maxLevel g <? getRandomLevel coin) eqn:Hlt;
      injection Hentry as -> ->; split; try discriminate; auto.
    apply Nat.ltb_lt in Hlt. lia.
  - injection Hentry as -> ->. rewrite H0 by reflexivity.
    split; [lia|discriminate].
Qed.

(** C10. Over any sequence of calls of [addPoint] that return, starting in
    a graph built from the empty one, [maxLevel] never decreases and an
    [entryPointId] that is set stays set; and a call made when the entry
    point is [ep] leaves it at [ep] with the same [maxLevel], unless the
    level drawn for the new node is above [maxLevel], in which case the new
    node becomes the entry point and its level the new [maxLevel]. *)
Theorem entry_point_monotone g :
  reachable g ->
  (forall g', adds g g' ->
     maxLevel g <= maxLevel g' /\
     (entryPointId g <> None -> entryPointId g' <> None)) /\
  (forall coin id vector touched g' ep,
     addPoint coin g id vector = (Return touched, g') ->
     entryPointId g = Some ep ->
     if maxLevel g <? getRandomLevel coin
     then entryPointId g' = Some id /\ maxLevel g' = getRandomLevel coin
     else entryPointId g' = Some ep /\ maxLevel g' = maxLevel g).
Proof.
  intros Hr. split.
  - intros g' Ha. induction Ha as [g|g coin id vector touched g1 g2 H Ha IH].
    + split; auto.
    + pose proof (addPoint_entry_step _ _ _ _ H (reachable_null_level Hr))
        as [Hle Hset].
      destruct IH as [Hle' Hset']; [eapply reach_add; eauto|].
      split; [lia|auto].
  - intros coin id vector touched g' ep H Hep.
    apply addPoint_returns in H.
    destruct H as (_ & _ & _ & _ & _ & _ & Hentry). rewrite Hep in Hentry.
    destruct (maxLevel g <? getRandomLevel coin);
      injection Hentry as -> ->; auto.
Qed.

(** *** The degree bound *)

Lemma map_set_set (V : Type) k (v1 v2 : V) (m : JsMap V) :
  map_set k v2 (map_set k v1 m) = map_set k v2 m.
Proof.
  induction m as [|[k' x] m IH]; simpl.
  - now rewrite String.eqb_refl.
  - destruct (String.eqb k' k) eqn:E; simpl; rewrite E; congruence.
Qed.

Lemma list_set_set (A : Type) l (x y : A) (xs : list A) :
  list_set l x (list_set l y xs) = list_set l x xs.
Proof.
  revert l. induction xs as [|h t IH]; intros [|l]; simpl; auto.
  now rewrite IH.
Qed.

Lemma set_layer_set_layer l ids1 ids2 (n : Node) :
  set_layer l ids2 (set_layer l ids1 n) = set_layer l ids2 n.
Proof. unfold set_layer. simpl. now rewrite list_set_set. Qed.

Lemma degree_bound_set_layer g key n l ids :
  degree_bound g -> map_get key (nodes g) = Some n -> length ids <= M g ->
  degree_bound (with_nodes g (map_set key (set_layer l ids n) (nodes g))).
Proof.
  intros Hb Hkey Hlen k n' l' ids' Hget Hl Hnth. simpl in *.
  rewrite map_get_set in Hget. destruct (String.eqb key k) eqn:E.
  - apply String.eqb_eq in E. subst k. injection Hget as <-. simpl in *.
    rewrite nth_error_list_set in Hnth. destruct (Nat.eqb l l').
    + destruct (l <? _); [|discriminate]. now injection Hnth as <-.
    + eapply Hb; eauto.
  - eapply Hb; eauto.
Qed.

Lemma selectNeighbors_length cands m : length (selectNeighbors cands m) <= m.
Proof. unfold selectNeighbors. rewrite length_firstn. lia. Qed.

Lemma degree_bound_mutate g id l ids :
  degree_bound g -> length ids <= M g ->
  degree_bound (with_nodes g (mutate id (set_layer l ids) (nodes g))).
Proof.
  intros Hb Hlen. unfold mutate. destruct (map_get id (nodes g)) eqn:E.
  - now apply degree_bound_set_layer.
  - now destruct g.
Qed.

Lemma degree_bound_new_node g id fv level :
  degree_bound g ->
  degree_bound
    (with_nodes g
       (map_set id {| n_id := id; n_vector := fv; n_level := level;
                      n_neighbors := repeat [] (level + 1) |} (nodes g))).
Proof.
  intros Hb k n l ids Hget Hl Hnth. simpl in *.
  rewrite map_get_set in Hget. destruct (String.eqb id k).
  - injection Hget as <-. simpl in *. apply nth_error_In in Hnth.
    apply repeat_spec in Hnth. subst. simpl. lia.
  - eapply Hb; eauto.
Qed.

(** *** Serialization *)

Lemma or_default_pos x d : d <> 0 -> or_default x d <> 0.
Proof. intros Hd. destruct x as [[|n]|]; simpl; auto. Qed.

Lemma or_default_some m d : m <> 0 -> or_default (Some m) d = m.
Proof. destruct m; simpl; congruence. Qed.

Lemma new_params_ok config : params_ok (new_HNSWIndex config).
Proof.
  unfold params_ok, new_HNSWIndex; simpl.
  repeat split; try (apply or_default_pos; discriminate).
  - destruct (cfg_levelMultiplier config) as [x|]; auto.
    destruct (truthy x) eqn:E; auto. congruence.
  - constructor.
Qed.

Lemma fold_set_NoDup (l : list JNode) :
  forall acc : JsMap Node,
    NoDup (map_keys acc) ->
    NoDup (map_keys
             (fold_left (fun ns nd => map_set (jn_id nd) (node_of_json nd) ns)
                l acc)).
Proof.
  induction l as [|nd l IH]; intros acc H; simpl; auto.
  apply IH. now apply NoDup_map_keys_set.
Qed.

Lemma fromJSON_params_ok json : params_ok (fromJSON json).
Proof.
  destruct (new_params_ok
              {| cfg_M := Some (j_M json);
                 cfg_efConstruction := Some (j_efConstruction json);
                 cfg_efSearch := Some (j_efSearch json);
                 cfg_levelMultiplier := Some (j_levelMultiplier json) |})
    as (H1 & H2 & H3 & H4 & _).
  unfold params_ok, fromJSON. simpl in *. repeat split; auto.
  apply fold_set_NoDup. constructor.
Qed.

(** Whatever its outcome, [addPoint] keeps the parameters, and the keys of
    the node map with at most the new id added at the end. *)
Lemma addPoint_frame coin g id vector :
  let g' := snd (addPoint coin g id vector) in
  M g' = M g /\ efConstruction g' = efConstruction g /\
  efSearch g' = efSearch g /\ levelMultiplier g' = levelMultiplier g /\
  (map_keys (nodes g') = map_keys (nodes g) \/
   (~ In id (map_keys (nodes g)) /\
    map_keys (nodes g') = map_keys (nodes g) ++ [id])).
Proof.
  unfold addPoint.
  destruct (map_has id (nodes g)) eqn:Hhas; [simpl; auto 10|].
  apply map_has_false in Hhas.
  pose proof (proj1 (map_get_None _ _) Hhas) as Hnin.
  remember (S (Nat.min _ _)) as n eqn:Hn. clear Hn.
  set (newNode := {| n_id := id; n_vector := map fround vector;
                     n_level := getRandomLevel coin;
                     n_neighbors := repeat [] (getRandomLevel coin + 1) |}).
  assert (Hk : map_keys (map_set id newNode (nodes g)) = map_keys (nodes g) ++ [id])
    by now apply map_keys_set_new.
  simpl.
  destruct (entryPointId g) as [ep|]; [|simpl; auto 10].
  destruct (map_get ep _) as [cur|]; [|simpl; auto 10].
  destruct (descend _ _ _ _ _ _) as [[cur' d']| |]; try (simpl; auto 10).
  match goal with |- context [connectLayers ?n ?a ?b ?c ?d ?t] =>
    pose proof (connectLayers_frame b c n a d t) as [F1 F2];
    destruct (connectLayers n a b c d t) as [[t1|e|] g2] end;
    simpl in F1, F2;
    apply (f_equal (@map_keys _)) in F2; rewrite !skeleton_keys, Hk in F2;
    rewrite F1; try destruct (_ <? _); simpl; auto 10.
Qed.

Lemma addPoint_params_ok coin g id vector :
  params_ok g -> params_ok (snd (addPoint coin g id vector)).
Proof.
  intros (H1 & H2 & H3 & H4 & H5).
  destruct (addPoint_frame coin g id vector) as (E1 & E2 & E3 & E4 & E5).
  unfold params_ok. rewrite E1, E2, E3, E4. repeat split; auto.
  destruct E5 as [->|[Hnin ->]]; auto.
  apply NoDup_app; auto.
  - constructor; [tauto|constructor].
  - intros x Hx [<-|[]]. contradiction.
Qed.

Lemma instance_params_ok g : instance g -> params_ok g.
Proof.
  induction 1.
  - apply new_params_ok.
  - apply fromJSON_params_ok.
  - now apply addPoint_params_ok.
Qed.

Lemma fold_set_fresh (l : list JNode) :
  forall acc : JsMap Node,
    NoDup (map_keys acc ++ map (@jn_id _) l) ->
    fold_left (fun ns nd => map_set (jn_id nd) (node_of_json nd) ns) l acc =
    acc ++ map (fun nd => (jn_id nd, node_of_json nd)) l.
Proof.
  induction l as [|nd l IH]; intros acc H; simpl.
  - now rewrite app_nil_r.
  - simpl in H. assert (Hnin : ~ In (jn_id nd) (map_keys acc)).
    { apply NoDup_remove_2 in H. intros Hin. apply H.
      apply in_or_app. now left. }
    rewrite IH.
    + rewrite map_set_new by now apply map_get_None.
      now rewrite <- app_assoc.
    + rewrite map_keys_set_new by assumption.
      rewrite <- app_assoc. exact H.
Qed.

Lemma fromJSON_toJSON_params g :
  params_ok g ->
  let g' := fromJSON (toJSON g) in
  M g' = M g /\ efConstruction g' = efConstruction g /\
  efSearch g' = efSearch g /\ levelMultiplier g' = levelMultiplier g /\
  maxLevel g' = maxLevel g /\ entryPointId g' = entryPointId g.
Proof.
  intros (H1 & H2 & H3 & H4 & _). unfold fromJSON, toJSON.
  cbn -[or_default].
  repeat split; try (apply or_default_some; assumption).
  rewrite or_default_some by assumption.
  destruct (truthy (levelMultiplier g)) eqn:E; auto.
  symmetry. auto.
Qed.

Lemma fromJSON_toJSON_nodes g :
  NoDup (map_keys (nodes g)) ->
  nodes (fromJSON (toJSON g)) =
  map (fun nd => (jn_id nd, node_of_json nd)) (j_nodes (toJSON g)).
Proof.
  intros Hnd. unfold fromJSON. simpl nodes.
  change (nodes (with_entry _ _ _)) with (@nil (string * Node)).
  apply (fold_set_fresh (j_nodes (toJSON g)) []).
  simpl. unfold toJSON. simpl. rewrite map_map.
  erewrite map_ext; [exact Hnd|]. now intros [k n].
Qed.

(** C9. Serializing, deserializing and serializing again gives the JSON
    value of the first serialization: parameters, [maxLevel],
    [entryPointId], and id, vector, level and neighbor lists of every node
    in the same order. It holds for every index object there can be; the
    one assumption is that a single-precision number survives widening and
    rounding back. *)
Theorem toJSON_fromJSON_toJSON g :
  (forall x : float32, fround (widen x) = x) ->
  instance g ->
  toJSON (fromJSON (toJSON g)) = toJSON g.
Proof.
  intros Hround Hinst.
  pose proof (instance_params_ok Hinst) as Hok.
  destruct (fromJSON_toJSON_params Hok) as (E1 & E2 & E3 & E4 & E5 & E6).
  pose proof (fromJSON_toJSON_nodes g (proj2 (proj2 (proj2 (proj2 Hok))))) as E7.
  unfold toJSON at 1. rewrite E1, E2, E3, E4, E5, E6, E7.
  unfold toJSON. simpl. f_equal.
  assert (Hv : forall v : list float32, map fround (map widen v) = v).
  { intros v. rewrite map_map. rewrite <- (map_id v) at 2.
    apply map_ext. exact Hround. }
  rewrite !map_map. apply map_ext. intros [k n]. unfold node_of_json. simpl.
  now rewrite Hv.
Qed.

(** *** The loops end: [fuel_of] is enough on every graph *)

Lemma filter_length_le (A : Type) (p : A -> bool) (l : list A) :
  length (filter p l) <= length l.
Proof.
  induction l as [|x l IH]; simpl; auto. destruct (p x); simpl; lia.
Qed.

Lemma filter_length_lt (A : Type) (p q : A -> bool) (l : list A) (a : A) :
  (forall x, q x = true -> p x = true) ->
  In a l -> p a = true -> q a = false ->
  length (filter q l) < length (filter p l).
Proof.
  intros Hqp Hin Hp Hq. induction l as [|x l IH]; simpl in *; [tauto|].
  assert (Hle : length (filter q l) <= length (filter p l)).
  { clear IH Hin. induction l as [|y l IH]; simpl; auto.
    destruct (q y) eqn:E.
    - rewrite (Hqp _ E). simpl. lia.
    - destruct (p y); simpl; lia. }
  destruct Hin as [->|Hin].
  - rewrite Hp, Hq. simpl. lia.
  - specialize (IH Hin). destruct (q x) eqn:E.
    + rewrite (Hqp _ E). simpl. lia.
    + destruct (p x); simpl; lia.
Qed.

Lemma bestOf_fuel g query neighbors :
  forall best d, bestOf g query neighbors best d <> OutOfFuel.
Proof.
  induction neighbors as [|x rest IH]; intros best d; simpl; [discriminate|].
  destruct (map_get x (nodes g)); [|discriminate].
  destruct (d <? _)%Z; apply IH.
Qed.

(** What the scan of a neighbor list hands back: the candidate it was given,
    or a stored node that scores strictly above the score it was given. *)
Lemma bestOf_result g query neighbors :
  forall best d best' d',
    bestOf g query neighbors best d = Return (best', d') ->
    (best' = best /\ d' = d) \/
    (exists x n, In x neighbors /\ map_get x (nodes g) = Some n /\
                 best' = Some n /\ d' = dist query (n_vector n) /\ (d < d')%Z).
Proof.
  induction neighbors as [|x rest IH]; intros best d best' d' H; simpl in H.
  - injection H as <- <-. now left.
  - destruct (map_get x (nodes g)) as [n|] eqn:E; [|discriminate].
    destruct (d <? dist query (n_vector n))%Z eqn:Hlt.
    + apply Z.ltb_lt in Hlt. right.
      destruct (IH _ _ _ _ H) as [[-> ->]|(y & m & Hy & Hm & -> & -> & Hd)].
      * exists x, n. simpl. auto 10.
      * exists y, m. simpl. repeat split; auto. lia.
    + destruct (IH _ _ _ _ H) as [[-> ->]|(y & m & Hy & Hm & -> & -> & Hd)].
      * now left.
      * right. exists y, m. simpl. auto 10.
Qed.

Lemma better_decreases g query d x n :
  map_get x (nodes g) = Some n -> (d < dist query (n_vector n))%Z ->
  better g query (dist query (n_vector n)) < better g query d.
Proof.
  intros Hget Hlt. unfold better.
  apply filter_length_lt with (a := (x, n)).
  - intros p Hp. apply Z.ltb_lt in Hp. apply Z.ltb_lt. lia.
  - now apply map_get_In.
  - simpl. now apply Z.ltb_lt.
  - simpl. apply Z.ltb_ge. lia.
Qed.

Lemma better_le g query d : better g query d <= length (nodes g).
Proof. apply filter_length_le. Qed.

Lemma climb_fuel g query l fuel :
  forall cur d,
    better g query d < fuel -> climb fuel g query l cur d <> OutOfFuel.
Proof.
  induction fuel as [|fuel IH]; intros cur d Hlt; [lia|]. simpl.
  destruct (nth_error (n_neighbors cur) l) as [ids|]; [|discriminate].
  destruct (bestOf g query ids None d) as [[[b|] d']| |] eqn:E; simpl;
    try discriminate.
  - apply bestOf_result in E.
    destruct E as [[E _]|(y & m & _ & Hm & Hb & -> & Hd)]; [discriminate|].
    apply IH. pose proof (@better_decreases g query d y m Hm Hd). lia.
  - now apply bestOf_fuel in E.
Qed.

Lemma descend_fuel g query lo count :
  forall cur d, descend count g query lo cur d <> OutOfFuel.
Proof.
  induction count as [|count IH]; intros cur d; simpl; [discriminate|].
  destruct (climb (fuel_of g) g query (lo + S count) cur d)
    as [[cur' d']| |] eqn:E; simpl; try discriminate.
  - apply IH.
  - apply climb_fuel in E; auto.
    rewrite fuel_of_eq. pose proof (better_le g query d). lia.
Qed.

Lemma unvisited_add g x v :
  In x (map_keys (nodes g)) -> ~ In x v ->
  unvisited g (set_add x v) < unvisited g v.
Proof.
  intros Hk Hv. unfold unvisited. apply filter_length_lt with (a := x); auto.
  - intros y Hy. apply negb_true_iff in Hy. apply negb_true_iff.
    apply set_has_false in Hy. apply set_has_false.
    rewrite set_add_In in Hy. tauto.
  - apply negb_true_iff. now apply set_has_false.
  - apply negb_false_iff. apply set_has_true. apply set_add_In. now left.
Qed.

Lemma visitNeighbors_fuel g query ef f neighbors :
  forall v C W, visitNeighbors g query ef f neighbors v C W <> OutOfFuel.
Proof.
  induction neighbors as [|x rest IH]; intros v C W; simpl; [discriminate|].
  destruct (set_has x v); [apply IH|].
  destruct (map_get x (nodes g)); [|discriminate].
  destruct (_ || _); apply IH.
Qed.

Lemma visitNeighbors_measure g query ef f neighbors :
  forall v C W v' C' W',
    visitNeighbors g query ef f neighbors v C W = Return (v', C', W') ->
    length C' + unvisited g v' <= length C + unvisited g v.
Proof.
  induction neighbors as [|x rest IH]; intros v C W v' C' W' H; simpl in H.
  - injection H as <- <- <-. lia.
  - destruct (set_has x v) eqn:Hv; [eauto|].
    apply set_has_false in Hv.
    destruct (map_get x (nodes g)) as [nb|] eqn:E; [|discriminate].
    pose proof (@unvisited_add g x v (map_get_key _ _ E) Hv) as Hu.
    destruct (_ || _); apply IH in H; rewrite ?length_app in H; simpl in H; lia.
Qed.

Lemma searchLayer_loop_fuel g query ef level fuel :
  forall v C W,
    length C + unvisited g v < fuel ->
    searchLayer_loop fuel g query ef level v C W <> OutOfFuel.
Proof.
  induction fuel as [|fuel IH]; intros v C W Hlt; [lia|]. simpl.
  destruct (sort_desc C) as [|c C1] eqn:EC; [discriminate|].
  destruct (last_opt (sort_desc W)) as [f|]; [|discriminate].
  destruct (_ && _); [discriminate|].
  destruct (map_get (c_id c) (nodes g)) as [cNode|]; [|discriminate].
  destruct (nth_error (n_neighbors cNode) level) as [ids|]; [|discriminate].
  destruct (visitNeighbors g query ef f ids v C1 (sort_desc W))
    as [[[v' C'] W']| |] eqn:E; simpl; try discriminate.
  - apply IH. apply visitNeighbors_measure in E.
    pose proof (sort_desc_length C) as HC. rewrite EC in HC. simpl in HC. lia.
  - now apply visitNeighbors_fuel in E.
Qed.

Lemma unvisited_le g v : unvisited g v <= length (nodes g).
Proof.
  unfold unvisited. etransitivity; [apply filter_length_le|].
  unfold map_keys. now rewrite length_map.
Qed.

Lemma searchLayer_fuel g query entry ef level :
  searchLayer g query entry ef level <> OutOfFuel.
Proof.
  unfold searchLayer. apply searchLayer_loop_fuel.
  rewrite fuel_of_eq. pose proof (unvisited_le g [n_id entry]). simpl. lia.
Qed.

(** No call of [search] is cut short by the fuel. *)
Lemma search_fuel g query k : search g query k <> OutOfFuel.
Proof.
  unfold search. destruct (entryPointId g) as [ep|]; [|discriminate].
  destruct (map_get ep (nodes g)) as [cur|]; [|discriminate].
  destruct (descend _ _ _ _ _ _) as [[cur' d']| |] eqn:E; simpl;
    try discriminate.
  - destruct (searchLayer g _ cur' (efSearch g) 0) eqn:E2; simpl;
      try discriminate.
    now apply searchLayer_fuel in E2.
  - now apply descend_fuel in E.
Qed.

Lemma connectNeighbors_fuel id l neighbors :
  forall g touched, fst (connectNeighbors g id l neighbors touched) <> OutOfFuel.
Proof.
  induction neighbors as [|nb rest IH]; intros g touched; simpl;
    [discriminate|].
  destruct (map_get (c_id nb) (nodes g)) as [n|]; [|discriminate].
  destruct (nth_error (n_neighbors n) l) as [ids|]; [|discriminate].
  destruct (M g <? _); [|apply IH].
  match goal with |- context [neighborCandidates ?a ?b ?c] =>
    pose proof (@neighborCandidates_fuel a b c) as HF;
    destruct (neighborCandidates a b c) end; simpl;
    [apply IH|discriminate|contradiction].
Qed.

Lemma connectLayers_fuel id fv n :
  forall g cur touched, fst (connectLayers n g id fv cur touched) <> OutOfFuel.
Proof.
  induction n as [|l IH]; intros g cur touched; simpl; [discriminate|].
  destruct cur as [entry|]; [|discriminate].
  destruct (searchLayer g fv entry (efConstruction g) l) as [W| |] eqn:E;
    simpl; try discriminate.
  - match goal with |- context [connectNeighbors ?a ?b ?c ?d ?t] =>
      pose proof (@connectNeighbors_fuel b c d a t) as HF;
      destruct (connectNeighbors a b c d t) as [[t1|e|] g2] end; simpl in *;
      [apply IH|discriminate|contradiction].
  - now apply searchLayer_fuel in E.
Qed.

(** No call of [addPoint] is cut short by the fuel. *)
Lemma addPoint_fuel coin g id vector :
  fst (addPoint coin g id vector) <> OutOfFuel.
Proof.
  unfold addPoint. destruct (map_has id (nodes g)); [discriminate|].
  remember (S (Nat.min _ _)) as n eqn:Hn. clear Hn. simpl.
  destruct (entryPointId g) as [ep|]; [|discriminate].
  destruct (map_get ep _) as [cur|]; [|discriminate].
  destruct (descend _ _ _ _ _ _) as [[cur' d']| |] eqn:E; simpl;
    try discriminate.
  - match goal with |- context [connectLayers ?n ?a ?b ?c ?d ?t] =>
      pose proof (@connectLayers_fuel b c n a d t) as HF;
      destruct (connectLayers n a b c d t) as [[t1|e|] g2] end; simpl in *;
      [discriminate|discriminate|contradiction].
  - now apply descend_fuel in E.
Qed.

(** *** No [TypeError] on a well-formed graph *)

Lemma stored_below g n l l' : stored g n l -> l' <= l -> stored g n l'.
Proof. intros [H1 H2] Hle. split; auto. lia. Qed.

Lemma stored_has_layer g n l :
  well_formed g -> stored g n l -> has_layer g (n_id n) l.
Proof.
  intros Hwf [[k Hk] Hl]. exists n. split; auto.
  now rewrite (wf_ids Hwf _ Hk).
Qed.

Lemma has_layer_stored g x l :
  has_layer g x l -> exists n, map_get x (nodes g) = Some n /\ stored g n l.
Proof.
  intros (n & Hn & Hl). exists n. split; auto. split; eauto.
Qed.

Lemma stored_neighbors g n l :
  well_formed g -> stored g n l ->
  exists ids, nth_error (n_neighbors n) l = Some ids /\
              forall x, In x ids -> has_layer g x l.
Proof.
  intros Hwf [[k Hk] Hl].
  destruct (nth_error (n_neighbors n) l) as [ids|] eqn:E.
  - exists ids. split; auto. intros x Hx. eapply wf_closed; eauto.
  - apply nth_error_None in E. lia.
Qed.

Lemma bestOf_wf g query l neighbors :
  (forall x, In x neighbors -> has_layer g x l) ->
  forall best d,
    (forall n, best = Some n -> stored g n l) ->
    exists best' d',
      bestOf g query neighbors best d = Return (best', d') /\
      (forall n, best' = Some n -> stored g n l).
Proof.
  induction neighbors as [|x rest IH]; intros Hall best d Hbest; simpl.
  - eauto.
  - destruct (has_layer_stored (Hall x (or_introl eq_refl))) as (n & -> & Hn).
    assert (Hrest : forall y, In y rest -> has_layer g y l)
      by (intros y Hy; apply Hall; now right).
    destruct (d <? _)%Z; apply IH; auto.
    intros n' [= <-]. exact Hn.
Qed.

Lemma climb_wf g query l fuel :
  well_formed g ->
  forall cur d,
    stored g cur l ->
    climb fuel g query l cur d = OutOfFuel \/
    exists cur' d',
      climb fuel g query l cur d = Return (cur', d') /\ stored g cur' l.
Proof.
  intros Hwf. induction fuel as [|fuel IH]; intros cur d Hcur; simpl; auto.
  destruct (stored_neighbors Hwf Hcur) as (ids & -> & Hids).
  destruct (@bestOf_wf g query l ids Hids None d) as (best' & d' & -> & Hb);
    [discriminate|]. simpl.
  destruct best' as [b|]; eauto.
Qed.

Lemma descend_wf g query lo count :
  well_formed g ->
  forall cur d,
    stored g cur (lo + count) ->
    exists cur' d',
      descend count g query lo cur d = Return (cur', d') /\ stored g cur' lo.
Proof.
  intros Hwf. induction count as [|count IH]; intros cur d Hcur; simpl.
  - rewrite Nat.add_0_r in Hcur. eauto.
  - destruct (@climb_wf g query (lo + S count) (fuel_of g) Hwf cur d Hcur)
      as [E|(cur' & d' & E & Hcur')].
    + exfalso. revert E. apply climb_fuel.
      rewrite fuel_of_eq. pose proof (better_le g query d). lia.
    + rewrite E. simpl. apply IH. eapply stored_below; eauto. lia.
Qed.

Lemma on_layer_perm g l cs cs' :
  Permutation cs cs' -> on_layer g l cs -> on_layer g l cs'.
Proof. intros Hp H. eapply Permutation_Forall; eauto. Qed.

Lemma on_layer_sort g l cs : on_layer g l cs -> on_layer g l (sort_desc cs).
Proof. apply on_layer_perm, sort_desc_perm. Qed.

Lemma In_removelast (A : Type) (x : A) (l : list A) :
  In x (removelast l) -> In x l.
Proof.
  induction l as [|y l IH]; simpl; auto.
  destruct l as [|z l]; simpl in *; [tauto|].
  intros [->|H]; auto.
Qed.

Lemma on_layer_removelast g l cs :
  on_layer g l cs -> on_layer g l (removelast cs).
Proof.
  unfold on_layer. rewrite !Forall_forall. intros H x Hx.
  apply H. now apply In_removelast.
Qed.

Lemma evict_nonempty ef W e :
  W <> [] ->
  (if ef <? length (sort_desc (W ++ [e]))
   then removelast (sort_desc (W ++ [e])) else sort_desc (W ++ [e])) <> [].
Proof.
  intros HW.
  assert (Hlen : 2 <= length (sort_desc (W ++ [e]))).
  { rewrite sort_desc_length, length_app. simpl.
    destruct W; [contradiction|simpl; lia]. }
  destruct (ef <? _); intros E; rewrite <- length_zero_iff_nil in E.
  - rewrite removelast_firstn_len, length_firstn in E. lia.
  - lia.
Qed.

Lemma visitNeighbors_wf g query ef f l neighbors :
  (forall x, In x neighbors -> has_layer g x l) ->
  forall v C W,
    on_layer g l C -> on_layer g l W -> W <> [] ->
    exists v' C' W',
      visitNeighbors g query ef f neighbors v C W = Return (v', C', W') /\
      on_layer g l C' /\ on_layer g l W' /\ W' <> [].
Proof.
  induction neighbors as [|x rest IH]; intros Hall v C W HC HW Hne; simpl.
  - eauto 10.
  - assert (Hrest : forall y, In y rest -> has_layer g y l)
      by (intros y Hy; apply Hall; now right).
    destruct (set_has x v); [now apply IH|].
    pose proof (Hall x (or_introl eq_refl)) as Hx.
    destruct (has_layer_stored Hx) as (n & -> & Hn).
    destruct (_ || _); [|now apply IH].
    apply IH; auto.
    + apply Forall_app. split; auto.
    + assert (on_layer g l (sort_desc (W ++ [{| c_id := x;
                c_score := dist query (n_vector n) |}]))).
      { apply on_layer_sort. apply Forall_app. split; auto. }
      destruct (ef <? _); auto. now apply on_layer_removelast.
    + now apply evict_nonempty.
Qed.

Lemma searchLayer_loop_wf g query ef l fuel :
  well_formed g ->
  forall v C W,
    on_layer g l C -> on_layer g l W -> W <> [] ->
    searchLayer_loop fuel g query ef l v C W = OutOfFuel \/
    exists R,
      searchLayer_loop fuel g query ef l v C W = Return R /\
      on_layer g l R /\ R <> [].
Proof.
  intros Hwf. induction fuel as [|fuel IH]; intros v C W HC HW Hne; simpl; auto.
  pose proof (on_layer_sort HC) as HC'. pose proof (on_layer_sort HW) as HW'.
  assert (Hne' : sort_desc W <> []).
  { intros E. apply Hne. apply length_zero_iff_nil.
    rewrite <- sort_desc_length, E. reflexivity. }
  destruct (sort_desc C) as [|c C1]; [eauto|].
  destruct (last_opt (sort_desc W)) as [f|] eqn:Ef;
    [|apply last_opt_None in Ef; contradiction].
  destruct (_ && _); [eauto|].
  inversion HC' as [|? ? Hc HC1]; subst.
  destruct (has_layer_stored Hc) as (cNode & -> & Hn).
  destruct (stored_neighbors Hwf Hn) as (ids & -> & Hids).
  destruct (@visitNeighbors_wf g query ef f l ids Hids v C1 (sort_desc W))
    as (v' & C' & W' & -> & H1 & H2 & H3); auto.
  simpl. now apply IH.
Qed.

Lemma searchLayer_wf g query entry ef l :
  well_formed g -> has_layer g (n_id entry) l ->
  exists R,
    searchLayer g query entry ef l = Return R /\ on_layer g l R /\ R <> [].
Proof.
  intros Hwf He.
  destruct (@searchLayer_loop_wf g query ef l (fuel_of g) Hwf [n_id entry]
              [{| c_id := n_id entry; c_score := dist query (n_vector entry) |}]
              [{| c_id := n_id entry; c_score := dist query (n_vector entry) |}])
    as [E|H]; try (repeat constructor; assumption); try discriminate; auto.
  exfalso. revert E. apply searchLayer_fuel.
Qed.

(** On a well-formed graph [search] returns. *)
Lemma search_wf g query k : well_formed g -> returns (search g query k).
Proof.
  intros Hwf. unfold search, returns.
  destruct (entryPointId g) as [ep|] eqn:Hep; [|eauto].
  destruct (has_layer_stored (wf_entry Hwf Hep)) as (cur & -> & Hcur).
  destruct (@descend_wf g (map fround query) 0 (maxLevel g) Hwf cur
              (dist (map fround query) (n_vector cur)) Hcur)
    as (cur' & d' & -> & Hcur'). simpl.
  destruct (@searchLayer_wf g (map fround query) cur' (efSearch g) 0 Hwf)
    as (R & -> & _); [now apply stored_has_layer|].
  simpl. eauto.
Qed.

(** *** [addPoint] keeps a graph well formed, and returns on one *)

Lemma has_layer_set_layer g key n l ids x l' :
  map_get key (nodes g) = Some n ->
  has_layer g x l' ->
  has_layer (with_nodes g (map_set key (set_layer l ids n) (nodes g))) x l'.
Proof.
  intros Hkey (m & Hm & Hl). unfold has_layer. simpl.
  rewrite map_get_set. destruct (String.eqb key x) eqn:E.
  - apply String.eqb_eq in E. subst x. rewrite Hkey in Hm. injection Hm as <-.
    eexists. split; [reflexivity|]. simpl. now rewrite length_list_set.
  - eauto.
Qed.

Lemma wf_set_layer g key n l ids :
  well_formed g -> map_get key (nodes g) = Some n ->
  (forall x, In x ids -> has_layer g x l) ->
  well_formed (with_nodes g (map_set key (set_layer l ids n) (nodes g))).
Proof.
  intros Hwf Hkey Hids.
  pose proof (fun x l' => @has_layer_set_layer g key n l ids x l' Hkey) as Ht.
  constructor; simpl.
  - rewrite map_keys_set_old; [apply (wf_keys Hwf)|].
    eapply map_get_key; eauto.
  - intros k m Hm. rewrite map_get_set in Hm.
    destruct (String.eqb key k) eqn:E.
    + apply String.eqb_eq in E. subst k. injection Hm as <-. simpl.
      eapply wf_ids; eauto.
    + eapply wf_ids; eauto.
  - intros k m Hm. rewrite map_get_set in Hm.
    destruct (String.eqb key k) eqn:E.
    + injection Hm as <-. simpl. rewrite length_list_set.
      eapply wf_layers; eauto.
    + eapply wf_layers; eauto.
  - intros k m l' ids' x Hm Hnth Hx. apply Ht.
    rewrite map_get_set in Hm. destruct (String.eqb key k) eqn:E.
    + injection Hm as <-. simpl in Hnth. rewrite nth_error_list_set in Hnth.
      destruct (Nat.eqb l l') eqn:El.
      * apply Nat.eqb_eq in El. subst l'.
        destruct (l <? _); [|discriminate]. injection Hnth as <-. auto.
      * eapply wf_closed; eauto.
    + eapply wf_closed; eauto.
  - intros ep Hep. apply Ht. now apply (wf_entry Hwf).
Qed.

Lemma neighborCandidates_wf g nb ids :
  (forall x, In x ids -> map_get x (nodes g) <> None) ->
  exists cs, neighborCandidates g nb ids = Return cs /\ map c_id cs = ids.
Proof.
  induction ids as [|x rest IH]; intros Hall; simpl; [eauto|].
  destruct (map_get x (nodes g)) as [n|] eqn:E;
    [|exfalso; apply (Hall x (or_introl eq_refl)); exact E].
  destruct IH as (cs & -> & Hcs); [intros y Hy; apply Hall; now right|].
  simpl. eexists. split; [reflexivity|]. simpl. now rewrite Hcs.
Qed.

Lemma selectNeighbors_In c cands m :
  In c (selectNeighbors cands m) -> In c cands.
Proof.
  unfold selectNeighbors. intros H. apply sort_desc_In.
  rewrite <- (firstn_skipn m (sort_desc cands)). apply in_or_app. now left.
Qed.

Lemma connectNeighbors_wf id l neighbors :
  forall g touched,
    well_formed g -> has_layer g id l -> on_layer g l neighbors ->
    exists touched' g',
      connectNeighbors g id l neighbors touched = (Return touched', g') /\
      well_formed g' /\
      (forall x l', has_layer g x l' -> has_layer g' x l').
Proof.
  induction neighbors as [|nb rest IH]; intros g touched Hwf Hid Hnbs; simpl.
  - eauto.
  - inversion Hnbs as [|? ? Hnb Hrest]; subst.
    destruct Hnb as (n & Hn & Hl). rewrite Hn.
    destruct (nth_error (n_neighbors n) l) as [ids|] eqn:Hnth;
      [|apply nth_error_None in Hnth; lia].
    assert (Hpushed : forall x, In x (ids ++ [id]) -> has_layer g x l).
    { intros x Hx. apply in_app_or in Hx. destruct Hx as [Hx|[<-|[]]]; auto.
      eapply wf_closed; eauto. }
    pose proof (@wf_set_layer g (c_id nb) n l (ids ++ [id]) Hwf Hn Hpushed)
      as Hwf1.
    pose proof (fun x l' =>
                  @has_layer_set_layer g (c_id nb) n l (ids ++ [id]) x l' Hn)
      as Ht1.
    set (g1 := with_nodes g
                 (map_set (c_id nb) (set_layer l (ids ++ [id]) n) (nodes g)))
      in *.
    assert (Hrest1 : on_layer g1 l rest).
    { eapply Forall_impl; [|exact Hrest]. intros c Hc. now apply Ht1. }
    destruct (M g <? _).
    + destruct (@neighborCandidates_wf g1 (set_layer l (ids ++ [id]) n)
                  (ids ++ [id])) as (cs & -> & Hcs).
      { intros x Hx. destruct (Ht1 x l (Hpushed x Hx)) as (m & -> & _).
        discriminate. }
      assert (Hn1 : map_get (c_id nb) (nodes g1) =
                    Some (set_layer l (ids ++ [id]) n))
        by apply map_get_set_eq.
      assert (Hkept : forall x,
                 In x (map c_id (selectNeighbors cs (M g))) ->
                 has_layer g1 x l).
      { intros x Hx. apply in_map_iff in Hx. destruct Hx as (c & <- & Hc).
        apply selectNeighbors_In in Hc. apply Ht1, Hpushed.
        rewrite <- Hcs. now apply in_map. }
      pose proof (@wf_set_layer g1 (c_id nb) _ l _ Hwf1 Hn1 Hkept) as Hwf2.
      pose proof (fun x l' =>
                    @has_layer_set_layer g1 (c_id nb) _ l
                      (map c_id (selectNeighbors cs (M g))) x l' Hn1) as Ht2.
      destruct (IH _ (set_add (n_id n) touched) Hwf2) as (t' & g' & E' & Hwf' & Ht').
      * apply Ht2, Ht1, Hid.
      * eapply Forall_impl; [|exact Hrest1]. intros c Hc. now apply Ht2.
      * exists t', g'. split; [exact E'|]. split; auto.
    + destruct (IH _ (set_add (n_id n) touched) Hwf1) as (t' & g' & E' & Hwf' & Ht');
        auto.
      exists t', g'. split; [exact E'|]. split; auto.
Qed.

Lemma connectLayers_wf id fv n :
  forall g cur touched,
    well_formed g ->
    (forall l, l < n -> has_layer g id l) ->
    (forall l, n = S l ->
       exists entry, cur = Some entry /\ has_layer g (n_id entry) l) ->
    exists touched' g',
      connectLayers n g id fv cur touched = (Return touched', g') /\
      well_formed g' /\
      (forall x l', has_layer g x l' -> has_layer g' x l').
Proof.
  induction n as [|l IH]; intros g cur touched Hwf Hid Hcur; simpl.
  - eauto.
  - destruct (Hcur l eq_refl) as (entry & -> & Hentry).
    destruct (@searchLayer_wf g fv entry (efConstruction g) l Hwf Hentry)
      as (W & -> & HW & Hne).
    pose proof (on_layer_sort HW) as HW'.
    assert (Hne' : sort_desc W <> []).
    { intros E. apply Hne. apply length_zero_iff_nil.
      rewrite <- sort_desc_length, E. reflexivity. }
    assert (Hsel : on_layer g l (firstn (M g) (sort_desc W))).
    { unfold on_layer in *. rewrite Forall_forall in *. intros c Hc.
      apply HW'. rewrite <- (firstn_skipn (M g) (sort_desc W)).
      apply in_or_app. now left. }
    destruct (Hid l (Nat.lt_succ_diag_r l)) as (nn & Hnn & Hlen).
    assert (Hids : forall x,
               In x (map c_id (firstn (M g) (sort_desc W))) -> has_layer g x l).
    { intros x Hx. apply in_map_iff in Hx. destruct Hx as (c & <- & Hc).
      unfold on_layer in Hsel. rewrite Forall_forall in Hsel. auto. }
    pose proof (@wf_set_layer g id nn l _ Hwf Hnn Hids) as Hwf1.
    pose proof (fun x l' =>
                  @has_layer_set_layer g id nn l
                    (map c_id (firstn (M g) (sort_desc W))) x l' Hnn) as Ht1.
    unfold mutate. rewrite Hnn.
    set (g1 := with_nodes g _) in *.
    destruct (@connectNeighbors_wf id l (firstn (M g) (sort_desc W)) g1 touched
                Hwf1) as (t1 & g2 & -> & Hwf2 & Ht2).
    { apply Ht1. exists nn. auto. }
    { eapply Forall_impl; [|exact Hsel]. intros c Hc. now apply Ht1. }
    destruct (sort_desc W) as [|w0 Wrest] eqn:EW; [contradiction|].
    inversion HW' as [|? ? Hw0 _]; subst.
    pose proof (Ht2 _ _ (Ht1 _ _ Hw0)) as (n2 & Hn2 & Hl2).
    destruct (IH g2 (map_get (c_id w0) (nodes g2)) t1 Hwf2)
      as (t' & g' & -> & Hwf' & Ht').
    + intros l' Hl'. apply Ht2, Ht1, Hid. lia.
    + intros l' ->. exists n2. split; auto. exists n2.
      rewrite (wf_ids Hwf2 _ Hn2). split; auto. lia.
    + exists t', g'. split; [reflexivity|]. split; auto.
Qed.

Lemma wf_new_node g id fv level :
  well_formed g -> map_get id (nodes g) = None ->
  let g1 :=
    with_nodes g
      (map_set id {| n_id := id; n_vector := fv; n_level := level;
                     n_neighbors := repeat [] (level + 1) |} (nodes g)) in
  well_formed g1 /\
  (forall x l, has_layer g x l -> has_layer g1 x l) /\
  (forall l, l <= level -> has_layer g1 id l).
Proof.
  intros Hwf Hfresh g1.
  assert (Ht : forall x l, has_layer g x l -> has_layer g1 x l).
  { intros x l (m & Hm & Hl). exists m. split; auto. simpl.
    rewrite map_get_set_ne; auto. intros ->. congruence. }
  split; [|split; auto].
  - constructor; simpl.
    + apply NoDup_map_keys_set, (wf_keys Hwf).
    + intros k m Hm. rewrite map_get_set in Hm.
      destruct (String.eqb id k) eqn:E.
      * injection Hm as <-. simpl. now apply String.eqb_eq.
      * eapply wf_ids; eauto.
    + intros k m Hm. rewrite map_get_set in Hm.
      destruct (String.eqb id k).
      * injection Hm as <-. simpl. rewrite repeat_length. lia.
      * eapply wf_layers; eauto.
    + intros k m l ids x Hm Hnth Hx. rewrite map_get_set in Hm.
      destruct (String.eqb id k).
      * injection Hm as <-. simpl in Hnth. apply nth_error_In in Hnth.
        apply repeat_spec in Hnth. subst. contradiction.
      * apply Ht. eapply wf_closed; eauto.
    + intros ep Hep. apply Ht. now apply (wf_entry Hwf).
  - intros l Hl. eexists. split; [simpl; apply map_get_set_eq|].
    simpl. rewrite repeat_length. lia.
Qed.

(** On a well-formed graph [addPoint] returns for every id that is not a
    key yet, and the graph it leaves is well formed. *)
Lemma addPoint_wf coin g id vector :
  well_formed g -> map_has id (nodes g) = false ->
  exists touched g',
    addPoint coin g id vector = (Return touched, g') /\ well_formed g'.
Proof.
  intros Hwf Hhas. unfold addPoint. rewrite Hhas.
  apply map_has_false in Hhas.
  destruct (@wf_new_node g id (map fround vector) (getRandomLevel coin) Hwf Hhas)
    as (Hwf1 & Ht1 & Hid1).
  set (level := getRandomLevel coin) in *.
  set (g1 := with_nodes g _) in *.
  change (entryPointId g1) with (entryPointId g).
  change (maxLevel g1) with (maxLevel g).
  destruct (entryPointId g) as [ep|] eqn:Hep.
  - pose proof (Ht1 _ _ (wf_entry Hwf Hep)) as Hep1.
    destruct (has_layer_stored Hep1) as (cur & -> & Hcur).
    assert (Hdesc : exists cur' d',
               descend (maxLevel g - level) g1 (map fround vector) level cur
                 (dist (map fround vector) (n_vector cur)) = Return (cur', d') /\
               stored g1 cur' (Nat.min level (maxLevel g))).
    { destruct (Nat.le_gt_cases (maxLevel g) level) as [Hle|Hgt].
      - replace (maxLevel g - level) with 0 by lia. simpl.
        do 2 eexists. split; [reflexivity|].
        eapply stored_below; [exact Hcur|]. lia.
      - destruct (@descend_wf g1 (map fround vector) level (maxLevel g - level)
                    Hwf1 cur (dist (map fround vector) (n_vector cur)))
          as (cur' & d' & E & Hcur').
        + eapply stored_below; [exact Hcur|]. lia.
        + exists cur', d'. split; auto. eapply stored_below; eauto. lia. }
    destruct Hdesc as (cur' & d' & -> & Hcur2).
    destruct (@connectLayers_wf id (map fround vector)
                (S (Nat.min level (maxLevel g))) g1 (Some cur')
                (set_add id []) Hwf1) as (t' & g' & -> & Hwf' & Ht').
    + intros l Hl. apply Hid1. lia.
    + intros l [= <-]. exists cur'. split; auto.
      now apply stored_has_layer.
    + do 2 eexists. split; [reflexivity|].
      destruct (maxLevel g' <? level) eqn:Hlt; auto.
      destruct Hwf'. constructor; simpl; auto.
      intros ep' [= <-]. apply Ht', Hid1. lia.
  - do 2 eexists. split; [reflexivity|].
    destruct Hwf1. constructor; simpl; auto.
    intros ep' [= <-]. apply Hid1. lia.
Qed.

Lemma new_wf config : well_formed (new_HNSWIndex config).
Proof.
  constructor; simpl; try discriminate. constructor.
Qed.

Lemma adds_wf g g' : well_formed g -> adds g g' -> well_formed g'.
Proof.
  intros Hwf Ha. induction Ha as [g|g coin id vector touched g1 g2 H _ IH]; auto.
  apply IH. pose proof (addPoint_returns _ _ _ _ H) as (Hfresh & _).
  destruct (@addPoint_wf coin g id vector Hwf) as (t & g' & E & Hwf').
  - now apply map_has_false.
  - rewrite E in H. now injection H as _ <-.
Qed.

(** Every graph built from the empty one by [addPoint] is well formed. *)
Lemma reachable_wf g : reachable g -> well_formed g.
Proof.
  induction 1 as [config|g coin id vector touched g' Hr IH Hadd].
  - apply new_wf.
  - apply (@adds_wf g g' IH). eapply adds_step; [exact Hadd|constructor].
Qed.

Lemma wf_not_dangling g x : well_formed g -> ~ dangling g x.
Proof.
  intros Hwf (Hnone & k & n & l & ids & Hn & Hnth & Hx).
  destruct (wf_closed Hwf _ _ _ Hn Hnth Hx) as (m & Hm & _). congruence.
Qed.

(** *** Dangling ids *)

Lemma bestOf_dangling g query x neighbors :
  map_get x (nodes g) = None -> In x neighbors ->
  forall best d, bestOf g query neighbors best d = Throw TypeError.
Proof.
  intros Hx. induction neighbors as [|y rest IH]; intros Hin best d; simpl.
  - contradiction.
  - destruct (string_dec y x) as [->|Hne].
    + now rewrite Hx.
    + destruct Hin as [E|Hin]; [contradiction|].
      destruct (map_get y (nodes g)); auto.
      destruct (d <? _)%Z; auto.
Qed.

Lemma visitNeighbors_dangling g query ef f x neighbors :
  map_get x (nodes g) = None -> In x neighbors ->
  forall v C W,
    set_has x v = false ->
    visitNeighbors g query ef f neighbors v C W = Throw TypeError.
Proof.
  intros Hx. induction neighbors as [|y rest IH]; intros Hin v C W Hv; simpl.
  - contradiction.
  - destruct (string_dec y x) as [->|Hne].
    + now rewrite Hv, Hx.
    + destruct Hin as [E|Hin]; [contradiction|].
      destruct (set_has y v); auto.
      destruct (map_get y (nodes g)); auto.
      assert (Hv' : set_has x (set_add y v) = false).
      { apply set_has_false. rewrite set_add_In. apply set_has_false in Hv.
        intros [E|E]; auto. }
      destruct (_ || _); auto.
Qed.

(** C1, as the code has it. A dangling id is not skipped. The hill-climb
    of [search] and [addPoint] raises a [TypeError] when the neighbor list
    it scans contains an id that is not a key of the node map, and so does
    [searchLayer] when the list of its entry node contains one. The
    traversals complete without an error on a well-formed graph, where no
    id is dangling: [search], [searchLayer] from a stored entry, and the
    descent through the upper layers all return. Every graph built from
    the empty one by [addPoint] is well formed. *)
Theorem dangling_id_raises g :
  (forall x, map_get x (nodes g) = None ->
     (forall query l cur d ids fuel,
        nth_error (n_neighbors cur) l = Some ids -> In x ids ->
        climb (S fuel) g query l cur d = Throw TypeError) /\
     (forall query entry ef l cNode ids,
        map_get (n_id entry) (nodes g) = Some cNode ->
        nth_error (n_neighbors cNode) l = Some ids -> In x ids ->
        searchLayer g query entry ef l = Throw TypeError)) /\
  (well_formed g ->
     (forall x, ~ dangling g x) /\
     (forall query k, returns (search g query k)) /\
     (forall query entry ef l,
        has_layer g (n_id entry) l ->
        returns (searchLayer g query entry ef l)) /\
     (forall query lo count cur d,
        stored g cur (lo + count) ->
        returns (descend count g query lo cur d))) /\
  (reachable g -> well_formed g).
Proof.
  split; [|split; [|apply reachable_wf]].
  - intros x Hx. split.
    + intros query l cur d ids fuel Hnth Hin. simpl. rewrite Hnth.
      now rewrite (@bestOf_dangling g query x ids Hx Hin).
    + intros query entry ef l cNode ids Hentry Hnth Hin.
      unfold searchLayer. rewrite fuel_of_eq. simpl.
      rewrite Z.ltb_irrefl. simpl.
      rewrite Hentry, Hnth.
      rewrite (@visitNeighbors_dangling g query ef _ x ids Hx Hin); auto.
      apply set_has_false. intros [E|[]]. congruence.
  - intros Hwf. split; [|split; [|split]].
    + intros x. now apply wf_not_dangling.
    + intros. now apply search_wf.
    + intros query entry ef l He.
      destruct (@searchLayer_wf g query entry ef l Hwf He) as (R & E & _).
      now exists R.
    + intros query lo count cur d Hcur.
      destruct (@descend_wf g query lo count Hwf cur d Hcur) as (c & d' & E & _).
      now exists (c, d').
Qed.

(** *** What a search on layer 0 reaches *)

Lemma map_keys_length (V : Type) (m : JsMap V) : length (map_keys m) = length m.
Proof. unfold map_keys. apply length_map. Qed.

Lemma sort_desc_ids cs x : In x (map c_id (sort_desc cs)) <-> In x (map c_id cs).
Proof.
  split; apply Permutation_in, Permutation_map;
    [symmetry|]; apply sort_desc_perm.
Qed.

Lemma visitNeighbors_complete g query ef f neighbors :
  length (nodes g) <= ef ->
  forall v C W v' C' W',
    NoDup v -> incl v (map_keys (nodes g)) ->
    (forall x, In x v -> In x (map c_id W)) -> length W = length v ->
    visitNeighbors g query ef f neighbors v C W = Return (v', C', W') ->
    NoDup v' /\ incl v' (map_keys (nodes g)) /\
    (forall x, In x v' -> In x (map c_id W')) /\ length W' = length v' /\
    incl v v' /\ incl neighbors v' /\ incl (map c_id C) (map c_id C') /\
    (forall y, In y v' -> In y v \/ In y (map c_id C')).
Proof.
  intros Hef.
  induction neighbors as [|x rest IH]; intros v C W v' C' W' Hnd Hk Hres Hlen H;
    simpl in H.
  - injection H as <- <- <-. repeat split; auto using incl_refl.
    intros y [].
  - destruct (set_has x v) eqn:Hv.
    + apply set_has_true in Hv.
      destruct (IH _ _ _ _ _ _ Hnd Hk Hres Hlen H)
        as (H1 & H2 & H3 & H4 & H5 & H6 & H7 & H8).
      repeat split; auto. intros y [<-|Hy]; auto.
    + apply set_has_false in Hv.
      destruct (map_get x (nodes g)) as [nb|] eqn:E; [|discriminate].
      assert (Hv1 : set_add x v = v ++ [x]).
      { unfold set_add. apply set_has_false in Hv. now rewrite Hv. }
      assert (Hnd1 : NoDup (set_add x v)) by now apply set_add_NoDup.
      assert (Hk1 : incl (set_add x v) (map_keys (nodes g))).
      { intros y Hy. apply set_add_In in Hy. destruct Hy as [->|Hy]; auto.
        eapply map_get_key; eauto. }
      assert (Hn : length (set_add x v) <= length (nodes g)).
      { rewrite <- map_keys_length. now apply NoDup_incl_length. }
      rewrite Hv1, length_app in Hn. simpl in Hn.
      assert (E1 : (length W <? ef) = true) by (apply Nat.ltb_lt; lia).
      rewrite E1 in H. simpl in H.
      assert (E2 : (ef <? length (sort_desc
                      (W ++ [{| c_id := x; c_score := dist query (n_vector nb) |}])))
                   = false).
      { apply Nat.ltb_ge. rewrite sort_desc_length, length_app. simpl. lia. }
      rewrite E2 in H.
      apply IH in H; auto.
      * destruct H as (H1 & H2 & H3 & H4 & H5 & H6 & H7 & H8).
        repeat split; auto.
        -- intros y Hy. apply H5. apply set_add_In. now right.
        -- intros y [<-|Hy]; auto. apply H5. apply set_add_In. now left.
        -- intros y Hy. apply H7. rewrite map_app. apply in_or_app. now left.
        -- intros y Hy. destruct (H8 y Hy) as [Hy'|Hy']; auto.
           apply set_add_In in Hy'. destruct Hy' as [->|Hy']; auto.
           right. apply H7. rewrite map_app. apply in_or_app. right. now left.
      * intros y Hy. apply sort_desc_ids. rewrite map_app. apply in_or_app.
        apply set_add_In in Hy. destruct Hy as [->|Hy]; [right; now left|].
        left. auto.
      * rewrite sort_desc_length, length_app, Hv1, length_app. simpl. lia.
Qed.

Lemma linked_key g l x z :
  well_formed g -> In x (map_keys (nodes g)) -> linked g l x z ->
  In z (map_keys (nodes g)).
Proof.
  intros Hwf Hx H. induction H as [x|x y z n ids _ IH Hn Hnth Hz]; auto.
  destruct (wf_closed Hwf _ _ _ Hn Hnth Hz) as (m & Hm & _).
  eapply map_get_key; eauto.
Qed.

Lemma linked_closed g l v x z :
  (forall y, In y v -> expanded g l v y) -> In x v -> linked g l x z -> In z v.
Proof.
  intros Hexp Hx H. induction H as [x|x y z n ids _ IH Hn Hnth Hz]; auto.
  eapply (Hexp y); eauto.
Qed.

Lemma searchLayer_loop_complete g query ef l fuel :
  well_formed g -> length (nodes g) <= ef ->
  forall v C W R,
    frontier g l v C W ->
    searchLayer_loop fuel g query ef l v C W = Return R ->
    length R <= length (nodes g) /\
    forall s x, In s v -> linked g l s x -> In x (map c_id R).
Proof.
  intros Hwf Hef.
  induction fuel as [|fuel IH]; intros v C W R Hfr H; simpl in H;
    [discriminate|].
  destruct Hfr as [Hnd Hk Hres Hlen Hdone].
  assert (Hn : length v <= length (nodes g)).
  { rewrite <- map_keys_length. now apply NoDup_incl_length. }
  destruct (sort_desc C) as [|c C1] eqn:EC.
  - injection H as <-. split; [lia|].
    assert (HC : C = []).
    { apply length_zero_iff_nil. rewrite <- sort_desc_length, EC. reflexivity. }
    subst C. intros s x Hs Hl. apply Hres.
    eapply linked_closed; eauto.
    intros y Hy. destruct (Hdone y Hy) as [[]|He]; auto.
  - destruct (last_opt (sort_desc W)) as [f|]; [|discriminate].
    destruct (_ && _) eqn:Hbreak.
    + injection H as <-. rewrite sort_desc_length. split; [lia|].
      apply andb_true_iff in Hbreak. destruct Hbreak as [_ Hfull].
      apply Nat.leb_le in Hfull. rewrite sort_desc_length in Hfull.
      assert (Hall : incl (map_keys (nodes g)) v).
      { apply NoDup_length_incl; auto. rewrite map_keys_length. lia. }
      intros s x Hs Hl. apply sort_desc_ids, Hres, Hall.
      eapply linked_key; eauto.
    + destruct (map_get (c_id c) (nodes g)) as [cNode|] eqn:Ec; [|discriminate].
      destruct (nth_error (n_neighbors cNode) l) as [ids|] eqn:Hnth;
        [|discriminate].
      destruct (visitNeighbors g query ef f ids v C1 (sort_desc W))
        as [[[v' C'] W']| |] eqn:E; simpl in H; try discriminate.
      apply visitNeighbors_complete in E; auto.
      * destruct E as (H1 & H2 & H3 & H4 & H5 & H6 & H7 & H8).
        destruct (IH v' C' W' R) as [HR1 HR2]; auto.
        -- constructor; auto. intros y Hy.
           assert (Hmono : expanded g l v y -> expanded g l v' y).
           { intros He n ids' z Hn' Hnth' Hz. apply H5. eapply He; eauto. }
           destruct (H8 y Hy) as [Hy'|Hy']; auto.
           destruct (Hdone y Hy') as [Hc|He]; auto.
           assert (Hc' : In y (map c_id (c :: C1))).
           { rewrite <- EC. now apply sort_desc_ids. }
           destruct Hc' as [<-|Hc']; auto.
           right. intros n ids' z Hn' Hnth' Hz.
           rewrite Ec in Hn'. injection Hn' as <-.
           rewrite Hnth in Hnth'. injection Hnth' as <-. auto.
        -- split; auto. intros s x Hs. apply HR2. auto.
      * intros x Hx. apply sort_desc_ids. auto.
      * now rewrite sort_desc_length.
Qed.

(** What [searchLayer] returns it has reached: on every graph, every id it
    visits, and so every candidate and every result, is linked to the
    entry on the layer searched. *)
Lemma visitNeighbors_linked g query ef f l e0 y n neighbors0 :
  linked g l e0 y -> map_get y (nodes g) = Some n ->
  nth_error (n_neighbors n) l = Some neighbors0 ->
  forall neighbors v C W v' C' W',
    incl neighbors neighbors0 ->
    Forall (linked g l e0) v ->
    incl (map c_id C) v -> incl (map c_id W) v ->
    visitNeighbors g query ef f neighbors v C W = Return (v', C', W') ->
    Forall (linked g l e0) v' /\
    incl (map c_id C') v' /\ incl (map c_id W') v'.
Proof.
  intros Hy Hn Hnth.
  induction neighbors as [|x rest IH]; intros v C W v' C' W' Hin Hv HC HW H;
    simpl in H.
  - injection H as <- <- <-. auto.
  - assert (Hrest : incl rest neighbors0)
      by (intros z Hz; apply Hin; now right).
    destruct (set_has x v) eqn:Hvis; [eauto|].
    destruct (map_get x (nodes g)) as [nb|] eqn:E; [|discriminate].
    assert (Hv1 : Forall (linked g l e0) (set_add x v)).
    { apply Forall_forall. intros z Hz. apply set_add_In in Hz.
      destruct Hz as [->|Hz].
      - eapply linked_step; eauto. apply Hin. now left.
      - rewrite Forall_forall in Hv. auto. }
    assert (HC1 : incl (map c_id C) (set_add x v))
      by (intros z Hz; apply set_add_In; right; auto).
    assert (HW1 : incl (map c_id W) (set_add x v))
      by (intros z Hz; apply set_add_In; right; auto).
    destruct (_ || _); [|eauto].
    set (e := {| c_id := x; c_score := dist query (n_vector nb) |}) in *.
    assert (HW2 : incl (map c_id (sort_desc (W ++ [e]))) (set_add x v)).
    { intros z Hz. apply (proj1 (sort_desc_ids _ _)) in Hz.
      rewrite map_app in Hz. apply in_app_or in Hz.
      destruct Hz as [Hz|[<-|[]]]; auto. apply set_add_In. now left. }
    eapply IH; [exact Hrest|exact Hv1| | |exact H].
    + intros z Hz. rewrite map_app in Hz. apply in_app_or in Hz.
      destruct Hz as [Hz|[<-|[]]]; auto. apply set_add_In. now left.
    + destruct (ef <? _); auto.
      intros z Hz. apply HW2. apply in_map_iff in Hz.
      destruct Hz as (c & <- & Hc). apply in_map. now apply In_removelast.
Qed.

Lemma searchLayer_loop_linked g query ef l e0 fuel :
  forall v C W R,
    Forall (linked g l e0) v ->
    incl (map c_id C) v -> incl (map c_id W) v ->
    searchLayer_loop fuel g query ef l v C W = Return R ->
    forall x, In x (map c_id R) -> linked g l e0 x.
Proof.
  induction fuel as [|fuel IH]; intros v C W R Hv HC HW H; simpl in H;
    [discriminate|].
  assert (Hlinked : forall x, In x v -> linked g l e0 x)
    by (now apply Forall_forall).
  assert (HW1 : incl (map c_id (sort_desc W)) v).
  { intros z Hz. apply HW. now apply (proj1 (sort_desc_ids _ _)). }
  destruct (sort_desc C) as [|c C1] eqn:EC.
  - injection H as <-. auto.
  - assert (HC' : incl (map c_id (c :: C1)) v).
    { rewrite <- EC. intros z Hz. apply HC.
      now apply (proj1 (sort_desc_ids _ _)). }
    destruct (last_opt (sort_desc W)) as [f|]; [|discriminate].
    destruct (_ && _); [injection H as <-; auto|].
    destruct (map_get (c_id c) (nodes g)) as [cNode|] eqn:Ec; [|discriminate].
    destruct (nth_error (n_neighbors cNode) l) as [ids|] eqn:En;
      [|discriminate].
    destruct (visitNeighbors g query ef f ids v C1 (sort_desc W))
      as [[[v' C'] W']| |] eqn:E; simpl in H; try discriminate.
    assert (Hc : linked g l e0 (c_id c)) by (apply Hlinked, HC'; now left).
    destruct (@visitNeighbors_linked g query ef f l e0 (c_id c) cNode ids
                Hc Ec En ids v C1 (sort_desc W) v' C' W')
      as (H1 & H2 & H3); auto.
    + apply incl_refl.
    + intros z Hz. apply HC'. now right.
    + eauto.
Qed.

Lemma search_only_linked g query k ep cur0 cur d res :
  entryPointId g = Some ep ->
  map_get ep (nodes g) = Some cur0 ->
  descend (maxLevel g) g (map fround query) 0 cur0
    (dist (map fround query) (n_vector cur0)) = Return (cur, d) ->
  search g query k = Return res ->
  forall x, In x (map c_id res) -> linked g 0 (n_id cur) x.
Proof.
  intros Hep Hcur0 Hdesc H x Hx. unfold search in H.
  rewrite Hep, Hcur0, Hdesc in H. simpl in H.
  destruct (searchLayer g (map fround query) cur (efSearch g) 0)
    as [W| |] eqn:EW; try discriminate.
  simpl in H. injection H as <-.
  unfold searchLayer in EW.
  eapply searchLayer_loop_linked; [| | |exact EW|].
  - constructor; [apply linked_refl|constructor].
  - simpl. intros z Hz. exact Hz.
  - simpl. intros z Hz. exact Hz.
  - rewrite <- (firstn_skipn k W), map_app. apply in_or_app. now left.
Qed.

(** C4, as the code has it. [search] with [k] at least the number of
    stored nodes returns every stored node that a path of layer-0 neighbor
    links reaches from the node at which the descent through the upper
    layers ends, provided the graph is well formed and [efSearch] is at
    least the number of stored nodes. Nodes that no such path reaches are
    not returned: the result is exactly the set of nodes so reached. *)
Theorem search_returns_linked g query k ep cur0 cur d :
  well_formed g ->
  length (nodes g) <= k ->
  length (nodes g) <= efSearch g ->
  entryPointId g = Some ep ->
  map_get ep (nodes g) = Some cur0 ->
  descend (maxLevel g) g (map fround query) 0 cur0
    (dist (map fround query) (n_vector cur0)) = Return (cur, d) ->
  exists res,
    search g query k = Return res /\
    forall x, linked g 0 (n_id cur) x <-> In x (map c_id res).
Proof.
  intros Hwf Hk Hef Hep Hcur0 Hdesc.
  enough (Hres : exists res,
            search g query k = Return res /\
            forall x, linked g 0 (n_id cur) x -> In x (map c_id res)).
  { destruct Hres as (res & Hs & Hall). exists res. split; [exact Hs|].
    intros x. split; [apply Hall|].
    intros Hx. eapply search_only_linked; eauto. }
  assert (Hst0 : stored g cur0 (0 + maxLevel g)).
  { destruct (wf_entry Hwf Hep) as (n & Hn & Hl).
    rewrite Hcur0 in Hn. injection Hn as <-. split; eauto. }
  destruct (@descend_wf g (map fround query) 0 (maxLevel g) Hwf cur0
              (dist (map fround query) (n_vector cur0)) Hst0)
    as (cur' & d' & E & Hst).
  rewrite Hdesc in E. injection E as <- <-.
  pose proof (stored_has_layer Hwf Hst) as Hl.
  destruct (@searchLayer_wf g (map fround query) cur (efSearch g) 0 Hwf Hl)
    as (R & HR & _).
  unfold search. rewrite Hep, Hcur0, Hdesc. simpl. rewrite HR. simpl.
  eexists. split; [reflexivity|].
  unfold searchLayer in HR.
  apply searchLayer_loop_complete in HR; auto.
  - destruct HR as [HR1 HR2]. rewrite firstn_all2 by lia.
    intros x Hx. apply (HR2 (n_id cur)); simpl; auto.
  - destruct Hl as (m & Hm & _). constructor; simpl.
    + constructor; [tauto|constructor].
    + intros y [<-|[]]. eapply map_get_key; eauto.
    + intros y [<-|[]]. now left.
    + reflexivity.
    + intros y [<-|[]]. left. now left.
Qed.

(** From a graph built by [addPoint], every insertion of a new id returns. *)
Lemma reachable_add coin g id vector :
  reachable g -> map_has id (nodes g) = false ->
  reachable (snd (addPoint coin g id vector)).
Proof.
  intros Hr Hhas.
  destruct (@addPoint_wf coin g id vector (reachable_wf Hr) Hhas)
    as (t & g' & E & _).
  rewrite E. simpl. eapply reach_add; eauto.
Qed.

Lemma adds_trans g1 g2 g3 : adds g1 g2 -> adds g2 g3 -> adds g1 g3.
Proof.
  intros H. induction H as [g|g coin id vector touched ga gb H _ IH]; auto.
  intros H3. eapply adds_step; eauto.
Qed.

Lemma adds_last coin g g1 id vector :
  reachable g -> adds g g1 -> map_has id (nodes g1) = false ->
  adds g (snd (addPoint coin g1 id vector)).
Proof.
  intros Hr Ha Hhas.
  destruct (@addPoint_wf coin g1 id vector
              (reachable_wf (adds_reachable Hr Ha)) Hhas) as (t & g' & E & _).
  rewrite E. simpl. eapply adds_trans; [exact Ha|].
  eapply adds_step; [exact E|apply adds_nil].
Qed.

(** *** Keys and ids under a change of neighbor lists *)

Lemma map_has_set k k' (n : Node) (m : JsMap Node) :
  map_has k m = true -> map_has k (map_set k' n m) = true.
Proof.
  unfold map_has. rewrite map_get_set. now destruct (String.eqb k' k).
Qed.

Lemma frame_keys g g' z :
  same_frame g g' -> map_has z (nodes g') = map_has z (nodes g).
Proof.
  intros [_ Hsk]. apply (f_equal (map_get z)) in Hsk.
  rewrite !skeleton_get in Hsk. unfold map_has.
  destruct (map_get z (nodes g')), (map_get z (nodes g)); auto; discriminate.
Qed.

Lemma frame_ids_ok g g' : same_frame g g' -> ids_ok g -> ids_ok g'.
Proof.
  intros [_ Hsk] Hok k n' Hn'. apply (f_equal (map_get k)) in Hsk.
  rewrite !skeleton_get, Hn' in Hsk.
  destruct (map_get k (nodes g)) as [n|] eqn:E; [|discriminate].
  injection Hsk as Hid _ _. rewrite Hid. exact (Hok _ _ E).
Qed.

Lemma resolves_set_layer g key (n : Node) l ids x :
  map_get key (nodes g) = Some n ->
  (forall z, In z ids -> map_has z (nodes g) = true) ->
  resolves g l x ->
  resolves (with_nodes g (map_set key (set_layer l ids n) (nodes g))) l x.
Proof.
  intros Hkey Hids Hr n' ids' z Hn' Hnth' Hz. simpl in *.
  apply map_has_set. rewrite map_get_set in Hn'.
  destruct (String.eqb key x) eqn:E.
  - injection Hn' as <-. simpl in Hnth'.
    rewrite nth_error_list_set, Nat.eqb_refl in Hnth'.
    destruct (l <? _); [|discriminate]. injection Hnth' as <-. auto.
  - eapply Hr; eauto.
Qed.

Lemma ids_ok_new_node g id fv level :
  ids_ok g ->
  ids_ok
    (with_nodes g
       (map_set id {| n_id := id; n_vector := fv; n_level := level;
                      n_neighbors := repeat [] (level + 1) |} (nodes g))).
Proof.
  intros Hok k m Hm. simpl in Hm. rewrite map_get_set in Hm.
  destruct (String.eqb id k) eqn:E.
  - injection Hm as <-. simpl. now apply String.eqb_eq.
  - eauto.
Qed.

Lemma addPoint_ids_ok coin g id vector :
  ids_ok g -> ids_ok (snd (addPoint coin g id vector)).
Proof.
  intros Hok. unfold addPoint.
  destruct (map_has id (nodes g)); [exact Hok|].
  remember (S (Nat.min _ _)) as n eqn:Hn. clear Hn.
  pose proof (ids_ok_new_node id (map fround vector) (getRandomLevel coin) Hok)
    as Hok1.
  simpl.
  destruct (entryPointId g) as [ep|]; [|exact Hok1].
  destruct (map_get ep _) as [cur|]; [|exact Hok1].
  destruct (descend _ _ _ _ _ _) as [[cur' d']| |]; try exact Hok1.
  match goal with |- context [connectLayers ?n ?a ?b ?c ?d ?t] =>
    pose proof (frame_ids_ok (connectLayers_frame b c n a d t) Hok1) as Hok2;
    destruct (connectLayers n a b c d t) as [[t1| |] g2] end;
    cbn [snd] in *; auto.
  destruct (maxLevel g2 <? _); exact Hok2.
Qed.

Lemma fold_set_ids_ok (mk : JNode -> Node) l :
  (forall nd, n_id (mk nd) = jn_id nd) ->
  forall acc : JsMap Node,
    (forall k n, map_get k acc = Some n -> n_id n = k) ->
    forall k n,
      map_get k (fold_left (fun ns nd => map_set (jn_id nd) (mk nd) ns) l acc)
      = Some n ->
      n_id n = k.
Proof.
  intros Hmk. induction l as [|nd l IHl]; intros acc Ha; simpl; auto.
  apply IHl. intros k n Hn. rewrite map_get_set in Hn.
  destruct (String.eqb (jn_id nd) k) eqn:E; auto.
  injection Hn as <-. rewrite Hmk. now apply String.eqb_eq.
Qed.

(** Every index object stores each node under the node's own id. *)
Lemma instance_ids_ok g : instance g -> ids_ok g.
Proof.
  induction 1 as [config|json|g coin id vector _ IH].
  - intros k n H. simpl in H. discriminate.
  - intros k n. unfold fromJSON. cbn [nodes with_nodes].
    refine (@fold_set_ids_ok node_of_json _ _ _ _ k n).
    + reflexivity.
    + intros k' n' H. simpl in H. discriminate.
  - now apply addPoint_ids_ok.
Qed.

(** A check of the degree bound that can be run. *)
Lemma degree_bound_check g :
  forallb (fun p => forallb (fun ids => length ids <=? M g)
                      (n_neighbors (snd p))) (nodes g) = true ->
  degree_bound g.
Proof.
  intros H k n l ids Hget _ Hnth. rewrite forallb_forall in H.
  specialize (H _ (map_get_In _ _ Hget)). simpl in H.
  rewrite forallb_forall in H. apply Nat.leb_le. apply H.
  eapply nth_error_In; eauto.
Qed.

End EngineFacts.

(** ** The search when a similarity may be [NaN] *)

Lemma js_lt_trans a b c :
  js_lt a b = true -> js_lt b c = true -> js_lt a c = true.
Proof.
  destruct a, b, c; simpl; try discriminate. rewrite !Z.ltb_lt. lia.
Qed.

Lemma js_lt_irrefl a : js_lt a a = false.
Proof. destruct a; simpl; auto. apply Z.ltb_irrefl. Qed.

Lemma insert_stable_perm x l : Permutation (insert_stable x l) (x :: l).
Proof.
  induction l as [|y l IH]; simpl; auto.
  destruct (by_score x y); auto.
  rewrite IH. apply perm_swap.
Qed.

Lemma sort_stable_perm l : Permutation (sort_stable l) l.
Proof.
  induction l as [|x l IH]; simpl; auto.
  rewrite insert_stable_perm. now constructor.
Qed.

Lemma insert_stable_sorted x l :
  numeric x -> Forall numeric l ->
  StronglySorted desc_js l -> StronglySorted desc_js (insert_stable x l).
Proof.
  intros Hx Hl Hs. induction Hs as [|y l Hs IH Hy]; simpl.
  - repeat constructor.
  - inversion Hl as [|? ? Hny Hnl]; subst.
    assert (Hcmp : by_score x y = Gt -> desc_js y x).
    { unfold by_score, desc_js, numeric in *.
      destruct (s_score x), (s_score y); simpl; try discriminate.
      intros H. apply Z.compare_gt_iff in H. lia. }
    assert (Hcmp' : by_score x y <> Gt -> desc_js x y).
    { unfold by_score, desc_js, numeric in *.
      destruct (s_score x), (s_score y); simpl; congruence. }
    assert (Hall : desc_js x y -> Forall (desc_js x) (y :: l)).
    { intros Hxy. constructor; auto.
      rewrite Forall_forall in *. intros w Hw. specialize (Hy w Hw).
      specialize (Hnl w Hw).
      unfold desc_js, numeric in *.
      destruct (s_score x), (s_score y), (s_score w); simpl in *;
        try contradiction; try congruence; lia. }
    destruct (by_score x y) eqn:E.
    + constructor; [now constructor|]. apply Hall, Hcmp'. discriminate.
    + constructor; [now constructor|]. apply Hall, Hcmp'. discriminate.
    + constructor; [auto|].
      eapply Permutation_Forall; [symmetry; apply insert_stable_perm|].
      constructor; auto.
Qed.

Lemma sort_stable_numeric l : Forall numeric l -> Forall numeric (sort_stable l).
Proof.
  intros H. eapply Permutation_Forall; [|exact H].
  symmetry. apply sort_stable_perm.
Qed.

Lemma sort_stable_sorted l :
  Forall numeric l -> StronglySorted desc_js (sort_stable l).
Proof.
  induction 1 as [|x l Hx Hl IH]; simpl; [constructor|].
  apply insert_stable_sorted; auto. now apply sort_stable_numeric.
Qed.

Lemma sort_stable_conforms (num : Numeric)
    (similarity : list float32 -> list float32 -> score) :
  @conforms num {| sim := similarity; sort := sort_stable |}.
Proof.
  split; simpl; [apply sort_stable_perm|reflexivity].
Qed.

Lemma ssorted_firstn (A : Type) (R : A -> A -> Prop) k l :
  StronglySorted R l -> StronglySorted R (firstn k l).
Proof.
  intros H. revert k. induction H as [|x l Hs IH Hx]; intros [|k]; simpl;
    try constructor; auto.
  rewrite Forall_forall in *. intros y Hy. apply Hx.
  rewrite <- (firstn_skipn k l). apply in_or_app. now left.
Qed.

Lemma forall_firstn (A : Type) (P : A -> Prop) k l :
  Forall P l -> Forall P (firstn k l).
Proof.
  intros H. rewrite Forall_forall in *. intros y Hy. apply H.
  rewrite <- (firstn_skipn k l). apply in_or_app. now left.
Qed.

Lemma sorted_js_nth l :
  Forall numeric l -> StronglySorted desc_js l ->
  forall i j a b,
    i <= j -> nth_error l i = Some a -> nth_error l j = Some b ->
    js_le (s_score b) (s_score a).
Proof.
  intros Hn Hs. induction Hs as [|x l Hs IH Hx]; intros i j a b Hij Ha Hb.
  - destruct i; discriminate.
  - inversion Hn as [|? ? Hnx Hnl]; subst.
    destruct i as [|i], j as [|j]; simpl in *; try lia.
    + injection Ha as <-. injection Hb as <-.
      unfold numeric in Hnx. destruct (s_score x); simpl; [lia|congruence].
    + injection Ha as <-. apply nth_error_In in Hb.
      rewrite Forall_forall in Hx. exact (Hx b Hb).
    + apply (IH Hnl i j); auto. lia.
Qed.

Lemma insert_stable_lift x l :
  insert_stable (lift x) (map lift l) = map lift (insert_desc x l).
Proof.
  induction l as [|y l IH]; simpl; [reflexivity|].
  unfold by_score. simpl.
  destruct (Z.compare_spec (c_score y) (c_score x)) as [E|E|E];
    destruct (c_score y <=? c_score x)%Z eqn:Hle;
    try reflexivity;
    try (apply Z.leb_gt in Hle; lia);
    try (apply Z.leb_le in Hle; lia).
  now rewrite IH.
Qed.

Lemma sort_stable_lift l : sort_stable (map lift l) = map lift (sort_desc l).
Proof.
  induction l as [|x l IH]; simpl; [reflexivity|].
  now rewrite IH, insert_stable_lift.
Qed.

Lemma numeric_lift l : Forall numeric (map lift l).
Proof.
  apply Forall_forall. intros x Hx. apply in_map_iff in Hx.
  destruct Hx as (c & <- & _). discriminate.
Qed.

Lemma numbers_of_dist (num : Numeric) :
  @numbers num {| sim := fun a b => Num (dist a b); sort := sort_stable |}.
Proof. intros a b. reflexivity. Qed.

Lemma map_s_id_lift l : map s_id (map lift l) = map c_id l.
Proof. rewrite map_map. reflexivity. Qed.

Lemma last_opt_map (A B : Type) (f : A -> B) (l : list A) :
  last_opt (map f l) = option_map f (last_opt l).
Proof.
  unfold last_opt. rewrite <- map_rev. now destruct (rev l).
Qed.

Lemma removelast_map (A B : Type) (f : A -> B) (l : list A) :
  removelast (map f l) = map f (removelast l).
Proof.
  induction l as [|x l IH]; simpl; [reflexivity|].
  destruct l as [|y l]; [reflexivity|]. simpl in *. now rewrite IH.
Qed.

Section JsFacts.
Context {num : Numeric} {sc : Scoring}.
Hypothesis Hsort : conforms.

Opaque fuel_of.

Lemma sort_perm l : Permutation (sort l) l.
Proof. apply Hsort. Qed.

Lemma sort_length l : length (sort l) = length l.
Proof. apply Permutation_length, sort_perm. Qed.

Lemma sort_In x l : In x (sort l) <-> In x l.
Proof.
  split; apply Permutation_in; [|symmetry]; apply sort_perm.
Qed.

Lemma sort_numeric l : Forall numeric l -> Forall numeric (sort l).
Proof.
  intros H. eapply Permutation_Forall; [|exact H]. symmetry. apply sort_perm.
Qed.

Lemma sort_sorted l : Forall numeric l -> StronglySorted desc_js (sort l).
Proof.
  intros H. rewrite (proj2 Hsort l H). now apply sort_stable_sorted.
Qed.

Lemma comparable_get g query key n :
  Js.comparable g query -> map_get key (nodes g) = Some n ->
  sim query (n_vector n) <> NaN.
Proof.
  intros Hc Hn. unfold Js.comparable in Hc. rewrite Forall_forall in Hc.
  apply Hc. unfold map_values. apply map_get_In in Hn.
  now apply (in_map snd) in Hn.
Qed.

(** *** The results are sorted when every similarity is a number *)

Lemma js_visitNeighbors_sorted g query ef f neighbors :
  Js.comparable g query ->
  forall v C W v' C' W',
    Forall numeric W -> StronglySorted desc_js W ->
    Js.visitNeighbors g query ef f neighbors v C W = Return (v', C', W') ->
    Forall numeric W' /\ StronglySorted desc_js W'.
Proof.
  intros Hc.
  induction neighbors as [|x rest IH]; intros v C W v' C' W' Hn HW H;
    simpl in H.
  - injection H as <- <- <-. auto.
  - destruct (set_has x v); [eauto|].
    destruct (map_get x (nodes g)) as [nb|] eqn:E; [|discriminate].
    destruct (_ || _); [|eauto].
    set (e := {| s_id := x; s_score := sim query (n_vector nb) |}) in *.
    assert (Hne : Forall numeric (W ++ [e])).
    { apply Forall_app. split; auto. constructor; auto.
      unfold numeric, e. simpl. eapply comparable_get; eauto. }
    eapply IH; [| |exact H].
    + destruct (ef <? _); [rewrite removelast_firstn_len; apply forall_firstn|];
        now apply sort_numeric.
    + destruct (ef <? _); [rewrite removelast_firstn_len; apply ssorted_firstn|];
        now apply sort_sorted.
Qed.

Lemma js_searchLayer_loop_sorted g query ef level fuel :
  Js.comparable g query ->
  forall v C W R,
    Forall numeric W -> StronglySorted desc_js W ->
    Js.searchLayer_loop fuel g query ef level v C W = Return R ->
    Forall numeric R /\ StronglySorted desc_js R.
Proof.
  intros Hc.
  induction fuel as [|fuel IH]; intros v C W R Hn HW H; simpl in H;
    [discriminate|].
  destruct C as [|c0 C0]; [injection H as <-; auto|].
  destruct (sort (c0 :: C0)) as [|c C1]; [discriminate|].
  destruct (last_opt (sort W)) as [f|]; [|discriminate].
  destruct (_ && _).
  - injection H as <-. split; [now apply sort_numeric|now apply sort_sorted].
  - destruct (map_get (s_id c) (nodes g)) as [cNode|]; [|discriminate].
    destruct (nth_error (n_neighbors cNode) level) as [neighbors|];
      [|discriminate].
    destruct (Js.visitNeighbors g query ef f neighbors v C1 (sort W))
      as [[[v' C'] W']| |] eqn:E; simpl in H; try discriminate.
    destruct (@js_visitNeighbors_sorted g query ef f neighbors Hc
                v C1 (sort W) v' C' W') as [H1 H2]; auto.
    + now apply sort_numeric.
    + now apply sort_sorted.
    + eapply IH; eauto.
Qed.

Lemma js_searchLayer_sorted g query entry ef level R :
  Js.comparable g query ->
  (exists key, map_get key (nodes g) = Some entry) ->
  Js.searchLayer g query entry ef level = Return R ->
  Forall numeric R /\ StronglySorted desc_js R.
Proof.
  intros Hc [key Hk] H. unfold Js.searchLayer in H.
  eapply js_searchLayer_loop_sorted; [exact Hc| | |exact H].
  - constructor; auto. unfold numeric. simpl. eapply comparable_get; eauto.
  - repeat constructor.
Qed.

(** *** The node at which the descent ends is a stored one *)

Lemma js_bestOf_stored g query neighbors :
  forall best d best' d' b,
    Js.bestOf g query neighbors best d = Return (best', d') ->
    (forall n, best = Some n -> exists k, map_get k (nodes g) = Some n) ->
    best' = Some b -> exists k, map_get k (nodes g) = Some b.
Proof.
  induction neighbors as [|x rest IH]; intros best d best' d' b H Hbest Hb;
    simpl in H.
  - injection H as <- <-. auto.
  - destruct (map_get x (nodes g)) as [n|] eqn:E; [|discriminate].
    destruct (js_gt _ _); eapply IH; eauto.
    intros n' [= <-]. eauto.
Qed.

Lemma js_climb_stored g query l fuel :
  forall cur d cur' d',
    Js.climb fuel g query l cur d = Return (cur', d') ->
    (exists k, map_get k (nodes g) = Some cur) ->
    exists k, map_get k (nodes g) = Some cur'.
Proof.
  induction fuel as [|fuel IH]; intros cur d cur' d' H Hcur; simpl in H;
    [discriminate|].
  destruct (nth_error (n_neighbors cur) l) as [ns|]; [|discriminate].
  destruct (Js.bestOf g query ns None d) as [[best bd]| |] eqn:E; simpl in H;
    try discriminate.
  destruct best as [b|].
  - eapply IH; [exact H|].
    eapply js_bestOf_stored; [exact E| |reflexivity]. discriminate.
  - injection H as <- <-. exact Hcur.
Qed.

Lemma js_descend_stored g query lo count :
  forall cur d cur' d',
    Js.descend count g query lo cur d = Return (cur', d') ->
    (exists k, map_get k (nodes g) = Some cur) ->
    exists k, map_get k (nodes g) = Some cur'.
Proof.
  induction count as [|count IH]; intros cur d cur' d' H Hcur; simpl in H.
  - injection H as <- <-. exact Hcur.
  - destruct (Js.climb (fuel_of g) g query (lo + S count) cur d)
      as [[c1 d1]| |] eqn:E; simpl in H; try discriminate.
    eapply IH; [exact H|]. eapply js_climb_stored; eauto.
Qed.

(** *** The loops end *)

Lemma js_bestOf_fuel g query neighbors :
  forall best d, Js.bestOf g query neighbors best d <> OutOfFuel.
Proof.
  induction neighbors as [|x rest IH]; intros best d; simpl; [discriminate|].
  destruct (map_get x (nodes g)); [|discriminate].
  destruct (js_gt _ _); apply IH.
Qed.

Lemma js_bestOf_result g query neighbors :
  forall best d best' d',
    Js.bestOf g query neighbors best d = Return (best', d') ->
    (best' = best /\ d' = d) \/
    (exists x n, In x neighbors /\ map_get x (nodes g) = Some n /\
                 best' = Some n /\ d' = sim query (n_vector n) /\
                 js_gt d' d = true).
Proof.
  induction neighbors as [|x rest IH]; intros best d best' d' H; simpl in H.
  - injection H as <- <-. now left.
  - destruct (map_get x (nodes g)) as [n|] eqn:E; [|discriminate].
    destruct (js_gt (sim query (n_vector n)) d) eqn:Hgt.
    + right.
      destruct (IH _ _ _ _ H) as [[-> ->]|(y & m & Hy & Hm & -> & -> & Hd)].
      * exists x, n. simpl. auto 10.
      * exists y, m. simpl. repeat split; auto.
        unfold js_gt in *. eapply js_lt_trans; eauto.
    + destruct (IH _ _ _ _ H) as [[-> ->]|(y & m & Hy & Hm & -> & -> & Hd)].
      * now left.
      * right. exists y, m. simpl. auto 10.
Qed.

Lemma js_better_decreases g query d x n :
  map_get x (nodes g) = Some n -> js_gt (sim query (n_vector n)) d = true ->
  Js.better g query (sim query (n_vector n)) < Js.better g query d.
Proof.
  intros Hget Hgt. unfold Js.better.
  apply filter_length_lt with (a := (x, n)).
  - intros p Hp. unfold js_gt in *. eapply js_lt_trans; eauto.
  - now apply map_get_In.
  - exact Hgt.
  - simpl. unfold js_gt. apply js_lt_irrefl.
Qed.

Lemma js_better_le g query d : Js.better g query d <= length (nodes g).
Proof. apply filter_length_le. Qed.

Lemma js_climb_fuel g query l fuel :
  forall cur d,
    Js.better g query d < fuel -> Js.climb fuel g query l cur d <> OutOfFuel.
Proof.
  induction fuel as [|fuel IH]; intros cur d Hlt; [lia|]. simpl.
  destruct (nth_error (n_neighbors cur) l) as [ids|]; [|discriminate].
  destruct (Js.bestOf g query ids None d) as [[[b|] d']| |] eqn:E; simpl;
    try discriminate.
  - apply js_bestOf_result in E.
    destruct E as [[E _]|(y & m & _ & Hm & Hb & -> & Hd)]; [discriminate|].
    apply IH. pose proof (@js_better_decreases g query d y m Hm Hd). lia.
  - now apply js_bestOf_fuel in E.
Qed.

Lemma js_descend_fuel g query lo count :
  forall cur d, Js.descend count g query lo cur d <> OutOfFuel.
Proof.
  induction count as [|count IH]; intros cur d; simpl; [discriminate|].
  destruct (Js.climb (fuel_of g) g query (lo + S count) cur d)
    as [[cur' d']| |] eqn:E; simpl; try discriminate.
  - apply IH.
  - apply js_climb_fuel in E; auto.
    rewrite fuel_of_eq. pose proof (js_better_le g query d). lia.
Qed.

Lemma js_visitNeighbors_fuel g query ef f neighbors :
  forall v C W, Js.visitNeighbors g query ef f neighbors v C W <> OutOfFuel.
Proof.
  induction neighbors as [|x rest IH]; intros v C W; simpl; [discriminate|].
  destruct (set_has x v); [apply IH|].
  destruct (map_get x (nodes g)); [|discriminate].
  destruct (_ || _); apply IH.
Qed.

Lemma js_visitNeighbors_measure g query ef f neighbors :
  forall v C W v' C' W',
    Js.visitNeighbors g query ef f neighbors v C W = Return (v', C', W') ->
    length C' + unvisited g v' <= length C + unvisited g v.
Proof.
  induction neighbors as [|x rest IH]; intros v C W v' C' W' H; simpl in H.
  - injection H as <- <- <-. lia.
  - destruct (set_has x v) eqn:Hv; [eauto|].
    apply set_has_false in Hv.
    destruct (map_get x (nodes g)) as [nb|] eqn:E; [|discriminate].
    pose proof (@unvisited_add _ g x v (map_get_key _ _ E) Hv) as Hu.
    destruct (_ || _); apply IH in H; rewrite ?length_app in H; simpl in H; lia.
Qed.

Lemma js_searchLayer_loop_fuel g query ef level fuel :
  forall v C W,
    length C + unvisited g v < fuel ->
    Js.searchLayer_loop fuel g query ef level v C W <> OutOfFuel.
Proof.
  induction fuel as [|fuel IH]; intros v C W Hlt; [lia|]. simpl.
  destruct C as [|c0 C0]; [discriminate|].
  destruct (sort (c0 :: C0)) as [|c C1] eqn:EC; [discriminate|].
  destruct (last_opt (sort W)) as [f|]; [|discriminate].
  destruct (_ && _); [discriminate|].
  destruct (map_get (s_id c) (nodes g)) as [cNode|]; [|discriminate].
  destruct (nth_error (n_neighbors cNode) level) as [ids|]; [|discriminate].
  destruct (Js.visitNeighbors g query ef f ids v C1 (sort W))
    as [[[v' C'] W']| |] eqn:E; simpl; try discriminate.
  - apply IH. apply js_visitNeighbors_measure in E.
    pose proof (sort_length (c0 :: C0)) as HC. rewrite EC in HC.
    simpl in HC, Hlt. lia.
  - now apply js_visitNeighbors_fuel in E.
Qed.

Lemma js_searchLayer_fuel g query entry ef level :
  Js.searchLayer g query entry ef level <> OutOfFuel.
Proof.
  unfold Js.searchLayer. apply js_searchLayer_loop_fuel.
  rewrite fuel_of_eq. pose proof (unvisited_le g [n_id entry]). simpl. lia.
Qed.

Lemma js_search_fuel g query k : Js.search g query k <> OutOfFuel.
Proof.
  unfold Js.search. destruct (entryPointId g) as [ep|]; [|discriminate].
  destruct (map_get ep (nodes g)) as [cur|]; [|discriminate].
  destruct (Js.descend _ _ _ _ _ _) as [[cur' d']| |] eqn:E; simpl;
    try discriminate.
  - destruct (Js.searchLayer g _ cur' (efSearch g) 0) eqn:E2; simpl;
      try discriminate.
    now apply js_searchLayer_fuel in E2.
  - now apply js_descend_fuel in E.
Qed.

(** *** No [TypeError] on a well-formed graph *)

Lemma js_bestOf_wf g query l neighbors :
  (forall x, In x neighbors -> has_layer g x l) ->
  forall best d,
    (forall n, best = Some n -> stored g n l) ->
    exists best' d',
      Js.bestOf g query neighbors best d = Return (best', d') /\
      (forall n, best' = Some n -> stored g n l).
Proof.
  induction neighbors as [|x rest IH]; intros Hall best d Hbest; simpl.
  - eauto.
  - destruct (has_layer_stored (Hall x (or_introl eq_refl))) as (n & -> & Hn).
    assert (Hrest : forall y, In y rest -> has_layer g y l)
      by (intros y Hy; apply Hall; now right).
    destruct (js_gt _ _); apply IH; auto.
    intros n' [= <-]. exact Hn.
Qed.

Lemma js_climb_wf g query l fuel :
  well_formed g ->
  forall cur d,
    stored g cur l ->
    Js.climb fuel g query l cur d = OutOfFuel \/
    exists cur' d',
      Js.climb fuel g query l cur d = Return (cur', d') /\ stored g cur' l.
Proof.
  intros Hwf. induction fuel as [|fuel IH]; intros cur d Hcur; simpl; auto.
  destruct (stored_neighbors Hwf Hcur) as (ids & -> & Hids).
  destruct (@js_bestOf_wf g query l ids Hids None d) as (best' & d' & -> & Hb);
    [discriminate|]. simpl.
  destruct best' as [b|]; eauto.
Qed.

Lemma js_descend_wf g query lo count :
  well_formed g ->
  forall cur d,
    stored g cur (lo + count) ->
    exists cur' d',
      Js.descend count g query lo cur d = Return (cur', d') /\
      stored g cur' lo.
Proof.
  intros Hwf. induction count as [|count IH]; intros cur d Hcur; simpl.
  - rewrite Nat.add_0_r in Hcur. eauto.
  - destruct (@js_climb_wf g query (lo + S count) (fuel_of g) Hwf cur d Hcur)
      as [E|(cur' & d' & E & Hcur')].
    + exfalso. revert E. apply js_climb_fuel.
      rewrite fuel_of_eq. pose proof (js_better_le g query d). lia.
    + rewrite E. simpl. apply IH. eapply stored_below; eauto. lia.
Qed.

Lemma js_on_layer_sort g l cs : Js.on_layer g l cs -> Js.on_layer g l (sort cs).
Proof.
  intros H. eapply Permutation_Forall; [|exact H]. symmetry. apply sort_perm.
Qed.

Lemma js_evict_nonempty ef W e :
  W <> [] ->
  (if ef <? length (sort (W ++ [e]))
   then removelast (sort (W ++ [e])) else sort (W ++ [e])) <> [].
Proof.
  intros HW.
  assert (Hlen : 2 <= length (sort (W ++ [e]))).
  { rewrite sort_length, length_app. simpl.
    destruct W; [contradiction|simpl; lia]. }
  destruct (ef <? _); intros E; rewrite <- length_zero_iff_nil in E.
  - rewrite removelast_firstn_len, length_firstn in E. lia.
  - lia.
Qed.

Lemma js_visitNeighbors_wf g query ef f l neighbors :
  (forall x, In x neighbors -> has_layer g x l) ->
  forall v C W,
    Js.on_layer g l C -> Js.on_layer g l W -> W <> [] ->
    exists v' C' W',
      Js.visitNeighbors g query ef f neighbors v C W = Return (v', C', W') /\
      Js.on_layer g l C' /\ Js.on_layer g l W' /\ W' <> [].
Proof.
  induction neighbors as [|x rest IH]; intros Hall v C W HC HW Hne; simpl.
  - eauto 10.
  - assert (Hrest : forall y, In y rest -> has_layer g y l)
      by (intros y Hy; apply Hall; now right).
    destruct (set_has x v); [now apply IH|].
    pose proof (Hall x (or_introl eq_refl)) as Hx.
    destruct (has_layer_stored Hx) as (n & -> & Hn).
    destruct (_ || _); [|now apply IH].
    apply IH; auto.
    + apply Forall_app. split; auto.
    + assert (Js.on_layer g l (sort (W ++ [{| s_id := x;
                s_score := sim query (n_vector n) |}]))).
      { apply js_on_layer_sort. apply Forall_app. split; auto. }
      destruct (ef <? _); auto.
      rewrite removelast_firstn_len. now apply forall_firstn.
    + now apply js_evict_nonempty.
Qed.

Lemma js_searchLayer_loop_wf g query ef l fuel :
  well_formed g ->
  forall v C W,
    Js.on_layer g l C -> Js.on_layer g l W -> W <> [] ->
    Js.searchLayer_loop fuel g query ef l v C W = OutOfFuel \/
    exists R,
      Js.searchLayer_loop fuel g query ef l v C W = Return R /\
      Js.on_layer g l R /\ R <> [].
Proof.
  intros Hwf. induction fuel as [|fuel IH]; intros v C W HC HW Hne; simpl; auto.
  pose proof (js_on_layer_sort HC) as HC'.
  pose proof (js_on_layer_sort HW) as HW'.
  assert (Hne' : sort W <> []).
  { intros E. apply Hne. apply length_zero_iff_nil.
    rewrite <- sort_length, E. reflexivity. }
  destruct C as [|c0 C0]; [eauto|].
  pose proof (sort_length (c0 :: C0)) as HlC.
  destruct (sort (c0 :: C0)) as [|c C1]; [discriminate|].
  destruct (last_opt (sort W)) as [f|] eqn:Ef;
    [|apply last_opt_None in Ef; contradiction].
  destruct (_ && _); [eauto|].
  inversion HC' as [|? ? Hc HC1]; subst.
  destruct (has_layer_stored Hc) as (cNode & -> & Hn).
  destruct (stored_neighbors Hwf Hn) as (ids & -> & Hids).
  destruct (@js_visitNeighbors_wf g query ef f l ids Hids v C1 (sort W))
    as (v' & C' & W' & -> & H1 & H2 & H3); auto.
  simpl. now apply IH.
Qed.

Lemma js_searchLayer_wf g query entry ef l :
  well_formed g -> has_layer g (n_id entry) l ->
  exists R,
    Js.searchLayer g query entry ef l = Return R /\ Js.on_layer g l R /\
    R <> [].
Proof.
  intros Hwf He.
  destruct (@js_searchLayer_loop_wf g query ef l (fuel_of g) Hwf [n_id entry]
              [{| s_id := n_id entry; s_score := sim query (n_vector entry) |}]
              [{| s_id := n_id entry; s_score := sim query (n_vector entry) |}])
    as [E|H]; try (repeat constructor; assumption); try discriminate; auto.
  exfalso. revert E. apply js_searchLayer_fuel.
Qed.

Lemma js_search_wf g query k : well_formed g -> returns (Js.search g query k).
Proof.
  intros Hwf. unfold Js.search, returns.
  destruct (entryPointId g) as [ep|] eqn:Hep; [|eauto].
  destruct (has_layer_stored (wf_entry Hwf Hep)) as (cur & -> & Hcur).
  destruct (@js_descend_wf g (map fround query) 0 (maxLevel g) Hwf cur
              (sim (map fround query) (n_vector cur)) Hcur)
    as (cur' & d' & -> & Hcur'). simpl.
  destruct (@js_searchLayer_wf g (map fround query) cur' (efSearch g) 0 Hwf)
    as (R & -> & _); [now apply stored_has_layer|].
  simpl. eauto.
Qed.

(** *** Top-k results *)

(** C5. [search] returns at most [k] results and the empty list on an
    empty graph; where no stored vector has [NaN] for its similarity to the
    query, the score never increases along the results. This holds of every
    list [search] returns, whatever the graph and however the engine sorts
    an array that holds a [NaN] score; the loops end on every graph, and on
    a well-formed graph [search] does return a list. *)
Theorem search_topk_descending g query k :
  Js.search g query k <> OutOfFuel /\
  (entryPointId g = None -> Js.search g query k = Return []) /\
  (forall res,
     Js.search g query k = Return res ->
     length res <= k /\
     (Js.comparable g (map fround query) ->
      forall i j a b,
        i <= j -> nth_error res i = Some a -> nth_error res j = Some b ->
        js_le (s_score b) (s_score a))) /\
  (well_formed g -> returns (Js.search g query k)).
Proof.
  split; [apply js_search_fuel|]. split; [|split]; [| |apply js_search_wf].
  - intros H. unfold Js.search. now rewrite H.
  - intros res H. unfold Js.search in H.
    destruct (entryPointId g) as [ep|].
    + destruct (map_get ep (nodes g)) as [cur|] eqn:Ecur; [|discriminate].
      destruct (Js.descend _ _ _ _ _ _) as [[cur' d']| |] eqn:Ed;
        try discriminate.
      simpl in H.
      destruct (Js.searchLayer g _ cur' (efSearch g) 0) as [W| |] eqn:E;
        try discriminate.
      simpl in H. injection H as <-. split.
      * rewrite length_firstn. lia.
      * intros Hc.
        destruct (@js_searchLayer_sorted g (map fround query) cur'
                    (efSearch g) 0 W Hc) as [Hn Hs]; auto.
        { eapply js_descend_stored; eauto. }
        apply sorted_js_nth; [now apply forall_firstn|now apply ssorted_firstn].
    + injection H as <-. split; [simpl; lia|].
      intros _ [|i] j a b _ Ha; discriminate.
Qed.

(** [selectNeighbors] keeps [min M (length candidates)] of the candidates,
    the selection and the rest being together the candidates; when every
    score is a number the selection is in descending order and nothing left
    out scores above anything kept. *)
Theorem selectNeighbors_best candidates m :
  length (Js.selectNeighbors candidates m) = Nat.min m (length candidates) /\
  exists dropped,
    Permutation candidates (Js.selectNeighbors candidates m ++ dropped) /\
    (Forall numeric candidates ->
     StronglySorted desc_js (Js.selectNeighbors candidates m) /\
     forall kept out,
       In kept (Js.selectNeighbors candidates m) -> In out dropped ->
       js_le (s_score out) (s_score kept)).
Proof.
  unfold Js.selectNeighbors. split.
  - now rewrite length_firstn, sort_length.
  - exists (skipn m (sort candidates)). split.
    + rewrite firstn_skipn. symmetry. apply sort_perm.
    + intros Hn. split; [apply ssorted_firstn; now apply sort_sorted|].
      pose proof (sort_sorted Hn) as Hs.
      rewrite <- (firstn_skipn m (sort candidates)) in Hs.
      revert Hs. generalize (firstn m (sort candidates)) as a.
      generalize (skipn m (sort candidates)) as b.
      intros b a. induction a as [|h a IH]; simpl; intros Hs x y Hx Hy;
        [contradiction|].
      inversion Hs as [|? ? Hs' Hall]; subst.
      destruct Hx as [->|Hx]; [|eauto].
      rewrite Forall_forall in Hall. apply (Hall y). apply in_or_app.
      now right.
Qed.

(** *** The degree bound

    A call of [addPoint] that dies of a [TypeError] while it prunes a list
    leaves the list with [M + 1] ids. The id without a node at which the
    pruning fails is listed by a node that [searchLayer] has returned and
    not expanded, which takes a score that is [NaN]: where every score is
    a number, every node that [searchLayer] returns has been expanded, so
    that the ids it lists are keys. *)

Lemma js_neighborCandidates_only_TypeError g nb ids :
  only_TypeError (Js.neighborCandidates g nb ids).
Proof.
  induction ids as [|x rest IH]; intros e H; simpl in H; [discriminate|].
  destruct (map_get x (nodes g)); [|congruence].
  destruct (Js.neighborCandidates g nb rest); simpl in H; try discriminate.
  apply IH. congruence.
Qed.

Lemma js_neighborCandidates_fuel g nb ids :
  Js.neighborCandidates g nb ids <> OutOfFuel.
Proof.
  induction ids as [|x rest IH]; simpl; [discriminate|].
  destruct (map_get x (nodes g)); [|discriminate].
  destruct (Js.neighborCandidates g nb rest); simpl; congruence.
Qed.

Lemma js_neighborCandidates_wf g nb ids :
  (forall x, In x ids -> map_get x (nodes g) <> None) ->
  exists cs, Js.neighborCandidates g nb ids = Return cs /\ map s_id cs = ids.
Proof.
  induction ids as [|x rest IH]; intros Hall; simpl; [eauto|].
  destruct (map_get x (nodes g)) as [n|] eqn:E;
    [|exfalso; apply (Hall x (or_introl eq_refl)); exact E].
  destruct IH as (cs & -> & Hcs); [intros y Hy; apply Hall; now right|].
  simpl. eexists. split; [reflexivity|]. simpl. now rewrite Hcs.
Qed.

Lemma js_selectNeighbors_length cands m :
  length (Js.selectNeighbors cands m) <= m.
Proof. unfold Js.selectNeighbors. rewrite length_firstn. lia. Qed.

Lemma js_selectNeighbors_In c cands m :
  In c (Js.selectNeighbors cands m) -> In c cands.
Proof.
  unfold Js.selectNeighbors. intros H. apply sort_In.
  rewrite <- (firstn_skipn m (sort cands)). apply in_or_app. now left.
Qed.

Lemma js_connectNeighbors_returns id l neighbors :
  forall g touched o g',
    degree_bound g ->
    Js.connectNeighbors g id l neighbors touched = (o, g') ->
    o <> Throw TypeError -> degree_bound g'.
Proof.
  induction neighbors as [|nb rest IH]; intros g touched o g' Hb H Ho;
    simpl in H.
  - now injection H as <- <-.
  - destruct (map_get (s_id nb) (nodes g)) as [n|] eqn:E;
      [|now injection H as <- <-].
    destruct (nth_error (n_neighbors n) l) as [ids|]; [|now injection H as <- <-].
    destruct (M g <? length (ids ++ [id])) eqn:Hlt.
    + match type of H with context [Js.neighborCandidates ?a ?b ?c] =>
        pose proof (@js_neighborCandidates_only_TypeError a b c) as HT;
        pose proof (@js_neighborCandidates_fuel a b c) as HF;
        destruct (Js.neighborCandidates a b c) as [cs|e|] end.
      * eapply IH; [|exact H|exact Ho].
        match goal with |- degree_bound ?G =>
          replace G with
            (with_nodes g
               (map_set (s_id nb)
                  (set_layer l (map s_id (Js.selectNeighbors cs (M g))) n)
                  (nodes g)))
            by (unfold with_nodes; simpl;
                now rewrite map_set_set, set_layer_set_layer)
        end.
        apply degree_bound_set_layer; auto.
        rewrite length_map. apply js_selectNeighbors_length.
      * injection H as <- <-. rewrite (HT e eq_refl) in Ho. contradiction.
      * contradiction.
    + eapply IH; [|exact H|exact Ho].
      apply degree_bound_set_layer; auto. apply Nat.ltb_ge in Hlt. exact Hlt.
Qed.

Lemma js_connectLayers_returns id fv n :
  forall g cur touched o g',
    degree_bound g ->
    Js.connectLayers n g id fv cur touched = (o, g') ->
    o <> Throw TypeError -> degree_bound g'.
Proof.
  induction n as [|l IH]; intros g cur touched o g' Hb H Ho; simpl in H.
  - now injection H as <- <-.
  - destruct cur as [entry|]; [|now injection H as <- <-].
    destruct (Js.searchLayer g fv entry (efConstruction g) l) as [W| |];
      try (now injection H as <- <-).
    match type of H with context [Js.connectNeighbors ?a ?b ?c ?d ?t] =>
      pose proof (@js_connectNeighbors_returns b c d a t) as HN;
      destruct (Js.connectNeighbors a b c d t) as [[t1|e|] g2] end.
    + eapply IH; [|exact H|exact Ho]. eapply HN; [|reflexivity|discriminate].
      apply degree_bound_mutate; auto.
      rewrite length_map, length_firstn. lia.
    + injection H as <- <-. eapply HN; [|reflexivity|exact Ho].
      apply degree_bound_mutate; auto.
      rewrite length_map, length_firstn. lia.
    + injection H as <- <-. eapply HN; [|reflexivity|exact Ho].
      apply degree_bound_mutate; auto.
      rewrite length_map, length_firstn. lia.
Qed.

Lemma js_addPoint_returns coin g id vector :
  degree_bound g ->
  fst (Js.addPoint coin g id vector) <> Throw TypeError ->
  degree_bound (snd (Js.addPoint coin g id vector)).
Proof.
  intros Hb. unfold Js.addPoint.
  destruct (map_has id (nodes g)); [auto|].
  remember (S (Nat.min _ _)) as n eqn:Hn. clear Hn.
  pose proof (degree_bound_new_node id (map fround vector)
                (getRandomLevel coin) Hb) as Hb1.
  simpl.
  destruct (entryPointId g) as [ep|]; [|auto].
  destruct (map_get ep _) as [cur|]; [|auto].
  destruct (Js.descend _ _ _ _ _ _) as [[cur' d']| |]; auto.
  match goal with |- context [Js.connectLayers ?n ?a ?b ?c ?d ?t] =>
    pose proof (@js_connectLayers_returns b c n a d t) as HL;
    destruct (Js.connectLayers n a b c d t) as [[t1|e|] g2] end;
    cbn [fst snd]; intros Ho.
  - specialize (HL _ _ Hb1 eq_refl ltac:(discriminate)).
    destruct (maxLevel g2 <? _); auto.
  - exact (HL _ _ Hb1 eq_refl Ho).
  - exact (HL _ _ Hb1 eq_refl Ho).
Qed.

Lemma sorted_js_last_min l f :
  Forall numeric l -> StronglySorted desc_js l -> last_opt l = Some f ->
  forall x, In x l -> js_le (s_score f) (s_score x).
Proof.
  intros Hn Hs Hl x Hx.
  destruct (In_nth_error _ _ Hx) as [i Hi].
  assert (Hlast : nth_error l (length l - 1) = Some f).
  { unfold last_opt in Hl. destruct (rev l) as [|y r] eqn:E; [discriminate|].
    injection Hl as ->.
    assert (El : l = rev r ++ [f])
      by (rewrite <- (rev_involutive l), E; reflexivity).
    subst l. rewrite length_app. simpl.
    rewrite nth_error_app2 by lia.
    replace (length (rev r) + 1 - 1 - length (rev r)) with 0 by lia.
    reflexivity. }
  apply (sorted_js_nth Hn Hs) with (i := i) (j := length l - 1); auto.
  assert (i < length l) by (apply nth_error_Some; congruence). lia.
Qed.

Lemma js_visitNeighbors_numeric g query ef f neighbors :
  Js.comparable g query ->
  forall v C W v' C' W',
    Forall numeric C ->
    Js.visitNeighbors g query ef f neighbors v C W = Return (v', C', W') ->
    Forall numeric C'.
Proof.
  intros Hc.
  induction neighbors as [|x rest IH]; intros v C W v' C' W' Hn H; simpl in H.
  - now injection H as <- <- <-.
  - destruct (set_has x v); [eauto|].
    destruct (map_get x (nodes g)) as [nb|] eqn:E; [|discriminate].
    destruct (_ || _); [|eauto].
    eapply IH; [|exact H]. apply Forall_app. split; auto.
    constructor; auto. unfold numeric. simpl. eapply comparable_get; eauto.
Qed.

Lemma js_visitNeighbors_keys g query ef f (P : Scored -> Prop) neighbors :
  forall v C W v' C' W',
    (forall z, In z v -> map_has z (nodes g) = true) ->
    (forall x, In x W -> map_has (s_id x) (nodes g) = true) ->
    (forall x, In x W -> In x C \/ P x) ->
    Js.visitNeighbors g query ef f neighbors v C W = Return (v', C', W') ->
    (forall z, In z v' -> map_has z (nodes g) = true) /\
    (forall x, In x W' -> map_has (s_id x) (nodes g) = true) /\
    (forall x, In x W' -> In x C' \/ P x) /\
    incl v v' /\ incl neighbors v'.
Proof.
  induction neighbors as [|y rest IH]; intros v C W v' C' W' Hv HW HE H;
    simpl in H.
  - injection H as <- <- <-. repeat split; auto.
    + apply incl_refl.
    + intros z [].
  - destruct (set_has y v) eqn:Hvis.
    + destruct (IH _ _ _ _ _ _ Hv HW HE H) as (H1 & H2 & H3 & H4 & H5).
      repeat split; auto. intros z [<-|Hz]; auto.
      apply H4. now apply set_has_true.
    + destruct (map_get y (nodes g)) as [nb|] eqn:E; [|discriminate].
      assert (Hy : map_has y (nodes g) = true) by (unfold map_has; now rewrite E).
      assert (Hv1 : forall z, In z (set_add y v) -> map_has z (nodes g) = true).
      { intros z Hz. apply set_add_In in Hz. destruct Hz as [->|Hz]; auto. }
      assert (Hin : incl v (set_add y v))
        by (intros z Hz; apply set_add_In; now right).
      assert (Hyin : In y (set_add y v)) by (apply set_add_In; now left).
      destruct (_ || _).
      * set (e := {| s_id := y; s_score := sim query (n_vector nb) |}) in *.
        assert (Hsrc : forall x,
                  In x (if ef <? length (sort (W ++ [e]))
                        then removelast (sort (W ++ [e]))
                        else sort (W ++ [e])) ->
                  In x W \/ x = e).
        { intros x Hx.
          assert (Hx' : In x (sort (W ++ [e])))
            by (destruct (ef <? _); auto; now apply In_removelast).
          apply (proj1 (sort_In _ _)) in Hx'. apply in_app_or in Hx'.
          destruct Hx' as [Hx'|[<-|[]]]; auto. }
        assert (HW1 : forall x,
                  In x (if ef <? length (sort (W ++ [e]))
                        then removelast (sort (W ++ [e]))
                        else sort (W ++ [e])) ->
                  map_has (s_id x) (nodes g) = true).
        { intros x Hx. destruct (Hsrc x Hx) as [Hw| ->]; auto. }
        assert (HE1 : forall x,
                  In x (if ef <? length (sort (W ++ [e]))
                        then removelast (sort (W ++ [e]))
                        else sort (W ++ [e])) ->
                  In x (C ++ [e]) \/ P x).
        { intros x Hx. destruct (Hsrc x Hx) as [Hw| ->].
          - destruct (HE x Hw) as [Hc|Hp]; auto.
            left. apply in_or_app. now left.
          - left. apply in_or_app. right. now left. }
        destruct (IH _ _ _ _ _ _ Hv1 HW1 HE1 H)
          as (H1 & H2 & H3 & H4 & H5).
        repeat split; auto.
        -- intros z Hz. apply H4. auto.
        -- intros z [<-|Hz]; auto.
      * destruct (IH _ _ _ _ _ _ Hv1 HW HE H) as (H1 & H2 & H3 & H4 & H5).
        repeat split; auto.
        -- intros z Hz. apply H4. auto.
        -- intros z [<-|Hz]; auto.
Qed.

Lemma js_searchLayer_loop_resolves g query ef l fuel :
  Js.comparable g query ->
  forall v C W R,
    Forall numeric C -> Forall numeric W ->
    (forall z, In z v -> map_has z (nodes g) = true) ->
    (forall x, In x W -> map_has (s_id x) (nodes g) = true) ->
    (forall x, In x W -> In x C \/ resolves g l (s_id x)) ->
    Js.searchLayer_loop fuel g query ef l v C W = Return R ->
    forall x, In x R ->
      map_has (s_id x) (nodes g) = true /\ resolves g l (s_id x).
Proof.
  intros Hc.
  induction fuel as [|fuel IH]; intros v C W R HnC HnW Hv HW HE H; simpl in H;
    [discriminate|].
  destruct C as [|c0 C0].
  { injection H as <-. intros x Hx. split; auto.
    destruct (HE x Hx) as [[]|Hr]; auto. }
  pose proof (sort_sorted HnC) as HsC.
  pose proof (sort_sorted HnW) as HsW.
  pose proof (sort_numeric HnC) as HnC'.
  pose proof (sort_numeric HnW) as HnW'.
  assert (HW1 : forall x, In x (sort W) -> In x W)
    by (intros x; apply sort_In).
  assert (HC1 : forall x, In x (c0 :: C0) -> In x (sort (c0 :: C0)))
    by (intros x; apply sort_In).
  destruct (sort (c0 :: C0)) as [|c C1] eqn:EC; [discriminate|].
  destruct (last_opt (sort W)) as [f|] eqn:Ef; [|discriminate].
  destruct (_ && _) eqn:Hbreak.
  - injection H as <-. intros x Hx. split; [auto|].
    destruct (HE x (HW1 x Hx)) as [Hin|Hr]; auto. exfalso.
    apply andb_prop in Hbreak. destruct Hbreak as [Hlt _].
    pose proof (sorted_js_last_min HnW' HsW Ef x Hx) as Hmin.
    assert (Hmax : js_le (s_score x) (s_score c)).
    { inversion HsC as [|? ? _ Hall]; subst.
      inversion HnC' as [|? ? Hnc _]; subst.
      destruct (HC1 x Hin) as [<-|Hc1].
      - unfold numeric in Hnc. destruct (s_score c); simpl; [lia|congruence].
      - rewrite Forall_forall in Hall. exact (Hall x Hc1). }
    destruct (s_score x), (s_score c), (s_score f); simpl in *;
      try contradiction; try discriminate.
    apply Z.ltb_lt in Hlt. lia.
  - destruct (map_get (s_id c) (nodes g)) as [cNode|] eqn:Ec;
      [|discriminate].
    destruct (nth_error (n_neighbors cNode) l) as [ids|] eqn:En;
      [|discriminate].
    destruct (Js.visitNeighbors g query ef f ids v C1 (sort W))
      as [[[v' C'] W']| |] eqn:E; simpl in H; try discriminate.
    assert (HnC1 : Forall numeric C1) by (now inversion HnC').
    destruct (@js_visitNeighbors_keys g query ef f
                (fun x => x = c \/ resolves g l (s_id x))
                ids v C1 (sort W) v' C' W') as (H1 & H2 & H3 & _ & H5);
      auto.
    + intros x Hx. destruct (HE x (HW1 x Hx)) as [Hin|Hr]; auto.
      destruct (HC1 x Hin) as [<-|Hc1]; auto.
    + destruct (@js_visitNeighbors_sorted g query ef f ids Hc
                  v C1 (sort W) v' C' W') as [HnW2 _]; auto.
      apply (IH v' C' W' R); auto.
      * exact (@js_visitNeighbors_numeric g query ef f ids Hc
                 v C1 (sort W) v' C' W' HnC1 E).
      * intros x Hx. destruct (H3 x Hx) as [Hin|[->|Hr]]; auto.
        right. intros n ids' z Hn Hnth Hz.
        rewrite Ec in Hn. injection Hn as <-.
        rewrite En in Hnth. injection Hnth as <-. auto.
Qed.

Lemma js_searchLayer_resolves g query entry ef l R :
  Js.comparable g query ->
  sim query (n_vector entry) <> NaN ->
  map_has (n_id entry) (nodes g) = true ->
  Js.searchLayer g query entry ef l = Return R ->
  forall x, In x R ->
    map_has (s_id x) (nodes g) = true /\ resolves g l (s_id x).
Proof.
  intros Hc Hk He H. unfold Js.searchLayer in H.
  assert (Hn : Forall numeric
                 [{| s_id := n_id entry;
                     s_score := sim query (n_vector entry) |}])
    by (constructor; auto).
  eapply js_searchLayer_loop_resolves; [exact Hc|exact Hn|exact Hn| | | |exact H].
  - intros z [<-|[]]. exact He.
  - intros x [<-|[]]. exact He.
  - intros x Hx. now left.
Qed.

Lemma js_connectNeighbors_frame id l neighbors :
  forall g touched,
    same_frame g (snd (Js.connectNeighbors g id l neighbors touched)).
Proof.
  induction neighbors as [|nb rest IH]; intros g touched; simpl.
  - apply same_frame_refl.
  - destruct (map_get (s_id nb) (nodes g)) as [n|] eqn:E; [|apply same_frame_refl].
    destruct (nth_error (n_neighbors n) l) as [ids|]; [|apply same_frame_refl].
    assert (F1 : same_frame g
              (with_nodes g (map_set (s_id nb) (set_layer l (ids ++ [id]) n) (nodes g)))).
    { apply same_frame_nodes. eapply skeleton_set_same; eauto. }
    destruct (M g <? _).
    + match goal with |- context [Js.neighborCandidates ?a ?b ?c] =>
        destruct (Js.neighborCandidates a b c) end; simpl; auto.
      eapply same_frame_trans; [|apply IH].
      eapply same_frame_trans; [exact F1|].
      apply same_frame_nodes. simpl.
      eapply skeleton_set_same; [apply map_get_set_eq|reflexivity].
    + eapply same_frame_trans; [exact F1|apply IH].
Qed.

Lemma comparable_skeleton g query :
  Js.comparable g query <->
  Forall (fun p => sim query (snd (fst (snd p))) <> NaN) (skeleton (nodes g)).
Proof.
  unfold Js.comparable, map_values, skeleton.
  induction (nodes g) as [|[k n] m IH]; simpl.
  - split; constructor.
  - split; intros H; inversion H; subst; constructor; auto; now apply IH.
Qed.

Lemma frame_comparable g g' query :
  same_frame g g' -> Js.comparable g query -> Js.comparable g' query.
Proof.
  intros [_ Hsk] H. apply comparable_skeleton. rewrite Hsk.
  now apply comparable_skeleton.
Qed.

Lemma js_connectNeighbors_bound id l neighbors :
  forall g touched,
    degree_bound g -> map_has id (nodes g) = true ->
    (forall c, In c neighbors -> resolves g l (s_id c)) ->
    degree_bound (snd (Js.connectNeighbors g id l neighbors touched)).
Proof.
  induction neighbors as [|nb rest IH]; intros g touched Hb Hid Hres; simpl.
  - exact Hb.
  - destruct (map_get (s_id nb) (nodes g)) as [n|] eqn:E; [|exact Hb].
    destruct (nth_error (n_neighbors n) l) as [ids|] eqn:En; [|exact Hb].
    assert (Hpk : forall z, In z (ids ++ [id]) -> map_has z (nodes g) = true).
    { intros z Hz. apply in_app_or in Hz. destruct Hz as [Hz|[<-|[]]]; auto.
      exact (Hres nb (or_introl eq_refl) n ids z E En Hz). }
    set (n1 := set_layer l (ids ++ [id]) n) in *.
    set (g1 := with_nodes g (map_set (s_id nb) n1 (nodes g))) in *.
    assert (Hid1 : map_has id (nodes g1) = true) by now apply map_has_set.
    assert (Hres1 : forall c, In c rest -> resolves g1 l (s_id c)).
    { intros c Hc. apply resolves_set_layer; auto. apply Hres. now right. }
    destruct (M g <? length (ids ++ [id])) eqn:Hlt.
    + destruct (@js_neighborCandidates_wf g1 n1 (ids ++ [id]))
        as (cs & Ecs & Hcs).
      { intros z Hz. specialize (Hpk z Hz).
        apply (@map_has_set _ z (s_id nb) n1) in Hpk. unfold map_has in Hpk.
        simpl. destruct (map_get z _); [discriminate|discriminate Hpk]. }
      rewrite Ecs.
      assert (Hkept : forall z,
                In z (map s_id (Js.selectNeighbors cs (M g))) ->
                map_has z (nodes g1) = true).
      { intros z Hz. apply in_map_iff in Hz. destruct Hz as (c & <- & Hc).
        apply js_selectNeighbors_In in Hc. apply map_has_set, Hpk.
        rewrite <- Hcs. now apply in_map. }
      apply IH.
      * match goal with |- degree_bound ?G =>
          replace G with
            (with_nodes g
               (map_set (s_id nb)
                  (set_layer l (map s_id (Js.selectNeighbors cs (M g))) n)
                  (nodes g)))
            by (unfold g1, n1, with_nodes; simpl;
                now rewrite map_set_set, set_layer_set_layer)
        end.
        apply degree_bound_set_layer; auto.
        rewrite length_map. apply js_selectNeighbors_length.
      * simpl. now apply map_has_set.
      * intros c Hc.
        apply (@resolves_set_layer _ g1 (s_id nb) n1 l
                 (map s_id (Js.selectNeighbors cs (M g))) (s_id c)); auto.
        simpl. apply map_get_set_eq.
    + apply IH; auto.
      apply degree_bound_set_layer; auto. apply Nat.ltb_ge in Hlt. exact Hlt.
Qed.

Lemma js_connectLayers_bound id fv n :
  forall g cur touched,
    degree_bound g -> ids_ok g -> map_has id (nodes g) = true ->
    Js.comparable g fv ->
    (forall entry, cur = Some entry ->
                   map_has (n_id entry) (nodes g) = true /\
                   sim fv (n_vector entry) <> NaN) ->
    degree_bound (snd (Js.connectLayers n g id fv cur touched)).
Proof.
  induction n as [|l IH]; intros g cur touched Hb Hok Hid Hc Hcur; simpl.
  - exact Hb.
  - destruct cur as [entry|]; [|exact Hb].
    destruct (Hcur entry eq_refl) as [He Hne].
    destruct (Js.searchLayer g fv entry (efConstruction g) l) as [W| |] eqn:EW;
      try exact Hb.
    pose proof (fun x => @js_searchLayer_resolves g fv entry _ l W Hc
                           Hne He EW x) as HW.
    set (neighbors := firstn (M g) (sort W)) in *.
    assert (Hnb : forall c, In c neighbors -> In c W).
    { intros c Hc'. apply (proj1 (sort_In c W)). unfold neighbors in Hc'.
      rewrite <- (firstn_skipn (M g) (sort W)). apply in_or_app.
      now left. }
    set (g1 := with_nodes g (mutate id (set_layer l (map s_id neighbors))
                               (nodes g))) in *.
    assert (F1 : same_frame g g1)
      by (apply same_frame_nodes, skeleton_mutate).
    assert (Hb1 : degree_bound g1).
    { apply degree_bound_mutate; auto. unfold neighbors.
      rewrite length_map, length_firstn. lia. }
    assert (Hres1 : forall c, In c neighbors -> resolves g1 l (s_id c)).
    { intros c Hc'. unfold g1, mutate.
      destruct (map_get id (nodes g)) as [nn|] eqn:E.
      - apply resolves_set_layer; auto.
        + intros z Hz. apply in_map_iff in Hz. destruct Hz as (c' & <- & Hc'').
          apply HW, Hnb, Hc''.
        + apply HW, Hnb, Hc'.
      - replace (with_nodes g (nodes g)) with g by now destruct g.
        apply HW, Hnb, Hc'. }
    assert (Hid1 : map_has id (nodes g1) = true)
      by now rewrite (frame_keys id F1).
    pose proof (@js_connectNeighbors_bound id l neighbors g1 touched
                  Hb1 Hid1 Hres1) as Hb2.
    pose proof (js_connectNeighbors_frame id l neighbors g1 touched) as F2.
    destruct (Js.connectNeighbors g1 id l neighbors touched) as [[t1|e|] g2];
      cbn [snd] in *; auto.
    assert (F : same_frame g g2) by (eapply same_frame_trans; eauto).
    pose proof (frame_ids_ok F Hok) as Hok2.
    pose proof (frame_comparable F Hc) as Hc2.
    apply IH; auto.
    + now rewrite (frame_keys id F).
    + intros e He'. destruct (sort W) as [|w0 rest].
      * injection He' as <-. split; auto. now rewrite (frame_keys _ F).
      * split.
        -- rewrite (Hok2 _ _ He'). unfold map_has. now rewrite He'.
        -- eapply comparable_get; eauto.
Qed.

Lemma forall_values_set (P : Node -> Prop) k (n : Node) (m : JsMap Node) :
  Forall P (map_values m) -> P n -> Forall P (map_values (map_set k n m)).
Proof.
  intros Hm Hn. unfold map_values in *.
  induction m as [|[k' x] m IH]; simpl in *.
  - now constructor.
  - inversion Hm; subst. destruct (String.eqb k' k); simpl; constructor; auto.
Qed.

Lemma js_addPoint_bound coin g id vector :
  ids_ok g ->
  sim (map fround vector) (map fround vector) <> NaN ->
  Js.comparable g (map fround vector) ->
  degree_bound g ->
  degree_bound (snd (Js.addPoint coin g id vector)).
Proof.
  intros Hok Hself Hc Hb. unfold Js.addPoint.
  destruct (map_has id (nodes g)); [exact Hb|].
  remember (S (Nat.min _ _)) as n eqn:Hn. clear Hn.
  pose proof (degree_bound_new_node id (map fround vector)
                (getRandomLevel coin) Hb) as Hb1.
  pose proof (ids_ok_new_node id (map fround vector) (getRandomLevel coin) Hok)
    as Hok1.
  match type of Hb1 with degree_bound ?G =>
    assert (Hc1 : Js.comparable G (map fround vector))
      by (apply forall_values_set; auto)
  end.
  simpl.
  destruct (entryPointId g) as [ep|]; [|exact Hb1].
  destruct (map_get ep _) as [cur|] eqn:Ecur; [|exact Hb1].
  destruct (Js.descend _ _ _ _ _ _) as [[cur' d']| |] eqn:Ed; try exact Hb1.
  destruct (js_descend_stored _ _ _ _ _ Ed (ex_intro _ ep Ecur)) as [k Hk].
  assert (Hentry : forall entry, Some cur' = Some entry ->
            map_has (n_id entry) (nodes
              (with_nodes g
                 (map_set id
                    {| n_id := id; n_vector := map fround vector;
                       n_level := getRandomLevel coin;
                       n_neighbors := repeat [] (getRandomLevel coin + 1) |}
                    (nodes g)))) = true /\
            sim (map fround vector) (n_vector entry) <> NaN).
  { intros e0 [= <-]. split.
    - rewrite (Hok1 _ _ Hk). unfold map_has. now rewrite Hk.
    - eapply comparable_get; eauto. }
  match goal with |- context [Js.connectLayers ?n ?a ?b ?c ?d ?t] =>
    pose proof (@js_connectLayers_bound b c n a d t Hb1 Hok1) as Hb2;
    destruct (Js.connectLayers n a b c d t) as [[t1| |] g2] end;
    cbn [snd] in *.
  - assert (Hb3 : degree_bound g2).
    { apply Hb2; auto. simpl. unfold map_has. now rewrite map_get_set_eq. }
    destruct (maxLevel g2 <? _); exact Hb3.
  - apply Hb2; auto. simpl. unfold map_has. now rewrite map_get_set_eq.
  - apply Hb2; auto. simpl. unfold map_has. now rewrite map_get_set_eq.
Qed.

(** C2. The degree bound is preserved by every call of [addPoint] that
    returns or is rejected as a duplicate: if every neighbor list on a
    layer up to the node's level holds at most [M] ids before the call, the
    same is true after it, for the new node and for the nodes whose lists
    were extended and pruned. It is preserved by a call that dies of a
    [TypeError] as well when the new vector has a number for its similarity
    to itself and to every stored vector, the nodes being stored under
    their own ids. *)
Theorem addPoint_degree_bound coin g id vector :
  degree_bound g ->
  (fst (Js.addPoint coin g id vector) <> Throw TypeError ->
   degree_bound (snd (Js.addPoint coin g id vector))) /\
  (ids_ok g ->
   sim (map fround vector) (map fround vector) <> NaN ->
   Js.comparable g (map fround vector) ->
   degree_bound (snd (Js.addPoint coin g id vector))).
Proof.
  intros Hb. split.
  - now apply js_addPoint_returns.
  - intros Hok Hself Hc. now apply js_addPoint_bound.
Qed.

(** *** Where every similarity is a number

    The engine with scores that may be [NaN] is then the engine of the
    sections above. *)

Section Agreement.
Hypothesis Hnum : numbers.

Lemma sim_dist a b : sim a b = Num (dist a b).
Proof. apply Hnum. Qed.

Lemma sort_lift l : sort (map lift l) = map lift (sort_desc l).
Proof.
  rewrite (proj2 Hsort _ (numeric_lift l)). apply sort_stable_lift.
Qed.

Lemma js_selectNeighbors_agrees cs m :
  Js.selectNeighbors (map lift cs) m = map lift (selectNeighbors cs m).
Proof.
  unfold Js.selectNeighbors, selectNeighbors. now rewrite sort_lift, firstn_map.
Qed.

Lemma js_bestOf_agrees g query neighbors :
  forall best d,
    Js.bestOf g query neighbors best (Num d) =
    outcome_map (fun p => (fst p, Num (snd p)))
      (bestOf g query neighbors best d).
Proof.
  induction neighbors as [|x rest IH]; intros best d; simpl; [reflexivity|].
  destruct (map_get x (nodes g)) as [n|]; [|reflexivity].
  cbv zeta. rewrite !sim_dist. unfold js_gt. simpl.
  destruct (d <? dist query (n_vector n))%Z; apply IH.
Qed.

Lemma js_climb_agrees g query l fuel :
  forall cur d,
    Js.climb fuel g query l cur (Num d) =
    outcome_map (fun p => (fst p, Num (snd p))) (climb fuel g query l cur d).
Proof.
  induction fuel as [|fuel IH]; intros cur d; simpl; [reflexivity|].
  destruct (nth_error (n_neighbors cur) l) as [ns|]; [|reflexivity].
  rewrite js_bestOf_agrees.
  destruct (bestOf g query ns None d) as [[[b|] d']| |]; simpl; auto.
Qed.

Lemma js_descend_agrees g query lo count :
  forall cur d,
    Js.descend count g query lo cur (Num d) =
    outcome_map (fun p => (fst p, Num (snd p)))
      (descend count g query lo cur d).
Proof.
  induction count as [|count IH]; intros cur d; simpl; [reflexivity|].
  rewrite js_climb_agrees.
  destruct (climb (fuel_of g) g query (lo + S count) cur d)
    as [[cur' d']| |]; simpl; auto.
Qed.

Lemma js_visitNeighbors_agrees g query ef f neighbors :
  forall v C W,
    Js.visitNeighbors g query ef (lift f) neighbors v (map lift C) (map lift W)
    = outcome_map
        (fun t => (fst (fst t), map lift (snd (fst t)), map lift (snd t)))
        (visitNeighbors g query ef f neighbors v C W).
Proof.
  induction neighbors as [|x rest IH]; intros v C W; simpl; [reflexivity|].
  destruct (set_has x v); [apply IH|].
  destruct (map_get x (nodes g)) as [n|]; [|reflexivity].
  cbv zeta. rewrite !sim_dist, length_map. unfold js_gt. simpl.
  destruct (_ || _); [|apply IH].
  change {| s_id := x; s_score := Num (dist query (n_vector n)) |}
    with (lift {| c_id := x; c_score := dist query (n_vector n) |}).
  change [lift {| c_id := x; c_score := dist query (n_vector n) |}]
    with (map lift [{| c_id := x; c_score := dist query (n_vector n) |}]).
  rewrite <- !map_app, sort_lift, length_map, removelast_map.
  destruct (ef <? _); apply IH.
Qed.

Lemma js_searchLayer_loop_agrees g query ef level fuel :
  forall v C W,
    Js.searchLayer_loop fuel g query ef level v (map lift C) (map lift W)
    = outcome_map (map lift) (searchLayer_loop fuel g query ef level v C W).
Proof.
  induction fuel as [|fuel IH]; intros v C W; simpl; [reflexivity|].
  destruct C as [|c0 C0]; [reflexivity|].
  change (map lift (c0 :: C0)) with (lift c0 :: map lift C0).
  cbv iota.
  change (lift c0 :: map lift C0) with (map lift (c0 :: C0)).
  rewrite !sort_lift.
  pose proof (sort_desc_length (c0 :: C0)) as Hlen.
  destruct (sort_desc (c0 :: C0)) as [|c C1]; [discriminate|]. simpl.
  rewrite last_opt_map.
  destruct (last_opt (sort_desc W)) as [f|]; [|reflexivity]. simpl.
  rewrite length_map.
  destruct (_ && _); [reflexivity|].
  destruct (map_get (c_id c) (nodes g)) as [cNode|]; [|reflexivity].
  destruct (nth_error (n_neighbors cNode) level) as [ids|]; [|reflexivity].
  change {| s_id := c_id f; s_score := Num (c_score f) |} with (lift f).
  rewrite js_visitNeighbors_agrees.
  destruct (visitNeighbors g query ef f ids v C1 (sort_desc W))
    as [[[v' C'] W']| |]; simpl; auto.
Qed.

Lemma js_searchLayer_agrees g query entry ef level :
  Js.searchLayer g query entry ef level =
  outcome_map (map lift) (searchLayer g query entry ef level).
Proof.
  unfold Js.searchLayer, searchLayer. cbv zeta. rewrite !sim_dist.
  apply (js_searchLayer_loop_agrees g query ef level (fuel_of g) [n_id entry]
           [{| c_id := n_id entry; c_score := dist query (n_vector entry) |}]
           [{| c_id := n_id entry; c_score := dist query (n_vector entry) |}]).
Qed.

(** [search] with scores that may be [NaN] is [search] where none is. *)
Lemma js_search_agrees g query k :
  Js.search g query k = outcome_map (map lift) (search g query k).
Proof.
  unfold Js.search, search.
  destruct (entryPointId g) as [ep|]; [|reflexivity].
  destruct (map_get ep (nodes g)) as [cur|]; [|reflexivity].
  cbv zeta. rewrite !sim_dist, js_descend_agrees.
  destruct (descend _ _ _ _ _ _) as [[cur' d']| |]; simpl; auto.
  rewrite js_searchLayer_agrees.
  destruct (searchLayer _ _ _ _ _) as [W| |]; simpl; auto.
  now rewrite firstn_map.
Qed.

Lemma js_neighborCandidates_agrees g nb ids :
  Js.neighborCandidates g nb ids =
  outcome_map (map lift) (neighborCandidates g nb ids).
Proof.
  induction ids as [|x rest IH]; simpl; [reflexivity|].
  destruct (map_get x (nodes g)) as [n|]; [|reflexivity].
  rewrite IH, !sim_dist.
  destruct (neighborCandidates g nb rest); reflexivity.
Qed.

Lemma js_connectNeighbors_agrees id l neighbors :
  forall g touched,
    Js.connectNeighbors g id l (map lift neighbors) touched =
    connectNeighbors g id l neighbors touched.
Proof.
  induction neighbors as [|nb rest IH]; intros g touched; simpl;
    [reflexivity|].
  destruct (map_get (c_id nb) (nodes g)) as [n|]; [|reflexivity].
  destruct (nth_error (n_neighbors n) l) as [ids|]; [|reflexivity].
  destruct (M g <? _); [|apply IH].
  rewrite js_neighborCandidates_agrees.
  match goal with |- context [neighborCandidates ?a ?b ?c] =>
    destruct (neighborCandidates a b c) as [cs| |] end; simpl; auto.
  rewrite js_selectNeighbors_agrees, map_s_id_lift. apply IH.
Qed.

Lemma js_connectLayers_agrees id fv n :
  forall g cur touched,
    Js.connectLayers n g id fv cur touched =
    connectLayers n g id fv cur touched.
Proof.
  induction n as [|l IH]; intros g cur touched; simpl; [reflexivity|].
  destruct cur as [entry|]; [|reflexivity].
  rewrite js_searchLayer_agrees.
  destruct (searchLayer g fv entry (efConstruction g) l) as [W| |]; simpl;
    auto.
  rewrite sort_lift, firstn_map, map_s_id_lift, js_connectNeighbors_agrees.
  match goal with |- context [connectNeighbors ?a ?b ?c ?d ?t] =>
    destruct (connectNeighbors a b c d t) as [[t1| |] g2] end; auto.
  destruct (sort_desc W) as [|w0 rest]; simpl; apply IH.
Qed.

(** [addPoint] with scores that may be [NaN] is [addPoint] where none is. *)
Lemma js_addPoint_agrees coin g id vector :
  Js.addPoint coin g id vector = addPoint coin g id vector.
Proof.
  unfold Js.addPoint, addPoint.
  destruct (map_has id (nodes g)); [reflexivity|].
  cbv zeta.
  destruct (entryPointId _) as [ep|]; [|reflexivity].
  destruct (map_get ep _) as [cur|]; [|reflexivity].
  remember (S (Nat.min _ _)) as n eqn:Hn. clear Hn.
  cbv zeta. rewrite !sim_dist, js_descend_agrees.
  destruct (descend _ _ _ _ _ _) as [[cur' d']| |];
    cbn [outcome_map fst snd]; auto.
  now rewrite js_connectLayers_agrees.
Qed.

End Agreement.


End JsFacts.

(** ** The indexer facade and the migration *)

Section FacadeFacts.
Context {num : Numeric}.
Variable Metadata : Type.
Variable embedBatch : list string -> option (list (list float64)).

Local Abbreviation VectorDocument := (VectorDocument Metadata).
Local Abbreviation Vectoria := (Vectoria Metadata).

Implicit Types (x : Vectoria) (docs batch : list VectorDocument).

Lemma reembed_length idx embs batch :
  length (reembed idx embs batch) = length batch.
Proof.
  revert idx. induction batch as [|doc rest IH]; intros idx; simpl; auto.
Qed.

Lemma reembed_ids idx embs batch :
  map (@d_id _ _) (reembed idx embs batch) = map (@d_id _ _) batch.
Proof.
  revert idx. induction batch as [|doc rest IH]; intros idx; simpl; auto.
  now rewrite IH.
Qed.

Lemma reembed_nth embs batch :
  forall idx k doc,
    nth_error batch k = Some doc ->
    nth_error (reembed idx embs batch) k =
    Some {| d_id := d_id doc; d_text := d_text doc;
            d_metadata := d_metadata doc;
            d_embedding := nth_error embs (idx + k);
            d_createdAt := d_createdAt doc |}.
Proof.
  induction batch as [|d rest IH]; intros idx [|k] doc H; simpl in *;
    try discriminate.
  - injection H as <-. now rewrite Nat.add_0_r.
  - rewrite (IH (S idx) k doc H). do 3 f_equal. lia.
Qed.

Lemma put_other (docs : list VectorDocument) :
  forall (m : JsMap VectorDocument) k,
    ~ In k (map (@d_id _ _) docs) ->
    map_get k (fold_left (fun m doc => map_set (d_id doc) doc m) docs m) =
    map_get k m.
Proof.
  induction docs as [|doc rest IH]; intros m k Hk; simpl in *; auto.
  rewrite IH by tauto. apply map_get_set_ne. tauto.
Qed.

Lemma put_get (docs : list VectorDocument) :
  forall (m : JsMap VectorDocument) u,
    NoDup (map (@d_id _ _) docs) -> In u docs ->
    map_get (d_id u) (fold_left (fun m doc => map_set (d_id doc) doc m) docs m)
    = Some u.
Proof.
  induction docs as [|doc rest IH]; intros m u Hnd Hin; simpl in *; [tauto|].
  inversion Hnd as [|? ? Hnin Hnd']; subst.
  destruct Hin as [->|Hin].
  - rewrite put_other by assumption. apply map_get_set_eq.
  - now apply IH.
Qed.

Lemma saveIndex_documents touched x :
  documents (db (saveIndex touched x)) = documents (db x).
Proof.
  unfold saveIndex. simpl. destruct (flat_map _ _); reflexivity.
Qed.

Lemma init_documents x : documents (db (init x)) = documents (db x).
Proof.
  unfold init. destruct (initialized x); auto. destruct (meta (db x)); auto.
Qed.

(** What a call of [indexDocuments] that returns has written. *)
Lemma indexDocuments_documents coins docs x x' :
  indexDocuments coins docs x = (Return tt, x') ->
  documents (db x') =
  fold_left (fun m doc => map_set (d_id doc) doc m) docs (documents (db x)).
Proof.
  unfold indexDocuments. intros H.
  destruct (addPoints coins 0 docs (index (init x)) []) as [[t|e|] g];
    try discriminate.
  injection H as <-. rewrite saveIndex_documents. simpl.
  now rewrite init_documents.
Qed.

(** C8. Every record a migration batch writes back carries the id, text,
    metadata and creation time of the document it replaces, with the new
    embedding: the updated list differs from the batch in [embedding]
    only, and [indexDocuments] puts its records into the document store as
    they are. *)
Theorem migration_batch_preserves_fields coins newEmbeddings batch x x' idx doc :
  NoDup (map (@d_id _ _) batch) ->
  indexDocuments coins (reembed 0 newEmbeddings batch) x = (Return tt, x') ->
  nth_error batch idx = Some doc ->
  exists updated,
    nth_error (reembed 0 newEmbeddings batch) idx = Some updated /\
    map_get (d_id doc) (documents (db x')) = Some updated /\
    d_id updated = d_id doc /\
    d_text updated = d_text doc /\
    d_metadata updated = d_metadata doc /\
    d_createdAt updated = d_createdAt doc /\
    d_embedding updated = nth_error newEmbeddings idx.
Proof.
  intros Hnd Hidx Hnth.
  pose proof (reembed_nth newEmbeddings batch 0 idx Hnth) as Hu. simpl in Hu.
  eexists. split; [exact Hu|].
  split; [|simpl; auto 10].
  rewrite (indexDocuments_documents _ _ _ Hidx).
  match goal with |- map_get ?k _ = Some ?u =>
    change k with (d_id u) end.
  apply put_get.
  - now rewrite reembed_ids.
  - eapply nth_error_In; eauto.
Qed.

(** *** A call of [indexDocuments] on new ids returns *)

Lemma addPoint_keys coin (g : HNSWIndex) id vector touched g' :
  addPoint coin g id vector = (Return touched, g') ->
  map_keys (nodes g') = map_keys (nodes g) ++ [id].
Proof.
  intros H. apply addPoint_returns in H. destruct H as (_ & Hsk & _).
  apply (f_equal (@map_keys _)) in Hsk.
  rewrite skeleton_keys in Hsk. rewrite Hsk.
  unfold map_keys. rewrite map_app. simpl. f_equal. apply skeleton_keys.
Qed.

Lemma addPoints_ok coins docs :
  forall pos (g : HNSWIndex) acc,
    well_formed g -> NoDup (map (@d_id _ _) docs) ->
    (forall k, In k (map (@d_id _ _) docs) -> ~ In k (map_keys (nodes g))) ->
    exists touched g',
      addPoints coins pos docs g acc = (Return touched, g') /\
      well_formed g' /\
      incl (map_keys (nodes g')) (map_keys (nodes g) ++ map (@d_id _ _) docs).
Proof.
  induction docs as [|doc rest IH]; intros pos g acc Hwf Hnd Hfresh; simpl.
  - exists acc, g. split; [reflexivity|]. split; [assumption|].
    apply incl_appl, incl_refl.
  - simpl in Hnd. inversion Hnd as [|? ? Hnin Hnd']; subst.
    destruct (d_embedding doc) as [emb|].
    + destruct (@addPoint_wf _ (coins pos) g (d_id doc) emb Hwf)
        as (t & g1 & E & Hwf1).
      { apply map_has_false, map_get_None. apply Hfresh. now left. }
      rewrite E. pose proof (addPoint_keys _ _ _ _ E) as Hk.
      destruct (IH (S pos) g1
                  (fold_left (fun s id => set_add id s) t acc) Hwf1 Hnd')
        as (t' & g' & E' & Hwf' & Hincl).
      { intros k Hin. rewrite Hk. intros Hk'. apply in_app_or in Hk'.
        destruct Hk' as [Hk'|[<-|[]]]; [|contradiction].
        apply (Hfresh k); simpl; auto. }
      exists t', g'. split; [exact E'|]. split; [exact Hwf'|].
      intros k Hin. apply Hincl in Hin. rewrite Hk in Hin.
      rewrite <- app_assoc in Hin. exact Hin.
    + destruct (IH (S pos) g acc Hwf Hnd') as (t' & g' & E' & Hwf' & Hincl).
      { intros k Hin. apply Hfresh. now right. }
      exists t', g'. split; [exact E'|]. split; [exact Hwf'|].
      intros k Hin. apply Hincl in Hin. apply in_app_or in Hin.
      apply in_or_app. simpl. tauto.
Qed.

Lemma init_loaded x :
  initialized x = true \/ meta (db x) = None ->
  init x = {| db := db x; index := index x; initialized := true |}.
Proof.
  unfold init. intros [H|H].
  - rewrite H. destruct x; simpl in *. now subst.
  - destruct (initialized x) eqn:E.
    + destruct x; simpl in *. now subst.
    + now rewrite H.
Qed.

Lemma saveIndex_index touched x : index (saveIndex touched x) = index x.
Proof. reflexivity. Qed.

Lemma saveIndex_initialized touched x :
  initialized (saveIndex touched x) = initialized x.
Proof. reflexivity. Qed.


(** *** The document store across a batch *)

Lemma put_keys (docs : list VectorDocument) :
  forall m : JsMap VectorDocument,
    (forall d, In d docs -> In (d_id d) (map_keys m)) ->
    map_keys (fold_left (fun m doc => map_set (d_id doc) doc m) docs m) =
    map_keys m.
Proof.
  induction docs as [|doc rest IH]; intros m H; simpl; auto.
  rewrite IH.
  - apply map_keys_set_old. apply H. now left.
  - intros d Hd. rewrite map_keys_set_old; apply H; simpl; auto.
Qed.



(** *** One iteration of the migration loop *)









(** *** The loop, stopped and not stopped *)


Section Loop.
Variable stops : nat -> bool.
Variable coins : nat -> nat -> nat -> bool.
Variable B : nat.
Variable allDocs : list VectorDocument.
Hypothesis B_pos : 0 < B.
Hypothesis embedder_total : forall texts, embedBatch texts <> None.
Hypothesis ids_NoDup : NoDup (map (@d_id _ _) allDocs).



End Loop.

(** *** [start] *)







Lemma store_ok_of_docs docs (s : VectorStore Metadata) g b :
  NoDup (map (@d_id _ _) docs) ->
  documents s = map (fun d => (d_id d, d)) docs ->
  store_ok {| db := s; index := g; initialized := b |}.
Proof.
  intros Hnd Hs. unfold store_ok. simpl. rewrite Hs.
  assert (Hk : map_keys (map (fun d : VectorDocument => (d_id d, d)) docs) =
               map (@d_id _ _) docs).
  { unfold map_keys. rewrite map_map. reflexivity. }
  split; [now rewrite Hk|].
  intros k d H. apply map_get_In in H. apply in_map_iff in H.
  destruct H as (d' & E & _). injection E as Hk' Hd. now subst.
Qed.

End FacadeFacts.


(** ** More about the engine *)

Section EngineMore.
Context {num : Numeric}.

Implicit Types (g : HNSWIndex) (v : list string) (C W : list Cand).

(** *** Levels *)

Lemma getRandomLevel_loop_spec coin :
  forall n level,
    level <= 16 ->
    let r := getRandomLevel_loop n coin level in
    level <= r /\ r <= 16 /\
    (forall i, level <= i -> i < r -> coin i = true) /\
    (r < 16 -> r - level < n -> coin r = false).
Proof.
  induction n as [|n IH]; intros level Hl; simpl.
  - repeat split; auto; intros; lia.
  - destruct (coin level) eqn:Ec; simpl.
    + destruct (level <? 16) eqn:El.
      * apply Nat.ltb_lt in El.
        destruct (IH (S level)) as (H1 & H2 & H3 & H4); [lia|].
        repeat split; try lia.
        -- intros i Hi1 Hi2. destruct (Nat.eq_dec i level) as [->|Hne]; auto.
           apply H3; lia.
        -- intros Hr Hn. apply H4; lia.
      * apply Nat.ltb_ge in El. repeat split; auto; intros; lia.
    + repeat split; auto; intros; lia.
Qed.

(** The level drawn for a new node is the number of leading draws that
    fell below the multiplier, capped at 16. *)
Theorem getRandomLevel_spec coin :
  getRandomLevel coin <= 16 /\
  (forall i, i < getRandomLevel coin -> coin i = true) /\
  (getRandomLevel coin < 16 -> coin (getRandomLevel coin) = false).
Proof.
  destruct (@getRandomLevel_loop_spec coin 17 0) as (H1 & H2 & H3 & H4); [lia|].
  fold (getRandomLevel coin) in *. repeat split; auto.
  - intros i Hi. apply H3; lia.
  - intros Hr. apply H4; lia.
Qed.

(** *** Outcomes of [addPoint] *)

Lemma addPoint_throws coin g id vector e :
  fst (addPoint coin g id vector) = Throw e ->
  (e = DuplicateId id /\ map_has id (nodes g) = true) \/
  (e = TypeError /\ map_has id (nodes g) = false).
Proof.
  intros E. unfold addPoint in E.
  destruct (map_has id (nodes g)) eqn:Hhas.
  - left. simpl in E. split; congruence.
  - right. split; [|reflexivity].
    remember (S (Nat.min _ _)) as n eqn:Hn in E. clear Hn. simpl in E.
    destruct (entryPointId g) as [ep|]; [|discriminate].
    destruct (map_get ep _) as [cur|]; [|simpl in E; congruence].
    destruct (descend _ _ _ _ _ _) as [[cur' d']| |] eqn:Ed; simpl in E;
      try discriminate.
    + match type of E with context [connectLayers ?n ?a ?b ?c ?d ?t] =>
        pose proof (@connectLayers_only_TypeError _ b c n a d t) as HT;
        destruct (connectLayers n a b c d t) as [[t1| |] g2] end;
        simpl in E; try discriminate.
      apply HT. simpl. congruence.
    + apply descend_only_TypeError in Ed. congruence.
Qed.

(** On every graph, well formed or not, [addPoint] ends: it returns,
    rejects the id as a duplicate (exactly when the id is a key), or dies
    of a [TypeError]; the two [while] loops never exhaust their fuel. *)
Theorem addPoint_outcomes coin g id vector :
  (exists touched, fst (addPoint coin g id vector) = Return touched) \/
  (fst (addPoint coin g id vector) = Throw (DuplicateId id) /\
   map_has id (nodes g) = true) \/
  (fst (addPoint coin g id vector) = Throw TypeError /\
   map_has id (nodes g) = false).
Proof.
  pose proof (addPoint_fuel coin g id vector) as Hf.
  destruct (fst (addPoint coin g id vector)) as [t|e|] eqn:E.
  - left. eauto.
  - right. destruct (addPoint_throws _ _ _ _ E) as [[-> H]|[-> H]]; auto.
  - contradiction.
Qed.

(** *** Neighbor selection *)


(** *** What [search] returns *)

Lemma removelast_ids_NoDup cs :
  NoDup (map c_id cs) -> NoDup (map c_id (removelast cs)).
Proof.
  intros H. rewrite removelast_firstn_len.
  rewrite <- (firstn_skipn (Nat.pred (length cs)) cs), map_app in H.
  now apply NoDup_app_remove_r in H.
Qed.

Lemma sort_desc_ids_NoDup cs :
  NoDup (map c_id cs) -> NoDup (map c_id (sort_desc cs)).
Proof.
  apply Permutation_NoDup, Permutation_map, sort_desc_perm.
Qed.

Lemma visitNeighbors_sound g query ef f neighbors :
  forall v C W v' C' W',
    Forall (scored g query) W -> NoDup (map c_id W) ->
    incl (map c_id W) v -> length W <= Nat.max 1 ef ->
    visitNeighbors g query ef f neighbors v C W = Return (v', C', W') ->
    Forall (scored g query) W' /\ NoDup (map c_id W') /\
    incl (map c_id W') v' /\ length W' <= Nat.max 1 ef.
Proof.
  induction neighbors as [|x rest IH];
    intros v C W v' C' W' Hsc Hnd Hin Hlen H; simpl in H.
  - injection H as <- <- <-. auto.
  - destruct (set_has x v) eqn:Hv; [eauto|].
    apply set_has_false in Hv.
    destruct (map_get x (nodes g)) as [nb|] eqn:E; [|discriminate].
    assert (Hin1 : incl (map c_id W) (set_add x v)).
    { intros y Hy. apply set_add_In. right. auto. }
    destruct (_ || _) eqn:Hpush; [|eauto].
    set (e := {| c_id := x; c_score := dist query (n_vector nb) |}) in *.
    assert (Hsc1 : Forall (scored g query) (sort_desc (W ++ [e]))).
    { eapply Permutation_Forall; [apply sort_desc_perm|].
      apply Forall_app. split; auto. constructor; [|constructor].
      exists nb. split; auto. }
    assert (Hnd1 : NoDup (map c_id (sort_desc (W ++ [e])))).
    { apply sort_desc_ids_NoDup. rewrite map_app. simpl.
      apply NoDup_app; auto.
      - constructor; [tauto|constructor].
      - intros y Hy [<-|[]]. apply Hv. auto. }
    assert (Hin2 : incl (map c_id (sort_desc (W ++ [e]))) (set_add x v)).
    { intros y Hy. apply (proj1 (sort_desc_ids _ _)) in Hy.
      rewrite map_app in Hy.
      apply in_app_or in Hy. apply set_add_In.
      destruct Hy as [Hy|[<-|[]]]; auto. }
    eapply IH; [| | | |exact H].
    + destruct (ef <? _); auto.
      rewrite Forall_forall in *. intros c Hc. apply Hsc1.
      now apply In_removelast.
    + destruct (ef <? _); auto. now apply removelast_ids_NoDup.
    + destruct (ef <? _); auto.
      intros y Hy. apply Hin2. apply in_map_iff in Hy.
      destruct Hy as (c & <- & Hc). apply in_map. now apply In_removelast.
    + destruct (ef <? length (sort_desc (W ++ [e]))) eqn:Hev.
      * rewrite removelast_firstn_len, length_firstn, sort_desc_length,
          length_app. cbn [length]. lia.
      * apply Nat.ltb_ge in Hev. lia.
Qed.

Lemma searchLayer_loop_sound g query ef level fuel :
  forall v C W R,
    Forall (scored g query) W -> NoDup (map c_id W) ->
    incl (map c_id W) v -> length W <= Nat.max 1 ef ->
    searchLayer_loop fuel g query ef level v C W = Return R ->
    Forall (scored g query) R /\ NoDup (map c_id R) /\
    length R <= Nat.max 1 ef.
Proof.
  induction fuel as [|fuel IH]; intros v C W R Hsc Hnd Hin Hlen H; simpl in H;
    [discriminate|].
  assert (Hsc' : Forall (scored g query) (sort_desc W))
    by (eapply Permutation_Forall; [apply sort_desc_perm|exact Hsc]).
  assert (Hnd' : NoDup (map c_id (sort_desc W)))
    by now apply sort_desc_ids_NoDup.
  assert (Hlen' : length (sort_desc W) <= Nat.max 1 ef)
    by now rewrite sort_desc_length.
  destruct (sort_desc C) as [|c C1]; [injection H as <-; auto|].
  destruct (last_opt (sort_desc W)) as [f|]; [|discriminate].
  destruct (_ && _); [injection H as <-; auto|].
  destruct (map_get (c_id c) (nodes g)) as [cNode|]; [|discriminate].
  destruct (nth_error (n_neighbors cNode) level) as [ids|]; [|discriminate].
  destruct (visitNeighbors g query ef f ids v C1 (sort_desc W))
    as [[[v' C'] W']| |] eqn:E; simpl in H; try discriminate.
  assert (Hin' : incl (map c_id (sort_desc W)) v).
  { intros y Hy. apply Hin. now apply (proj1 (sort_desc_ids _ _)). }
  destruct (@visitNeighbors_sound g query ef f ids v C1 (sort_desc W) v' C' W'
              Hsc' Hnd' Hin' Hlen' E) as (H1 & H2 & H3 & H4).
  exact (IH _ _ _ _ H1 H2 H3 H4 H).
Qed.

(** Every result of [search] on a well-formed graph is a stored node with
    its similarity to the query as score, no node is returned twice, and
    there are at most [k] and at most [max 1 efSearch] results. *)
Theorem search_results_sound g query k res :
  well_formed g ->
  search g query k = Return res ->
  Forall (scored g (map fround query)) res /\
  NoDup (map c_id res) /\
  length res <= Nat.min k (Nat.max 1 (efSearch g)).
Proof.
  intros Hwf H. unfold search in H.
  destruct (entryPointId g) as [ep|] eqn:Hep.
  - destruct (has_layer_stored (wf_entry Hwf Hep)) as (cur & Hcur & Hst).
    rewrite Hcur in H.
    destruct (@descend_wf _ g (map fround query) 0 (maxLevel g) Hwf cur
                (dist (map fround query) (n_vector cur)) Hst)
      as (cur' & d' & Ed & Hst').
    rewrite Ed in H. simpl in H.
    destruct (searchLayer g (map fround query) cur' (efSearch g) 0)
      as [W| |] eqn:EW; try discriminate.
    simpl in H. injection H as <-.
    unfold searchLayer in EW. apply searchLayer_loop_sound in EW.
    + destruct EW as (H1 & H2 & H3). split; [|split].
      * rewrite Forall_forall in *. intros c Hc. apply H1.
        rewrite <- (firstn_skipn k W). apply in_or_app. now left.
      * rewrite <- (firstn_skipn k W), map_app in H2.
        now apply NoDup_app_remove_r in H2.
      * rewrite length_firstn. lia.
    + constructor; [|constructor]. exists cur'. split; auto.
      destruct Hst' as [[key Hkey] _]. unfold getNode. simpl.
      now rewrite (wf_ids Hwf _ Hkey).
    + simpl. constructor; [tauto|constructor].
    + intros y Hy. exact Hy.
    + cbn [length]. lia.
  - injection H as <-. split; [constructor|]. split; [constructor|].
    cbn [length]. lia.
Qed.

(** *** The set of touched ids *)

Lemma ids_ok_set_layer g key n l ids :
  ids_ok g -> map_get key (nodes g) = Some n ->
  ids_ok (with_nodes g (map_set key (set_layer l ids n) (nodes g))).
Proof.
  intros Hok Hkey k m Hm. simpl in Hm. rewrite map_get_set in Hm.
  destruct (String.eqb key k) eqn:E.
  - apply String.eqb_eq in E. subst k. injection Hm as <-. simpl. auto.
  - auto.
Qed.

Lemma set_add_prefix x s : exists ext, set_add x s = s ++ ext.
Proof.
  unfold set_add. destruct (set_has x s).
  - exists []. now rewrite app_nil_r.
  - now exists [x].
Qed.

Lemma connectNeighbors_touched id l neighbors :
  forall g touched touched' g',
    ids_ok g ->
    connectNeighbors g id l neighbors touched = (Return touched', g') ->
    (exists ext, touched' = touched ++ ext) /\
    (NoDup touched -> NoDup touched') /\
    (forall k, In k touched' ->
       In k touched \/ In k (map_keys (nodes g))) /\
    (forall k, ~ In k touched' ->
       map_get k (nodes g') = map_get k (nodes g)) /\
    map_keys (nodes g') = map_keys (nodes g) /\
    ids_ok g'.
Proof.
  induction neighbors as [|nb rest IH]; intros g touched touched' g' Hok H;
    simpl in H.
  - injection H as <- <-. repeat split; auto.
    exists []. now rewrite app_nil_r.
  - destruct (map_get (c_id nb) (nodes g)) as [n|] eqn:E; [|discriminate].
    destruct (nth_error (n_neighbors n) l) as [ids|]; [|discriminate].
    pose proof (Hok _ _ E) as Hid.
    pose proof (@ids_ok_set_layer g (c_id nb) n l (ids ++ [id]) Hok E) as Hok1.
    assert (Hkey : In (c_id nb) (map_keys (nodes g)))
      by (eapply map_get_key; eauto).
    assert (Hstep :
      forall g2,
        ids_ok g2 -> map_keys (nodes g2) = map_keys (nodes g) ->
        (forall k, k <> c_id nb -> map_get k (nodes g2) = map_get k (nodes g)) ->
        connectNeighbors g2 id l rest (set_add (n_id n) touched)
          = (Return touched', g') ->
        (exists ext, touched' = touched ++ ext) /\
        (NoDup touched -> NoDup touched') /\
        (forall k, In k touched' ->
           In k touched \/ In k (map_keys (nodes g))) /\
        (forall k, ~ In k touched' ->
           map_get k (nodes g') = map_get k (nodes g)) /\
        map_keys (nodes g') = map_keys (nodes g) /\
        ids_ok g').
    { intros g2 Hok2 Hk2 Hsame H2.
      destruct (IH _ _ _ _ Hok2 H2) as ([ext Hext] & Hnd & Hsrc & Hframe & Hk & Hok').
      destruct (set_add_prefix (n_id n) touched) as [ext0 Hext0].
      split; [|split; [|split; [|split; [|split]]]]; auto.
      - exists (ext0 ++ ext). rewrite Hext, Hext0. now rewrite app_assoc.
      - intros Hn. apply Hnd. now apply set_add_NoDup.
      - intros k Hkin. destruct (Hsrc k Hkin) as [Hs|Hs].
        + apply set_add_In in Hs. destruct Hs as [->|Hs]; auto.
          right. now rewrite Hid.
        + right. now rewrite <- Hk2.
      - intros k Hkn. rewrite (Hframe k Hkn). apply Hsame.
        intros ->. apply Hkn. rewrite Hext. apply in_or_app. left.
        apply set_add_In. left. auto.
      - now rewrite Hk, Hk2. }
    destruct (M g <? _).
    + match type of H with context [neighborCandidates ?a ?b ?c] =>
        destruct (neighborCandidates a b c) as [cs| |] end;
        try discriminate.
      eapply Hstep; [| | |exact H].
      * apply ids_ok_set_layer; auto. simpl. apply map_get_set_eq.
      * simpl. rewrite !map_keys_set_old; auto.
        rewrite map_keys_set_old; auto.
      * intros k Hne. simpl. rewrite !map_get_set_ne; auto.
    + eapply Hstep; [| | |exact H]; auto.
      * simpl. now rewrite map_keys_set_old.
      * intros k Hne. simpl. rewrite map_get_set_ne; auto.
Qed.

Lemma connectLayers_touched id fv n :
  forall g cur touched touched' g',
    ids_ok g -> In id touched ->
    connectLayers n g id fv cur touched = (Return touched', g') ->
    (exists ext, touched' = touched ++ ext) /\
    (NoDup touched -> NoDup touched') /\
    (forall k, In k touched' ->
       In k touched \/ In k (map_keys (nodes g))) /\
    (forall k, ~ In k touched' ->
       map_get k (nodes g') = map_get k (nodes g)) /\
    map_keys (nodes g') = map_keys (nodes g) /\
    ids_ok g'.
Proof.
  induction n as [|l IH]; intros g cur touched touched' g' Hok Hid H;
    simpl in H.
  - injection H as <- <-. repeat split; auto.
    exists []. now rewrite app_nil_r.
  - destruct cur as [entry|]; [|discriminate].
    destruct (searchLayer g fv entry (efConstruction g) l) as [W| |];
      try discriminate.
    set (sel := map c_id (firstn (M g) (sort_desc W))) in *.
    assert (Hmut : ids_ok (with_nodes g (mutate id (set_layer l sel) (nodes g)))
                   /\ map_keys (mutate id (set_layer l sel) (nodes g)) =
                      map_keys (nodes g)
                   /\ forall k, k <> id ->
                        map_get k (mutate id (set_layer l sel) (nodes g)) =
                        map_get k (nodes g)).
    { unfold mutate. destruct (map_get id (nodes g)) as [nn|] eqn:E.
      - split; [now apply ids_ok_set_layer|]. split.
        + apply map_keys_set_old. eapply map_get_key; eauto.
        + intros k Hne. now apply map_get_set_ne.
      - split; [exact Hok|split]; auto. }
    destruct Hmut as (Hok1 & Hk1 & Hsame1).
    match type of H with context [connectNeighbors ?a ?b ?c ?d ?t] =>
      destruct (connectNeighbors a b c d t) as [[t1| |] g2] eqn:EN end;
      try discriminate.
    apply connectNeighbors_touched in EN; [|exact Hok1].
    destruct EN as ([ext1 Hext1] & Hnd1 & Hsrc1 & Hframe1 & Hkeys1 & Hok2).
    assert (Hid1 : In id t1) by (rewrite Hext1; apply in_or_app; now left).
    destruct (IH _ _ _ _ _ Hok2 Hid1 H)
      as ([ext2 Hext2] & Hnd2 & Hsrc2 & Hframe2 & Hkeys2 & Hok').
    simpl in Hkeys1, Hsrc1, Hframe1.
    split; [|split; [|split; [|split; [|split]]]]; auto.
    + exists (ext1 ++ ext2). rewrite Hext2, Hext1. now rewrite app_assoc.
    + intros k Hk. destruct (Hsrc2 k Hk) as [Hs|Hs].
      * destruct (Hsrc1 k Hs) as [Hs'|Hs']; auto. right. now rewrite <- Hk1.
      * right. now rewrite <- Hk1, <- Hkeys1.
    + intros k Hk. rewrite (Hframe2 k Hk).
      assert (Hk1' : ~ In k t1).
      { intros Hin. apply Hk. rewrite Hext2. apply in_or_app. now left. }
      rewrite (Hframe1 k Hk1'). apply Hsame1.
      intros ->. apply Hk1'. exact Hid1.
    + now rewrite Hkeys2, Hkeys1.
Qed.

Lemma touched_frame coin g id vector touched g' :
  ids_ok g ->
  addPoint coin g id vector = (Return touched, g') ->
  (exists rest, touched = id :: rest) /\
  NoDup touched /\
  (forall k, In k touched -> In k (map_keys (nodes g'))) /\
  (forall k, ~ In k touched -> getNode g' k = getNode g k) /\
  ids_ok g'.
Proof.
  intros Hok H. pose proof (addPoint_keys _ _ _ _ H) as Hkeys.
  unfold addPoint in H.
  destruct (map_has id (nodes g)) eqn:Hhas; [discriminate|].
  apply map_has_false in Hhas.
  remember (S (Nat.min _ _)) as n eqn:Hn in H. clear Hn.
  set (newNode := {| n_id := id; n_vector := map fround vector;
                     n_level := getRandomLevel coin;
                     n_neighbors := repeat [] (getRandomLevel coin + 1) |}) in *.
  assert (Hok1 : ids_ok (with_nodes g (map_set id newNode (nodes g)))).
  { intros k m Hm. simpl in Hm. rewrite map_get_set in Hm.
    destruct (String.eqb id k) eqn:E.
    - injection Hm as <-. simpl. now apply String.eqb_eq.
    - eauto. }
  simpl in H.
  destruct (entryPointId g) as [ep|].
  - destruct (map_get ep _) as [cur|]; [|discriminate].
    destruct (descend _ _ _ _ _ _) as [[cur' d']| |]; try discriminate.
    match type of H with context [connectLayers ?n ?a ?b ?c ?d ?t] =>
      destruct (connectLayers n a b c d t) as [[t1| |] g2] eqn:EL end;
      try discriminate.
    apply connectLayers_touched in EL; [|exact Hok1|now left].
    destruct EL as ([ext Hext] & Hnd & Hsrc & Hframe & Hk & Hok2).
    injection H as <- <-. simpl in Hk, Hsrc, Hframe.
    assert (Hn' : forall k, map_get k
                    (nodes (if maxLevel g2 <? getRandomLevel coin
                            then with_entry g2 (Some id) (getRandomLevel coin)
                            else g2)) = map_get k (nodes g2))
      by (intros k; destruct (_ <? _); reflexivity).
    split; [|split; [|split; [|split]]].
    + exists ext. exact Hext.
    + apply Hnd. constructor; [tauto|constructor].
    + intros k Hin. rewrite Hkeys.
      destruct (Hsrc k Hin) as [[<-|[]]|Hs].
      * apply in_or_app. right. now left.
      * rewrite map_keys_set_new in Hs; auto. now apply map_get_None.
    + intros k Hnin. unfold getNode. rewrite Hn', (Hframe k Hnin).
      apply map_get_set_ne. intros ->. apply Hnin. rewrite Hext. now left.
    + intros k m Hm. rewrite Hn' in Hm. exact (Hok2 k m Hm).
  - injection H as <- <-. simpl. split; [|split; [|split; [|split]]].
    + now exists [].
    + constructor; [tauto|constructor].
    + intros k [<-|[]]. rewrite map_keys_set_new by now apply map_get_None.
      apply in_or_app. right. now left.
    + intros k Hnin. unfold getNode. simpl. apply map_get_set_ne.
      intros ->. apply Hnin. now left.
    + exact Hok1.
Qed.

(** The set [addPoint] returns starts with the new id, names no id twice
    and names keys of the node map only; every node whose neighbor lists
    the call changed is in it: a key that is not touched holds the node it
    held before. The nodes must be stored under their own ids. *)
Theorem addPoint_touched coin g id vector touched g' :
  ids_ok g ->
  addPoint coin g id vector = (Return touched, g') ->
  (exists rest, touched = id :: rest) /\
  NoDup touched /\
  (forall k, In k touched -> In k (map_keys (nodes g'))) /\
  (forall k, ~ In k touched -> getNode g' k = getNode g k).
Proof.
  intros Hok H.
  destruct (touched_frame _ _ _ Hok H) as (H1 & H2 & H3 & H4 & _).
  auto.
Qed.

(** *** What a call leaves of the stored nodes *)

Lemma shape_set_layer l ids (n : Node) : shape (set_layer l ids n) = shape n.
Proof. unfold shape, set_layer. simpl. now rewrite length_list_set. Qed.

Lemma shape_map_set key (n n1 : Node) (m : JsMap Node) k :
  map_get key m = Some n -> shape n1 = shape n ->
  option_map shape (map_get k (map_set key n1 m)) =
  option_map shape (map_get k m).
Proof.
  intros Hk Hs. rewrite map_get_set. destruct (String.eqb key k) eqn:E; auto.
  apply String.eqb_eq in E. subst. rewrite Hk. simpl. now rewrite Hs.
Qed.

Lemma connectNeighbors_shape id l neighbors :
  forall g touched k,
    option_map shape
      (map_get k (nodes (snd (connectNeighbors g id l neighbors touched)))) =
    option_map shape (map_get k (nodes g)).
Proof.
  induction neighbors as [|nb rest IH]; intros g touched k; simpl.
  - reflexivity.
  - destruct (map_get (c_id nb) (nodes g)) as [n|] eqn:E; [|reflexivity].
    destruct (nth_error (n_neighbors n) l) as [ids|]; [|reflexivity].
    assert (F1 : option_map shape
                   (map_get k (map_set (c_id nb) (set_layer l (ids ++ [id]) n)
                                 (nodes g))) =
                 option_map shape (map_get k (nodes g))).
    { eapply shape_map_set; [exact E|apply shape_set_layer]. }
    destruct (M g <? _).
    + match goal with |- context [neighborCandidates ?a ?b ?c] =>
        destruct (neighborCandidates a b c) end; simpl; auto.
      rewrite IH. simpl. rewrite <- F1.
      eapply shape_map_set; [apply map_get_set_eq|].
      now rewrite !shape_set_layer.
    + rewrite IH. exact F1.
Qed.

Lemma connectLayers_shape id fv n :
  forall g cur touched k,
    option_map shape
      (map_get k (nodes (snd (connectLayers n g id fv cur touched)))) =
    option_map shape (map_get k (nodes g)).
Proof.
  induction n as [|l IH]; intros g cur touched k; simpl.
  - reflexivity.
  - destruct cur as [entry|]; [|reflexivity].
    destruct (searchLayer g fv entry (efConstruction g) l) as [W| |];
      try reflexivity.
    set (sel := map c_id (firstn (M g) (sort_desc W))).
    assert (F1 : option_map shape
                   (map_get k (mutate id (set_layer l sel) (nodes g))) =
                 option_map shape (map_get k (nodes g))).
    { unfold mutate. destruct (map_get id (nodes g)) as [nn|] eqn:E; auto.
      eapply shape_map_set; [exact E|apply shape_set_layer]. }
    match goal with |- context [connectNeighbors ?a ?b ?c ?d ?t] =>
      pose proof (connectNeighbors_shape b c d a t k) as F2;
      destruct (connectNeighbors a b c d t) as [[t1| |] g2] end;
      simpl in F2 |- *; rewrite ?IH, F2; exact F1.
Qed.

Lemma shape_kept coin g id vector k :
  map_has id (nodes g) = false ->
  option_map shape (getNode (snd (addPoint coin g id vector)) k) =
  if String.eqb id k
  then Some (id, map fround vector, getRandomLevel coin,
             getRandomLevel coin + 1)
  else option_map shape (getNode g k).
Proof.
  intros Hhas. unfold addPoint, getNode. rewrite Hhas.
  remember (S (Nat.min _ _)) as n eqn:Hn. clear Hn.
  set (newNode := {| n_id := id; n_vector := map fround vector;
                     n_level := getRandomLevel coin;
                     n_neighbors := repeat [] (getRandomLevel coin + 1) |}).
  assert (F0 : option_map shape (map_get k (map_set id newNode (nodes g))) =
               if String.eqb id k
               then Some (id, map fround vector, getRandomLevel coin,
                          getRandomLevel coin + 1)
               else option_map shape (map_get k (nodes g))).
  { rewrite map_get_set. destruct (String.eqb id k); auto.
    simpl. unfold shape. simpl. now rewrite repeat_length. }
  simpl.
  destruct (entryPointId g) as [ep|]; [|exact F0].
  destruct (map_get ep _) as [cur|]; [|exact F0].
  destruct (descend _ _ _ _ _ _) as [[cur' d']| |]; try exact F0.
  match goal with |- context [connectLayers ?n ?a ?b ?c ?d ?t] =>
    pose proof (connectLayers_shape b c n a d t k) as F1;
    destruct (connectLayers n a b c d t) as [[t1| |] g2] end;
    simpl in F1 |- *; try (rewrite F1; exact F0).
  destruct (maxLevel g2 <? getRandomLevel coin); simpl; rewrite F1; exact F0.
Qed.

(** A call of [addPoint] with an id that is not stored yet leaves, whatever
    its outcome, a node for the new id with the rounded vector, the drawn
    level and [level + 1] neighbor lists, and leaves id, vector, level and
    number of lists of every other node as they were: a call that throws
    after the node was stored is not undone. *)
Theorem addPoint_shape coin g id vector :
  map_has id (nodes g) = false ->
  let g' := snd (addPoint coin g id vector) in
  option_map shape (getNode g' id) =
    Some (id, map fround vector, getRandomLevel coin,
          getRandomLevel coin + 1) /\
  forall k, k <> id ->
    option_map shape (getNode g' k) = option_map shape (getNode g k).
Proof.
  intros Hhas g'. split.
  - unfold g'. rewrite shape_kept by assumption.
    now rewrite String.eqb_refl.
  - intros k Hne. unfold g'. rewrite shape_kept by assumption.
    destruct (String.eqb id k) eqn:E; [|reflexivity].
    apply String.eqb_eq in E. congruence.
Qed.

(** *** Loading a graph *)

Lemma find_snoc (A : Type) (p : A -> bool) (l : list A) (x : A) :
  find p (l ++ [x]) =
  match find p l with
  | Some y => Some y
  | None => if p x then Some x else None
  end.
Proof.
  induction l as [|y l IH]; simpl; [reflexivity|].
  destruct (p y); auto.
Qed.

Lemma fold_set_get (l : list JNode) :
  forall (acc : JsMap Node) k,
    map_get k
      (fold_left (fun ns nd => map_set (jn_id nd) (node_of_json nd) ns) l acc) =
    match find (fun nd => String.eqb (jn_id nd) k) (rev l) with
    | Some nd => Some (node_of_json nd)
    | None => map_get k acc
    end.
Proof.
  induction l as [|nd l IH]; intros acc k; simpl; [reflexivity|].
  rewrite IH, find_snoc.
  destruct (find _ (rev l)); [reflexivity|].
  rewrite map_get_set. now destruct (String.eqb (jn_id nd) k).
Qed.

(** [fromJSON] stores for an id the node of the last element of
    [json.nodes] with that id, and no node for an id that no element has:
    of two elements with one id the later one wins. *)
Theorem fromJSON_getNode json k :
  getNode (fromJSON json) k = option_map node_of_json (json_node json k).
Proof.
  unfold getNode, fromJSON, json_node. simpl nodes.
  change (nodes (with_entry _ _ _)) with (@nil (string * Node)).
  pose proof (fold_set_get (j_nodes json) [] k) as E.
  unfold node_of_json in E at 1. simpl in E |- *. rewrite E.
  destruct (find _ _); reflexivity.
Qed.

(** Deserializing and serializing again gives the JSON value back when its
    parameters are truthy, no two of its nodes share an id and its vector
    components are single-precision numbers. *)
Theorem fromJSON_roundtrip json :
  json_ok json -> toJSON (fromJSON json) = json.
Proof.
  intros (H1 & H2 & H3 & H4 & H5 & H6).
  assert (E : nodes (fromJSON json) =
              map (fun nd => (jn_id nd, node_of_json nd)) (j_nodes json)).
  { unfold fromJSON. simpl nodes.
    change (nodes (with_entry _ _ _)) with (@nil (string * Node)).
    apply (fold_set_fresh (j_nodes json) []). exact H5. }
  unfold toJSON. rewrite E. unfold fromJSON. cbn -[or_default].
  rewrite !or_default_some by assumption. rewrite H4.
  destruct json as [m efc efs lm ml ep ns]. simpl in *. f_equal.
  rewrite map_map. rewrite <- (map_id ns) at 2.
  apply map_ext_in. intros nd Hnd. rewrite Forall_forall in H6.
  specialize (H6 nd Hnd). destruct nd as [i v lv nb]. simpl in *.
  now rewrite H6.
Qed.

End EngineMore.

(** ** The stores and the facade *)

Section DocumentsFacts.
Context {num : Numeric}.
Variable Metadata : Type.
Variable embed : string -> option (list float64).
Variable embedBatch : list string -> option (list (list float64)).
Variable cosineSimilarity : list float64 -> list float64 -> Z.
Variable no_metadata : Metadata.

Local Set Default Proof Using "Type".

Local Abbreviation VectorDocument := (VectorDocument Metadata).
Local Abbreviation VectorStore := (VectorStore Metadata).
Local Abbreviation Vectoria := (Vectoria Metadata).
Local Abbreviation SearchResult := (SearchResult Metadata).

Implicit Types (x : Vectoria) (s : VectorStore) (doc d : VectorDocument)
  (docs : list VectorDocument).

(** *** Single records *)

Lemma fold_put_get (A V : Type) (key : A -> string) (val : A -> V)
    (l : list A) :
  forall (acc : JsMap V) k,
    map_get k (fold_left (fun m a => map_set (key a) (val a) m) l acc) =
    match find (fun a => String.eqb (key a) k) (rev l) with
    | Some a => Some (val a)
    | None => map_get k acc
    end.
Proof.
  induction l as [|a l IH]; intros acc k; simpl; [reflexivity|].
  rewrite IH, find_snoc.
  destruct (find _ (rev l)); [reflexivity|].
  rewrite map_get_set. now destruct (String.eqb (key a) k).
Qed.

(** [add] puts the document under its id: it replaces a stored document
    with the same id and the number of documents grows only for a new id;
    every other id keeps its document. *)
Theorem add_get doc s id :
  get id (add doc s) =
    (if String.eqb (d_id doc) id then Some doc else get id s) /\
  length (getAll (add doc s)) =
    (if map_has (d_id doc) (documents s) then length (getAll s)
     else S (length (getAll s))).
Proof.
  unfold get, add, getAll, map_values. simpl. split.
  - apply map_get_set.
  - rewrite !length_map. destruct (map_has _ _) eqn:E.
    + apply map_set_length_old. now apply map_has_true.
    + rewrite map_set_new by now apply map_has_false.
      rewrite length_app. simpl. lia.
Qed.

(** After [delete] the id has no document and every other id has the
    document it had. *)
Theorem delete_get id s k :
  get k (delete id s) = if String.eqb id k then None else get k s.
Proof.
  unfold get, delete, map_delete. simpl.
  induction (documents s) as [|[k' v] m IH]; simpl.
  - now destruct (String.eqb id k).
  - destruct (String.eqb k' id) eqn:E1; simpl.
    + apply String.eqb_eq in E1. subst k'. rewrite IH.
      now destruct (String.eqb id k).
    + destruct (String.eqb k' k) eqn:E2; [|exact IH].
      apply String.eqb_eq in E2. subst k'.
      rewrite String.eqb_sym, E1. reflexivity.
Qed.

(** After [addMany] an id holds the last document of the batch with that
    id, or what it held before when the batch has none. *)
Theorem addMany_get docs s id :
  get id (addMany docs s) =
  match find (fun d => String.eqb (d_id d) id) (rev docs) with
  | Some d => Some d
  | None => get id s
  end.
Proof.
  unfold get, addMany. simpl.
  apply (fold_put_get (@d_id _ Metadata) (fun d => d)).
Qed.

(** *** [search] of the facade *)

Lemma finalResults_flat_map s results :
  forall pre,
    finalResults (length pre) results (getMany (map c_id (pre ++ results)) s) =
    flat_map (found s) results.
Proof.
  induction results as [|r rest IH]; intros pre; simpl; [reflexivity|].
  assert (E : nth_error (getMany (map c_id (pre ++ r :: rest)) s) (length pre)
              = Some (get (c_id r) s)).
  { unfold getMany, get. rewrite map_map.
    rewrite nth_error_map, nth_error_app2 by lia.
    now rewrite Nat.sub_diag. }
  rewrite E. specialize (IH (pre ++ [r])).
  rewrite length_app, Nat.add_1_r, <- app_assoc in IH. simpl in IH.
  unfold found at 1. destruct (get (c_id r) s); simpl; now rewrite IH.
Qed.

Lemma found_length s results : length (flat_map (found s) results) <= length results.
Proof.
  induction results as [|r rest IH]; simpl; [lia|].
  rewrite length_app. unfold found at 1. destruct (get _ _); simpl; lia.
Qed.

Lemma found_In s results r :
  In r (flat_map (found s) results) ->
  exists c, In c results /\ get (c_id c) s = Some (sr_doc r) /\
            sr_score r = c_score c.
Proof.
  intros H. apply in_flat_map in H. destruct H as (c & Hc & Hr).
  exists c. split; auto. unfold found in Hr.
  destruct (get (c_id c) s); [|contradiction].
  destruct Hr as [<-|[]]. auto.
Qed.

Lemma search_sorted_bounded g q k results :
  search g q k = Return results ->
  StronglySorted desc results /\ length results <= k.
Proof.
  unfold search. intros H.
  destruct (entryPointId g) as [ep|].
  - destruct (map_get ep (nodes g)) as [cur|]; [|discriminate].
    destruct (descend _ _ _ _ _ _) as [[cur' d']| |]; try discriminate.
    simpl in H.
    destruct (searchLayer g _ cur' (efSearch g) 0) as [W| |] eqn:EW;
      try discriminate.
    simpl in H. injection H as <-. split.
    + apply sorted_firstn. eapply searchLayer_sorted; eauto.
    + rewrite length_firstn. lia.
  - injection H as <-. split; [constructor|simpl; lia].
Qed.

(** A call of [search] that returns leaves the stores as they were, and
    its results are at most [topK], each a document that the store holds
    under its id. *)
Theorem Vectoria_search_results query topK useBruteForce x res x' :
  store_ok x ->
  Vectoria_search embed cosineSimilarity query topK useBruteForce x
    = (Return res, x') ->
  x' = init x /\
  length res <= topK /\
  Forall (fun r => get (d_id (sr_doc r)) (db x) = Some (sr_doc r)) res.
Proof.
  intros [_ Hids] H. unfold Vectoria_search in H.
  destruct (embed query) as [q|]; [|discriminate].
  injection H as H <-. split; [reflexivity|].
  assert (Hres : exists results,
             res = flat_map (found (db (init x))) results /\
             length results <= topK).
  { destruct useBruteForce.
    - simpl in H. injection H as <-.
      eexists. split; [apply (finalResults_flat_map _ _ [])|].
      unfold bruteForce. rewrite length_firstn. lia.
    - destruct (search (index (init x)) q topK) as [results| |] eqn:E;
        try discriminate.
      simpl in H. injection H as <-.
      exists results. split; [apply (finalResults_flat_map _ _ [])|].
      eapply search_sorted_bounded; eauto. }
  destruct Hres as (results & -> & Hl). split.
  - pose proof (found_length (db (init x)) results). lia.
  - apply Forall_forall. intros r Hr. apply found_In in Hr.
    destruct Hr as (c & _ & Hg & _). unfold get in *.
    rewrite init_documents in Hg. rewrite <- (Hids _ _ Hg) in Hg at 1.
    assumption.
Qed.

(** An id that the index returns and that has no document is left out of
    the results without an error: the results are those of the index that
    have a document, in their order and with their scores. *)
Theorem Vectoria_search_ghosts query topK x q results :
  embed query = Some q ->
  search (index (init x)) q topK = Return results ->
  exists res,
    Vectoria_search embed cosineSimilarity query topK false x
      = (Return res, init x) /\
    map (fun r => (Some (sr_doc r), sr_score r)) res =
      map (fun c => (get (c_id c) (db x), c_score c))
        (filter (fun c => map_has (c_id c) (documents (db x))) results).
Proof.
  intros He Hs. exists (flat_map (found (db (init x))) results). split.
  { unfold Vectoria_search. rewrite He, Hs. cbn [bind]. do 2 f_equal.
    apply (finalResults_flat_map _ _ []). }
  unfold found, get. rewrite init_documents. clear Hs.
  induction results as [|c rest IH]; simpl; [reflexivity|].
  unfold map_has. destruct (map_get (c_id c) (documents (db x))) eqn:E; simpl.
  - rewrite E. f_equal. exact IH.
  - exact IH.
Qed.





(** *** What is saved *)

Lemma init_db x : db (init x) = db x.
Proof.
  unfold init. destruct (initialized x); [reflexivity|].
  destruct (meta (db x)); reflexivity.
Qed.

Lemma saveIndex_nodes touched x :
  hnsw_nodes (db (saveIndex touched x)) =
  fold_left (fun m n => map_set (jn_id n) n m)
    (flat_map (fun id => match getNode (index x) id with
                         | Some node => [node_to_json node]
                         | None => []
                         end) touched)
    (hnsw_nodes (db x)).
Proof.
  unfold saveIndex, node_to_json. cbv zeta.
  destruct (flat_map _ touched); reflexivity.
Qed.

Lemma saveIndex_meta touched x :
  meta (db (saveIndex touched x)) = Some (meta_of (index x)).
Proof.
  unfold saveIndex. cbv zeta. destruct (flat_map _ touched); reflexivity.
Qed.

Lemma fold_put_NoDup (A V : Type) (key : A -> string) (val : A -> V)
    (l : list A) :
  forall acc : JsMap V,
    NoDup (map_keys acc) ->
    NoDup (map_keys (fold_left (fun m a => map_set (key a) (val a) m) l acc)).
Proof.
  induction l as [|a l IH]; intros acc H; simpl; auto.
  apply IH. now apply NoDup_map_keys_set.
Qed.

(** [saveIndex] brings the node store up to date when the nodes that
    differ from those of the stored graph [g0] are all touched. *)
Lemma saveIndex_persisted touched (y : Vectoria) g0 :
  NoDup (map_keys (hnsw_nodes (db y))) ->
  (forall k, map_get k (hnsw_nodes (db y)) =
             option_map node_to_json (getNode g0 k)) ->
  ids_ok (index y) ->
  (forall k, ~ In k touched -> getNode (index y) k = getNode g0 k) ->
  (forall k, getNode (index y) k = None -> getNode g0 k = None) ->
  persisted (saveIndex touched y).
Proof.
  intros Hnd Hm Hok Hframe Hnone. split; [|split].
  - now rewrite saveIndex_meta, saveIndex_index.
  - rewrite saveIndex_nodes.
    apply (fold_put_NoDup (@jn_id _) (fun n => n)). exact Hnd.
  - intros k. rewrite saveIndex_nodes, saveIndex_index.
    rewrite (fold_put_get (@jn_id _) (fun n => n)).
    destruct (find _ _) as [nd|] eqn:E.
    + apply find_some in E. destruct E as [Hin Hk].
      apply String.eqb_eq in Hk. rewrite <- in_rev in Hin.
      apply in_flat_map in Hin. destruct Hin as (id' & Hid' & Hnd').
      destruct (getNode (index y) id') as [n'|] eqn:En; [|contradiction].
      destruct Hnd' as [<-|[]]. simpl in Hk.
      pose proof (Hok _ _ En) as Hid.
      assert (Hik : id' = k) by congruence. rewrite Hik in En.
      now rewrite En.
    + destruct (in_dec string_dec k touched) as [Hin|Hout].
      * destruct (getNode (index y) k) as [n|] eqn:En.
        -- exfalso. pose proof (find_none _ _ E (node_to_json n)) as Hf.
           simpl in Hf. rewrite (Hok _ _ En), String.eqb_refl in Hf.
           assert (true = false); [|discriminate]. apply Hf.
           rewrite <- in_rev. apply in_flat_map. exists k. split; auto.
           rewrite En. now left.
        -- now rewrite Hm, (Hnone _ En).
      * now rewrite Hm, <- (Hframe _ Hout).
Qed.

Lemma fold_set_add_In (t : list string) :
  forall acc k,
    In k (fold_left (fun ids id => set_add id ids) t acc) <->
    In k acc \/ In k t.
Proof.
  induction t as [|a t IH]; intros acc k; simpl.
  { split; [auto|]. intros [H|[]]. exact H. }
  rewrite IH, set_add_In. split.
  - intros [[->|H]|H]; auto.
  - intros [H|[<-|H]]; auto.
Qed.

Lemma addPoint_none coin g id vector touched g' k :
  addPoint coin g id vector = (Return touched, g') ->
  getNode g' k = None -> getNode g k = None.
Proof.
  intros H Hn. apply addPoint_keys in H. unfold getNode in *.
  apply map_get_None in Hn. apply map_get_None. intros Hin. apply Hn.
  rewrite H. apply in_or_app. now left.
Qed.

Lemma addPoints_touched coins docs :
  forall pos g acc all g',
    ids_ok g -> addPoints coins pos docs g acc = (Return all, g') ->
    ids_ok g' /\ incl acc all /\
    (forall k, ~ In k all -> getNode g' k = getNode g k) /\
    (forall k, getNode g' k = None -> getNode g k = None) /\
    map_keys (nodes g') =
      map_keys (nodes g) ++ map (@d_id _ _) (filter (@indexed _ Metadata) docs).
Proof.
  induction docs as [|d rest IH]; intros pos g acc all g' Hok H; simpl in H.
  - injection H as <- <-. simpl. rewrite app_nil_r.
    split; [exact Hok|]. split; [apply incl_refl|]. auto.
  - simpl. unfold indexed at 1. destruct (d_embedding d) as [emb|] eqn:Ee.
    + destruct (addPoint (coins pos) g (d_id d) emb) as [[t| |] g1] eqn:Ea;
        try discriminate.
      pose proof (addPoint_keys _ _ _ _ Ea) as Hk1.
      pose proof (fun k => @addPoint_none _ _ _ _ _ _ k Ea) as Hn1.
      apply touched_frame in Ea; [|exact Hok].
      destruct Ea as (_ & _ & _ & Hf1 & Hok1).
      destruct (IH _ _ _ _ _ Hok1 H) as (Hok' & Hincl & Hf & Hn & Hk).
      split; [exact Hok'|]. split; [|split; [|split]].
      * intros k Hin. apply Hincl. apply fold_set_add_In. now left.
      * intros k Hout. rewrite (Hf k Hout). apply Hf1. intros Hin.
        apply Hout, Hincl, fold_set_add_In. now right.
      * intros k Hnone. apply Hn1, Hn, Hnone.
      * rewrite Hk, Hk1. simpl. now rewrite <- app_assoc.
    + exact (IH _ _ _ _ _ Hok H).
Qed.

Lemma indexDocuments_saves coins docs x x' :
  initialized x = true \/ meta (db x) = None ->
  mirrors x -> ids_ok (index x) ->
  indexDocuments coins docs x = (Return tt, x') ->
  persisted x' /\ ids_ok (index x') /\ initialized x' = true /\
  map_keys (nodes (index x')) =
    map_keys (nodes (index x)) ++ map (@d_id _ _) (filter (@indexed _ Metadata) docs).
Proof.
  intros Hinit [Hnd Hm] Hok H. unfold indexDocuments in H.
  rewrite (init_loaded _ Hinit) in H. cbn [index] in H.
  destruct (addPoints coins 0 docs (index x) []) as [[all| |] g] eqn:Ea;
    try discriminate.
  injection H as <-.
  apply addPoints_touched in Ea; [|exact Hok].
  destruct Ea as (Hok' & _ & Hf & Hn & Hk).
  split; [|split; [|split]].
  - apply saveIndex_persisted with (g0 := index x); auto.
  - rewrite saveIndex_index. exact Hok'.
  - now rewrite saveIndex_initialized.
  - rewrite saveIndex_index. exact Hk.
Qed.

(** When [indexDocuments] returns, the stores hold the graph in memory: the
    record under ["hnsw-meta"] is that of the graph and the node store has
    the record of every node, the touched ones rewritten; the graph has
    one more node for each document with an embedding. The stores must
    have held the graph before. *)
Theorem indexDocuments_persisted coins docs x x' :
  initialized x = true \/ meta (db x) = None ->
  mirrors x -> ids_ok (index x) ->
  indexDocuments coins docs x = (Return tt, x') ->
  persisted x' /\ ids_ok (index x') /\
  map_keys (nodes (index x')) =
    map_keys (nodes (index x)) ++
    map (@d_id _ _)
      (filter (fun d => match d_embedding d with
                        | Some _ => true
                        | None => false
                        end) docs).
Proof.
  intros Hinit Hm Hok H.
  destruct (indexDocuments_saves _ _ Hinit Hm Hok H) as (H1 & H2 & _ & H3).
  auto.
Qed.

Lemma find_values (V : Type) (key : V -> string) (m : JsMap V) k :
  NoDup (map_keys m) -> (forall k v, map_get k m = Some v -> key v = k) ->
  find (fun v => String.eqb (key v) k) (rev (map_values m)) = map_get k m.
Proof.
  unfold map_values.
  induction m as [|[k0 v0] m IH]; intros Hnd Hkey; simpl; [reflexivity|].
  inversion Hnd as [|? ? Hnin Hnd']; subst.
  assert (Hk0 : key v0 = k0).
  { apply Hkey. simpl. now rewrite String.eqb_refl. }
  assert (Hkey' : forall k v, map_get k m = Some v -> key v = k).
  { intros k1 v1 H1. apply Hkey. simpl. destruct (String.eqb k0 k1) eqn:E; auto.
    apply String.eqb_eq in E. subst k1. exfalso. apply Hnin.
    eapply map_get_key; eauto. }
  rewrite find_snoc, (IH Hnd' Hkey'), Hk0.
  destruct (String.eqb k0 k) eqn:E.
  - apply String.eqb_eq in E. subst k.
    assert (Hn : map_get k0 m = None) by now apply map_get_None.
    now rewrite Hn.
  - now destruct (map_get k m).
Qed.

(** A new indexer over the stores of an indexer whose graph is saved loads
    that graph: [init] gives every id the node it had, and the parameters,
    the entry point and the top level as they were. The assumption is that
    a single-precision number survives widening and rounding back. *)
Theorem init_reload x :
  (forall a : float32, fround (widen a) = a) ->
  persisted x -> ids_ok (index x) -> params_ok (index x) ->
  let y := init (new_Vectoria (db x)) in
  initialized y = true /\ db y = db x /\
  (forall k, getNode (index y) k = getNode (index x) k) /\
  meta_of (index y) = meta_of (index x).
Proof.
  intros Hround [Hmeta [Hnd Hm]] Hok (H1 & H2 & H3 & H4 & _).
  unfold init, new_Vectoria. cbn [initialized db]. rewrite Hmeta.
  cbn [index initialized db].
  split; [reflexivity|]. split; [reflexivity|]. split.
  - intros k. unfold getNode, fromJSON. simpl nodes.
    change (nodes (with_entry _ _ _)) with (@nil (string * Node)).
    pose proof (fold_set_get (getAllNodes (db x)) [] k) as E.
    unfold node_of_json in E at 1. simpl in E |- *. rewrite E. clear E.
    unfold getAllNodes. rewrite (find_values (@jn_id _)); auto.
    + rewrite Hm. unfold getNode.
      destruct (map_get k (nodes (index x))) as [n|]; simpl; auto.
      f_equal. destruct n as [i v lv nb].
      unfold node_of_json, node_to_json. simpl. f_equal.
      rewrite map_map. rewrite <- (map_id v) at 2. apply map_ext. exact Hround.
    + intros k1 v1 Hv. rewrite Hm in Hv.
      destruct (getNode (index x) k1) as [n|] eqn:En; [|discriminate].
      injection Hv as <-. simpl. exact (Hok _ _ En).
  - unfold meta_of, fromJSON. cbn -[or_default].
    rewrite !or_default_some by assumption. f_equal.
    destruct (truthy (levelMultiplier (index x))) eqn:E; auto.
    symmetry. auto.
Qed.

(** *** [addDocument] and [addDocuments] *)

(** The failures of [addDocument] that come before any write to the
    stores. When the embedder rejects the text, or the id is already a key
    of the graph, the call throws (the embedder's error, the duplicate-id
    error) and the indexer is as [init] left it. When the insertion into
    the graph dies of a [TypeError], the call throws it with the stores as
    they were, while the graph in memory has a node for the id already. *)
Theorem addDocument_failure coin uuid now text md x :
  let r := addDocument embed no_metadata coin uuid now text md x in
  (embed text = None -> r = (Throw EmbedderFailure, init x)) /\
  forall emb, embed text = Some emb ->
    (map_has uuid (nodes (index (init x))) = true ->
     r = (Throw (DuplicateId uuid), init x)) /\
    (fst (addPoint coin (index (init x)) uuid emb) = Throw TypeError ->
     fst r = Throw TypeError /\ db (snd r) = db x /\
     get uuid (db (snd r)) = get uuid (db x) /\
     map_has uuid (nodes (index (snd r))) = true).
Proof.
  unfold addDocument. destruct (embed text) as [emb0|]; cbn [d_id].
  - split; [discriminate|]. intros emb [= <-]. split.
    + intros Hhas. unfold addPoint. rewrite Hhas.
      destruct (init x); reflexivity.
    + intros Ht.
      destruct (@addPoint_throws _ _ _ _ _ _ Ht) as [[E _]|[_ Hhas]];
        [discriminate|].
      pose proof (shape_kept coin (index (init x)) uuid emb0 uuid Hhas) as Hs.
      rewrite String.eqb_refl in Hs.
      destruct (addPoint coin (index (init x)) uuid emb0) as [[t|e0|] g];
        cbn [fst snd] in *; try discriminate.
      injection Ht as ->. split; [reflexivity|].
      split; [apply init_db|]. split.
      { change (get uuid (db (init x)) = get uuid (db x)).
        now rewrite init_db. }
      unfold map_has. unfold getNode in Hs. simpl.
      destruct (map_get uuid (nodes g)); [reflexivity|discriminate].
  - split; [reflexivity|]. discriminate.
Qed.

(** On a well-formed graph that is saved, [addDocument] with a fresh id
    and an embedder that accepts the text returns the document it built,
    stores it under the id, adds a node with the rounded embedding, and
    leaves the stores holding the new graph. *)
Theorem addDocument_ok coin uuid now text md x emb :
  initialized x = true \/ meta (db x) = None ->
  well_formed (index x) -> mirrors x ->
  map_has uuid (nodes (index x)) = false ->
  embed text = Some emb ->
  exists doc x',
    addDocument embed no_metadata coin uuid now text md x = (Return doc, x') /\
    doc = {| d_id := uuid; d_text := text;
             d_metadata := Some (metadata_or_default no_metadata md);
             d_embedding := Some emb; d_createdAt := now |} /\
    get uuid (db x') = Some doc /\
    (forall k, k <> uuid -> get k (db x') = get k (db x)) /\
    option_map shape (getNode (index x') uuid) =
      Some (uuid, map fround emb, getRandomLevel coin,
            getRandomLevel coin + 1) /\
    well_formed (index x') /\ persisted x'.
Proof.
  intros Hinit Hwf [Hnd Hm] Hfresh He. unfold addDocument.
  rewrite He, (init_loaded _ Hinit). cbn [index db d_id].
  destruct (@addPoint_wf _ coin (index x) uuid emb Hwf Hfresh)
    as (t & g' & Ea & Hwf').
  pose proof (shape_kept coin (index x) uuid emb uuid Hfresh) as Hs.
  rewrite Ea, String.eqb_refl in Hs. cbn [snd] in Hs.
  pose proof (fun k => @addPoint_none _ _ _ _ _ _ k Ea) as Hn.
  rewrite Ea. eexists. eexists. split; [reflexivity|].
  split; [reflexivity|]. split; [|split; [|split; [|split]]].
  - unfold get. rewrite saveIndex_documents. simpl. apply map_get_set_eq.
  - intros k Hne. unfold get. rewrite saveIndex_documents. simpl.
    rewrite map_get_set. destruct (String.eqb uuid k) eqn:E; auto.
    apply String.eqb_eq in E. congruence.
  - rewrite saveIndex_index. exact Hs.
  - rewrite saveIndex_index. exact Hwf'.
  - apply touched_frame in Ea; [|exact (wf_ids Hwf)].
    destruct Ea as (_ & _ & _ & Hf & _).
    apply saveIndex_persisted with (g0 := index x); auto.
    exact (wf_ids Hwf').
Qed.

Lemma new_docs_ids uuid now embs (items : list (Item Metadata)) :
  forall i,
    map (@d_id _ _) (new_docs no_metadata uuid now i embs items) =
    map uuid (seq i (length items)).
Proof.
  induction items as [|item rest IH]; intros i; simpl; [reflexivity|].
  now rewrite IH.
Qed.

Lemma new_docs_nth uuid now embs (items : list (Item Metadata)) :
  forall i k item,
    nth_error items k = Some item ->
    nth_error (new_docs no_metadata uuid now i embs items) k =
    Some {| d_id := uuid (i + k); d_text := i_text item;
            d_metadata := Some (metadata_or_default no_metadata (i_metadata item));
            d_embedding := nth_error embs (i + k);
            d_createdAt := now (i + k) |}.
Proof.
  induction items as [|it rest IH]; intros i [|k] item H; simpl in *;
    try discriminate.
  - injection H as <-. now rewrite Nat.add_0_r.
  - rewrite (IH (S i) k item H). now rewrite Nat.add_succ_r.
Qed.

(** [addDocuments] on a well-formed graph that is saved, with fresh ids:
    every item gets a document with its text under the id drawn for it,
    and the embedding the embedder gave for its position. An item for
    which the embedder gave none is stored without an embedding and gets
    no node; the others get one. The stores hold the new graph. *)
Theorem addDocuments_ok coins uuid now (items : list (Item Metadata)) x embs :
  initialized x = true \/ meta (db x) = None ->
  well_formed (index x) -> mirrors x ->
  NoDup (map uuid (seq 0 (length items))) ->
  (forall i, i < length items ->
     map_has (uuid i) (nodes (index x)) = false) ->
  embedBatch (map (@i_text Metadata) items) = Some embs ->
  exists docs x',
    addDocuments embedBatch no_metadata coins uuid now items x
      = (Return docs, x') /\
    length docs = length items /\
    (forall i item,
       nth_error items i = Some item ->
       exists doc,
         nth_error docs i = Some doc /\
         d_id doc = uuid i /\ d_text doc = i_text item /\
         d_embedding doc = nth_error embs i /\
         get (uuid i) (db x') = Some doc /\
         map_has (uuid i) (nodes (index x')) = (i <? length embs)) /\
    well_formed (index x') /\ persisted x'.
Proof.
  intros Hinit Hwf Hm Hnd Hfresh He. unfold addDocuments.
  rewrite He, (init_loaded _ Hinit). cbn [index db].
  set (docs := new_docs no_metadata uuid now 0 embs items).
  assert (Hids : map (@d_id _ _) docs = map uuid (seq 0 (length items)))
    by apply new_docs_ids.
  assert (Hnd' : NoDup (map (@d_id _ _) docs)) by now rewrite Hids.
  assert (Hfresh' : forall k, In k (map (@d_id _ _) docs) ->
                              ~ In k (map_keys (nodes (index x)))).
  { intros k Hk. rewrite Hids in Hk. apply in_map_iff in Hk.
    destruct Hk as (i & <- & Hi). apply in_seq in Hi.
    apply map_get_None, map_has_false, Hfresh. lia. }
  destruct (@addPoints_ok _ _ embedBatch coins docs 0 (index x) [] Hwf Hnd'
              Hfresh')
    as (all & g' & Ea & Hwf' & _).
  rewrite Ea. eexists. eexists. split; [reflexivity|].
  apply addPoints_touched in Ea; [|exact (wf_ids Hwf)].
  destruct Ea as (Hok' & _ & Hf & Hn & Hk).
  assert (Hlen : length docs = length items).
  { rewrite <- (length_map (@d_id _ _)), Hids, length_map. apply length_seq. }
  split; [exact Hlen|]. split; [|split].
  - intros i item Hi.
    pose proof (new_docs_nth uuid now embs items 0 i Hi) as Hdoc.
    simpl in Hdoc. fold docs in Hdoc.
    eexists. split; [exact Hdoc|]. cbn [d_id d_text d_embedding].
    split; [reflexivity|]. split; [reflexivity|]. split; [reflexivity|].
    split.
    + unfold get. rewrite saveIndex_documents. simpl.
      match goal with |- _ = Some ?d =>
        change (uuid i) with (d_id d) end.
      apply put_get; [exact Hnd'|]. eapply nth_error_In; exact Hdoc.
    + rewrite saveIndex_index. simpl.
      assert (Hi' : i < length items) by (apply nth_error_Some; congruence).
      destruct (i <? length embs) eqn:El.
      * apply map_has_true. rewrite Hk. apply in_or_app. right.
        apply in_map_iff. eexists. split; [|apply filter_In; split;
          [eapply nth_error_In; exact Hdoc|]]; [reflexivity|].
        unfold indexed. simpl. apply Nat.ltb_lt in El.
        destruct (nth_error embs i) eqn:En; auto.
        apply nth_error_None in En. lia.
      * apply map_has_false, map_get_None. rewrite Hk. intros Hin.
        apply in_app_or in Hin. destruct Hin as [Hin|Hin].
        -- revert Hin. apply map_get_None, map_has_false, Hfresh, Hi'.
        -- apply in_map_iff in Hin. destruct Hin as (d & Hd & Hin).
           apply filter_In in Hin. destruct Hin as [Hin Hemb].
           apply In_nth_error in Hin. destruct Hin as [j Hj].
           assert (Hj' : j < length items).
           { rewrite <- Hlen. apply nth_error_Some. congruence. }
           destruct (nth_error items j) as [itj|] eqn:Ej;
             [|apply nth_error_None in Ej; lia].
           pose proof (new_docs_nth uuid now embs items 0 j Ej) as Hdj.
           simpl in Hdj. fold docs in Hdj. rewrite Hj in Hdj.
           injection Hdj as ->. simpl in Hd, Hemb.
           assert (j = i).
           { pose proof (proj1 (NoDup_nth (map uuid (seq 0 (length items)))
                                   (uuid 0)) Hnd) as Hinj.
             apply Hinj; rewrite ?length_map, ?length_seq; auto.
             rewrite !(map_nth uuid _ 0), !seq_nth by assumption.
             exact Hd. }
           subst j. unfold indexed in Hemb. simpl in Hemb.
           apply Nat.ltb_ge in El.
           destruct (nth_error embs i) eqn:En; [|discriminate].
           assert (i < length embs) by (apply nth_error_Some; congruence).
           lia.
  - rewrite saveIndex_index. exact Hwf'.
  - destruct Hm as [Hnd0 Hm].
    apply saveIndex_persisted with (g0 := index x); auto.
Qed.

(** *** [init], [clear] and [resetIndex] *)

(** [init] loads once: a second call changes nothing, and no call writes
    to the stores. *)
Theorem init_idempotent x :
  init (init x) = init x /\ initialized (init x) = true /\ db (init x) = db x.
Proof.
  unfold init. destruct (initialized x) eqn:E.
  - rewrite E. auto.
  - destruct (meta (db x)); simpl; auto.
Qed.

Lemma search_empty config q k :
  search (new_HNSWIndex config) q k = Return [].
Proof. reflexivity. Qed.

(** After [clear] a search finds nothing, by the index or by brute force,
    and no document is left. After [resetIndex] the index finds nothing
    either, but every document is still stored, so that the brute-force
    search still returns what it returned before. *)
Theorem search_after_clear query topK useBruteForce x q :
  embed query = Some q ->
  fst (Vectoria_search embed cosineSimilarity query topK useBruteForce
         (Vectoria_clear x)) = Return [] /\
  getAllDocuments (Vectoria_clear x) = [] /\
  fst (Vectoria_search embed cosineSimilarity query topK false (resetIndex x))
    = Return [] /\
  getAllDocuments (resetIndex x) = getAllDocuments x /\
  fst (Vectoria_search embed cosineSimilarity query topK true (resetIndex x))
    = fst (Vectoria_search embed cosineSimilarity query topK true
             {| db := db x; index := index x; initialized := true |}).
Proof.
  intros He.
  assert (Hc : init (Vectoria_clear x) =
               {| db := clear (db x); index := new_HNSWIndex default_config;
                  initialized := true |})
    by (apply init_loaded; right; reflexivity).
  assert (Hr : init (resetIndex x) =
               {| db := clearIndex (db x);
                  index := new_HNSWIndex default_config;
                  initialized := true |})
    by (apply init_loaded; right; reflexivity).
  unfold Vectoria_search. rewrite He, Hc, Hr. cbn [index db fst].
  rewrite !search_empty. split.
  { destruct useBruteForce; [|reflexivity].
    unfold bruteForce, getAll, clear. simpl. now rewrite firstn_nil. }
  split; [reflexivity|]. split; [reflexivity|]. split; reflexivity.
Qed.

End DocumentsFacts.

(** ** More about the migration *)

Section MigrationMore.
Context {num : Numeric}.
Variable Metadata : Type.
Variable embedBatch : list string -> option (list (list float64)).

Local Set Default Proof Using "Type".

Local Abbreviation VectorDocument := (VectorDocument Metadata).
Local Abbreviation Vectoria := (Vectoria Metadata).

Implicit Types (x : Vectoria) (d u b : VectorDocument)
  (docs batch allDocs : list VectorDocument) (m : MigrationManager).

(** *** Failures of the indexer *)

Lemma addPoints_errors coins docs :
  forall pos g acc,
    fst (addPoints coins pos docs g acc) <> OutOfFuel /\
    forall e, fst (addPoints coins pos docs g acc) = Throw e ->
              e = TypeError \/ exists id, e = DuplicateId id.
Proof.
  induction docs as [|d rest IH]; intros pos g acc; simpl.
  - split; discriminate.
  - destruct (d_embedding d) as [emb|]; [|apply IH].
    pose proof (@addPoint_throws _ (coins pos) g (d_id d) emb) as Hc.
    pose proof (addPoint_fuel (coins pos) g (d_id d) emb) as Hf.
    destruct (addPoint (coins pos) g (d_id d) emb) as [[t|e0|] g1];
      cbn [fst] in *.
    + apply IH.
    + split; [discriminate|]. intros e [= <-].
      destruct (Hc e0 eq_refl) as [[-> _]|[-> _]]; [right; eauto|now left].
    + contradiction.
Qed.

Lemma indexDocuments_errors coins docs x :
  fst (indexDocuments coins docs x) <> OutOfFuel /\
  forall e, fst (indexDocuments coins docs x) = Throw e ->
    (e = TypeError \/ exists id, e = DuplicateId id) /\
    db (snd (indexDocuments coins docs x)) = db x.
Proof.
  unfold indexDocuments.
  destruct (addPoints_errors coins docs 0 (index (init x)) []) as [Hf He].
  destruct (addPoints coins 0 docs (index (init x)) []) as [[all|e0|] g];
    cbn [fst snd] in *.
  - split; discriminate.
  - split; [discriminate|]. intros e [= <-]. split; [now apply He|].
    simpl. apply init_db.
  - contradiction.
Qed.

(** *** What a run leaves of the status *)

Lemma kept_refl m : kept m m.
Proof. unfold kept. auto. Qed.

Lemma kept_signal called m : kept m (signal called m).
Proof. destruct called; unfold kept; simpl; auto. Qed.

Lemma kept_trans m1 m2 m3 : kept m1 m2 -> kept m2 m3 -> kept m1 m3.
Proof.
  unfold kept. intros (A1 & A2 & A3 & A4) (B1 & B2 & B3 & B4).
  repeat split; congruence.
Qed.

Lemma batches_ends stops coins B allDocs :
  forall fuel i iter pc m x done,
    1 <= fuel -> length allDocs < fuel + i ->
    let r := batches embedBatch fuel stops coins B allDocs i iter pc m x done in
    r_outcome r <> OutOfFuel /\
    kept m (r_manager r) /\
    (forall e, r_outcome r = Throw e -> e <> AlreadyRunning).
Proof.
  induction fuel as [|fuel IH]; intros i iter pc m x done Hf Hlen; [lia|].
  simpl.
  destruct (i <? length allDocs) eqn:Ei; simpl;
    [|split; [discriminate|]; split; [apply kept_refl|discriminate]].
  apply Nat.ltb_lt in Ei.
  destruct (shouldStop m); simpl;
    [split; [discriminate|]; split; [apply kept_refl|discriminate]|].
  destruct (embedBatch _) as [embs|]; simpl;
    [|split; [discriminate|]; split; [apply kept_signal|];
      intros e [= <-]; discriminate].
  match goal with |- context [indexDocuments ?c ?ds x] =>
    destruct (indexDocuments_errors c ds x) as [Hnf Herr];
    destruct (indexDocuments c ds x) as [[[]|e0|] x'] end;
    cbn [fst snd] in *.
  - destruct (last_opt (firstn B (skipn i allDocs))) as [lastDoc|] eqn:El.
    + assert (HB : B <> 0).
      { intros ->. simpl in El. discriminate. }
      match goal with |- context [batches _ fuel _ _ _ _ ?i' ?it' ?pc' ?m' ?x'' ?dn] =>
        destruct (IH i' it' pc' m' x'' dn) as (H1 & H2 & H3);
          [lia|lia|] end.
      split; [exact H1|]. split; [|exact H3].
      eapply kept_trans; [|exact H2].
      eapply kept_trans; [apply (kept_signal (stops (S iter)))|].
      unfold kept. simpl. auto.
    + simpl. split; [discriminate|]. split; [|intros e [= <-]; discriminate].
      eapply kept_trans; [apply (kept_signal (stops (S iter)))|].
      unfold kept. simpl. auto.
  - simpl. split; [discriminate|]. split; [apply kept_signal|].
    intros e [= <-]. destruct (Herr e0 eq_refl) as [[->|[id ->]] _];
      discriminate.
  - contradiction.
Qed.

(** A call of [start] always ends. On a manager that is running it throws
    and changes nothing. Otherwise it leaves [isRunning] false and [total]
    the number of stored documents, whatever happens; an exception is the
    embedder's or the indexer's and is recorded in [status.error]; and a
    run that returns sets [isComplete] when no stop is pending, leaves it
    as it was when one is, and never clears [status.error] of an earlier
    run. *)
Theorem start_ends stops coins B m x :
  let r := start embedBatch stops coins B m x in
  r_outcome r <> OutOfFuel /\
  (isRunning m = true ->
     r_outcome r = Throw AlreadyRunning /\ r_manager r = m /\
     r_indexer r = x) /\
  (isRunning m = false ->
     isRunning (r_manager r) = false /\
     st_total (status (r_manager r)) = length (getAllDocuments x) /\
     (forall e, r_outcome r = Throw e ->
        e <> AlreadyRunning /\
        st_error (status (r_manager r)) = Some e /\
        st_isComplete (status (r_manager r)) = st_isComplete (status m)) /\
     (r_outcome r = Return tt ->
        st_error (status (r_manager r)) = st_error (status m) /\
        st_isComplete (status (r_manager r)) =
          (negb (shouldStop (r_manager r)) || st_isComplete (status m)))).
Proof.
  unfold start. destruct (isRunning m) eqn:Hrun; cbv zeta.
  - simpl. split; [discriminate|]. split; [auto|discriminate].
  - match goal with |- context [batches _ ?f _ _ _ ?a ?i ?it ?pc ?m0 ?x0 ?dn] =>
      destruct (@batches_ends stops coins B a f i it pc m0 x0 dn)
        as (H1 & (K1 & K2 & K3 & K4) & H3); [lia|lia|];
      remember (batches embedBatch f stops coins B a i it pc m0 x0 dn)
        as r0 eqn:Er0; clear Er0
    end.
    assert (T : st_total (status (r_manager r0)) = length (getAllDocuments x)).
    { rewrite K2. destruct (stops 0); reflexivity. }
    assert (C : st_isComplete (status (r_manager r0)) = st_isComplete (status m)).
    { rewrite K3. destruct (stops 0); reflexivity. }
    assert (E : st_error (status (r_manager r0)) = st_error (status m)).
    { rewrite K4. destruct (stops 0); reflexivity. }
    destruct (r_outcome r0) as [[]|e0|] eqn:Eo; [| |contradiction].
    + cbn [r_outcome r_manager]. split; [discriminate|].
      split; [discriminate|]. intros _.
      destruct (shouldStop (r_manager r0)) eqn:Es; simpl; rewrite ?Es; simpl;
        repeat split; auto; discriminate.
    + cbn [r_outcome r_manager]. split; [discriminate|].
      split; [discriminate|]. intros _. simpl.
      split; [reflexivity|]. split; [exact T|]. split; [|discriminate].
      intros e [= <-]. split; [now apply H3|]. auto.
Qed.

(** *** The documents over a run *)

Lemma reembed_In embs batch :
  forall idx u, In u (reembed idx embs batch) ->
    exists b, In b batch /\ same_fields b u.
Proof.
  induction batch as [|b rest IH]; intros idx u H; simpl in H; [contradiction|].
  destruct H as [<-|H].
  - exists b. split; [now left|]. unfold same_fields. simpl. auto.
  - destruct (IH _ _ H) as (b' & Hb' & Hs). exists b'. split; auto. now right.
Qed.

Lemma batch_In allDocs i k b :
  In b (firstn k (skipn i allDocs)) -> In b allDocs.
Proof.
  intros H. rewrite <- (firstn_skipn i allDocs). apply in_or_app. right.
  rewrite <- (firstn_skipn k (skipn i allDocs)). apply in_or_app. now left.
Qed.

Lemma put_kept (docs0 : JsMap VectorDocument) updated x x' :
  NoDup (map_keys docs0) ->
  (forall k d, map_get k docs0 = Some d -> d_id d = k) ->
  docs_kept docs0 x ->
  (forall u, In u updated ->
     exists b, In b (map_values docs0) /\ same_fields b u) ->
  documents (db x') =
    fold_left (fun mp doc => map_set (d_id doc) doc mp) updated
      (documents (db x)) ->
  docs_kept docs0 x'.
Proof.
  intros Hnd Hids [Hk Hf] Hup Hdocs.
  assert (Hstored : forall b, In b (map_values docs0) ->
            map_get (d_id b) docs0 = Some b).
  { intros b Hb. unfold map_values in Hb. apply in_map_iff in Hb.
    destruct Hb as ([k b'] & <- & Hin). simpl.
    pose proof (map_In_get _ _ _ Hnd Hin) as Hg.
    now rewrite (Hids _ _ Hg). }
  split.
  - rewrite Hdocs, <- Hk. apply put_keys. intros u Hu.
    destruct (Hup u Hu) as (b & Hb & Hid & _). rewrite Hk, Hid.
    eapply map_get_key. apply (Hstored b Hb).
  - intros k d Hd. rewrite Hdocs.
    rewrite (fold_put_get (@d_id _ Metadata) (fun u => u)).
    destruct (find _ _) as [u|] eqn:E; [|now apply Hf].
    apply find_some in E. destruct E as [Hin Hku].
    apply String.eqb_eq in Hku. rewrite <- in_rev in Hin.
    destruct (Hup u Hin) as (b & Hb & Hs).
    exists u. split; [reflexivity|].
    pose proof (Hstored b Hb) as Hg. destruct Hs as (Hid & Hrest).
    rewrite <- Hid, Hku, Hd in Hg. injection Hg as ->.
    unfold same_fields. auto.
Qed.

Lemma batches_documents stops coins B (docs0 : JsMap VectorDocument) :
  NoDup (map_keys docs0) ->
  (forall k d, map_get k docs0 = Some d -> d_id d = k) ->
  forall fuel i iter pc m x done,
    docs_kept docs0 x ->
    docs_kept docs0
      (r_indexer (batches embedBatch fuel stops coins B (map_values docs0)
                    i iter pc m x done)).
Proof.
  intros Hnd Hids.
  induction fuel as [|fuel IH]; intros i iter pc m x done Hx; simpl; auto.
  destruct (i <? _); simpl; auto.
  destruct (shouldStop m); simpl; auto.
  destruct (embedBatch _) as [embs|]; simpl; auto.
  match goal with |- context [indexDocuments ?c ?ds x] =>
    pose proof (@indexDocuments_documents _ _ c ds x) as Hret;
    destruct (indexDocuments_errors c ds x) as [_ Herr];
    destruct (indexDocuments c ds x) as [[[]|e0|] x'] eqn:Ei end;
    cbn [fst snd] in *.
  - assert (Hx' : docs_kept docs0 x').
    { eapply put_kept; eauto. intros u Hu.
      apply reembed_In in Hu. destruct Hu as (b & Hb & Hs).
      exists b. split; auto. eapply batch_In; eauto. }
    destruct (last_opt _); simpl; auto.
  - simpl. destruct (Herr e0 eq_refl) as [_ Hdb].
    unfold docs_kept. rewrite Hdb. exact Hx.
  - simpl.
    assert (Hdb : db x' = db x).
    { unfold indexDocuments in Ei.
      destruct (addPoints _ _ _ _ _) as [[all|e1|] g]; try discriminate.
      injection Ei as <-. simpl. apply init_db. }
    unfold docs_kept. rewrite Hdb. exact Hx.
Qed.

(** Over a whole run of [start], however it ends, the document store keeps
    its keys, and every document keeps its id, text, metadata and creation
    time: the run writes embeddings only. The store must hold each
    document under its own id. *)
Theorem start_keeps_documents stops coins B m x :
  store_ok x ->
  let r := start embedBatch stops coins B m x in
  map_keys (documents (db (r_indexer r))) = map_keys (documents (db x)) /\
  forall k d,
    map_get k (documents (db x)) = Some d ->
    exists d',
      map_get k (documents (db (r_indexer r))) = Some d' /\
      d_id d' = d_id d /\ d_text d' = d_text d /\
      d_metadata d' = d_metadata d /\ d_createdAt d' = d_createdAt d.
Proof.
  intros [Hnd Hids].
  assert (H0 : forall y : Vectoria,
            documents (db y) = documents (db x) ->
            docs_kept (documents (db x)) y).
  { intros y Hy. unfold docs_kept. rewrite Hy. split; auto.
    intros k d Hd. exists d. unfold same_fields. auto. }
  unfold start. destruct (isRunning m); cbv zeta.
  - simpl. apply (H0 x eq_refl).
  - unfold getAllDocuments, getAll.
    match goal with |- context [batches _ ?f _ _ _ _ ?i ?it ?pc ?m0 ?x0 ?dn] =>
      pose proof (@batches_documents stops coins B (documents (db x)) Hnd Hids
                    f i it pc m0 x0 dn (H0 x0 eq_refl)) as H;
      remember (batches embedBatch f stops coins B
                  (map_values (documents (db x))) i it pc m0 x0 dn)
        as r0 eqn:Er0; clear Er0
    end.
    destruct (r_outcome r0); cbn [r_indexer]; exact H.
Qed.

(** *** Batch size 0 *)

(** With batch size 0, a store that is not empty, no stop before the loop
    and an embedder that accepts the empty batch, [start] throws a
    [TypeError] at the first batch, after the index has been reset: the
    graph in memory is the empty default one and the persisted graph is
    gone, nothing is processed and the error is recorded. *)
Theorem start_batchSize_zero stops coins m x embs :
  isRunning m = false -> stops 0 = false ->
  getAllDocuments x <> [] ->
  embedBatch [] = Some embs ->
  let r := start embedBatch stops coins 0 m x in
  r_outcome r = Throw TypeError /\
  st_processed (status (r_manager r)) = 0 /\
  st_error (status (r_manager r)) = Some TypeError /\
  isRunning (r_manager r) = false /\
  index (r_indexer r) = new_HNSWIndex default_config /\
  hnsw_nodes (db (r_indexer r)) = [] /\
  documents (db (r_indexer r)) = documents (db x).
Proof.
  intros Hrun Hs0 Hne He. unfold start. rewrite Hrun, Hs0. cbv zeta.
  destruct (getAllDocuments x) as [|d0 rest] eqn:Ed; [contradiction|].
  cbn [length]. cbn [batches]. cbn [Nat.ltb Nat.leb signal with_status
    with_flags shouldStop skipn firstn map]. rewrite He.
  cbn [reembed].
  unfold indexDocuments.
  rewrite init_loaded by (right; reflexivity).
  cbn [addPoints index]. cbn [last_opt rev]. simpl.
  repeat split.
Qed.

End MigrationMore.

(** ** The properties at concrete graphs *)

Section Examples.
Open Scope string_scope.

Lemma g3_reachable : reachable Run.g3.
Proof.
  unfold Run.g3, Run.add.
  repeat (apply reachable_add; [|vm_compute; reflexivity]). apply reach_new.
Qed.

Lemma dangling_id_counterexample :
  dangling Run.ghost "ghost" /\
  search Run.ghost [1%Z] 1 = Throw TypeError /\
  map_get "a" (nodes Run.ghost) = Some Run.ghost_a /\
  searchLayer Run.ghost [1%Z] Run.ghost_a 200 0 = Throw TypeError /\
  fst (addPoint Run.level0 Run.ghost "b" [1%Z]) = Throw TypeError.
Proof.
  split; [|repeat split; vm_compute; reflexivity].
  split; [vm_compute; reflexivity|].
  exists "a", Run.ghost_a, 0, ["ghost"].
  split; [vm_compute; reflexivity|].
  split; [vm_compute; reflexivity|]. now left.
Qed.

Lemma dangling_id_raises_witness :
  searchLayer Run.ghost [1%Z] Run.ghost_a 200 0 = Throw TypeError /\
  returns (search Run.g3 [0; 1]%Z 5).
Proof.
  split.
  - apply (proj2 (proj1 (dangling_id_raises Run.ghost) "ghost" eq_refl)
             [1%Z] Run.ghost_a 200 0 Run.ghost_a ["ghost"] eq_refl eq_refl).
    now left.
  - destruct (dangling_id_raises Run.g3) as (_ & H & Hr).
    destruct (H (Hr g3_reachable)) as (_ & Hs & _). apply Hs.
Defined.

Lemma ghost_degree_bound : degree_bound Run.ghost.
Proof. apply degree_bound_check. reflexivity. Qed.

Lemma addPoint_degree_bound_witness :
  (M Run.t2 = 1 /\
   option_map n_neighbors (getNode Run.t2 "b") = Some [["a"]]) /\
  (fst (Js.addPoint (sc := Run.scoring) Run.level0 Run.t2 "c" [1; 2]%Z)
   = Return ["c"; "b"] /\
   option_map n_neighbors (getNode Run.t3 "b") = Some [["c"]]) /\
  degree_bound Run.t3 /\
  (fst (Js.addPoint (sc := Run.scoring) Run.level0 Run.ghost "z" [1]%Z)
   = Throw TypeError /\
   degree_bound
     (snd (Js.addPoint (sc := Run.scoring) Run.level0 Run.ghost "z" [1]%Z))).
Proof.
  pose (T := @addPoint_degree_bound Run.numeric Run.scoring
               (sort_stable_conforms Run.numeric Run.similarity)).
  split; [split; vm_compute; reflexivity|].
  split; [split; vm_compute; reflexivity|].
  split.
  - unfold Run.t3, Run.insert.
    apply (proj1 (T Run.level0 Run.t2 "c" [1; 2]%Z
                    (proj1 (T Run.level0 Run.t1 "b" [2; 1]%Z
                              (proj1 (T Run.level0 Run.tight "a" [1; 1]%Z
                                        (degree_bound_check Run.tight eq_refl))
                                     ltac:(vm_compute; discriminate)))
                           ltac:(vm_compute; discriminate)))).
    vm_compute. discriminate.
  - split; [vm_compute; reflexivity|].
    apply (proj2 (T Run.level0 Run.ghost "z" [1]%Z ghost_degree_bound)).
    + apply instance_ids_ok, inst_fromJSON.
    + vm_compute. discriminate.
    + vm_compute. repeat constructor; discriminate.
Defined.

Lemma addPoint_degree_bound_counterexample :
  instance Run.frayed /\
  degree_bound Run.frayed /\
  fst (Js.addPoint (sc := Run.scoring) Run.level0 Run.frayed "q" [1; 0]%Z)
  = Throw TypeError /\
  let g' :=
    snd (Js.addPoint (sc := Run.scoring) Run.level0 Run.frayed "q" [1; 0]%Z) in
  M g' = 4 /\
  getNode g' "x" = Some Run.frayed_x /\
  n_level Run.frayed_x = 0 /\
  nth_error (n_neighbors Run.frayed_x) 0 = Some ["g1"; "g2"; "g3"; "g4"; "q"] /\
  ~ degree_bound g'.
Proof.
  split; [apply inst_fromJSON|].
  split; [apply degree_bound_check; reflexivity|].
  split; [vm_compute; reflexivity|].
  intros g'.
  assert (E : getNode g' "x" = Some Run.frayed_x)
    by (vm_compute; reflexivity).
  split; [vm_compute; reflexivity|]. split; [exact E|].
  split; [reflexivity|]. split; [reflexivity|].
  intros H.
  specialize (H "x" _ 0 _ E (Nat.le_refl 0) eq_refl).
  change (5 <= 4) in H. lia.
Qed.

Lemma addPoint_duplicate_id_witness :
  addPoint Run.level0 Run.g3 "a" [5]%Z = (Throw (DuplicateId "a"), Run.g3) /\
  fst (addPoint Run.level0 Run.g3 "d" [5; 5]%Z) <> Throw (DuplicateId "d").
Proof.
  split.
  - apply (proj1 (addPoint_duplicate_id Run.level0 Run.g3 "a" [5]%Z)).
    vm_compute. reflexivity.
  - apply (proj2 (addPoint_duplicate_id Run.level0 Run.g3 "d" [5; 5]%Z)).
    vm_compute. reflexivity.
Defined.
Lemma search_topk_descending_witness :
  Js.search (sc := Run.scoring) Run.empty [0; 1]%Z 2 = Return [] /\
  returns (Js.search (sc := Run.scoring) Run.g3 [0; 1]%Z 2) /\
  (Js.search (sc := Run.scoring) Run.g3 [0; 1]%Z 2 =
     Return [{| s_id := "c"; s_score := Num 2 |};
             {| s_id := "a"; s_score := Num 1 |}] /\
   forall i j a b,
     i <= j ->
     nth_error [{| s_id := "c"; s_score := Num 2 |};
                {| s_id := "a"; s_score := Num 1 |}] i = Some a ->
     nth_error [{| s_id := "c"; s_score := Num 2 |};
                {| s_id := "a"; s_score := Num 1 |}] j = Some b ->
     js_le (s_score b) (s_score a)) /\
  length [{| s_id := "b"; s_score := Num 1 |};
          {| s_id := "a"; s_score := NaN |};
          {| s_id := "c"; s_score := Num 2 |}] <= 3.
Proof.
  pose (T := @search_topk_descending Run.numeric Run.scoring
               (sort_stable_conforms Run.numeric Run.similarity)).
  split.
  - apply (proj1 (proj2 (T Run.empty [0; 1]%Z 2))). vm_compute. reflexivity.
  - split.
    + apply (proj2 (proj2 (proj2 (T Run.g3 [0; 1]%Z 2)))).
      exact (reachable_wf g3_reachable).
    + split.
      * split; [vm_compute; reflexivity|].
        refine (proj2 (proj1 (proj2 (proj2 (T Run.g3 [0; 1]%Z 2))) _ _) _).
        -- vm_compute. reflexivity.
        -- vm_compute. repeat constructor; discriminate.
      * refine (proj1 (proj1 (proj2 (proj2 (T Run.mixed [1; 1]%Z 3))) _ _)).
        vm_compute. reflexivity.
Defined.

Lemma search_topk_counterexample :
  instance Run.mixed /\
  Js.search (sc := Run.scoring) Run.mixed [1; 1]%Z 3 =
    Return [{| s_id := "b"; s_score := Num 1 |};
            {| s_id := "a"; s_score := NaN |};
            {| s_id := "c"; s_score := Num 2 |}] /\
  js_lt (Num 1) (Num 2) = true /\
  ~ (forall res,
       Js.search (sc := Run.scoring) Run.mixed [1; 1]%Z 3 = Return res ->
       forall i j a b,
         i <= j -> nth_error res i = Some a -> nth_error res j = Some b ->
         js_le (s_score b) (s_score a)).
Proof.
  split; [apply inst_fromJSON|].
  assert (E : Js.search (sc := Run.scoring) Run.mixed [1; 1]%Z 3 =
              Return [{| s_id := "b"; s_score := Num 1 |};
                      {| s_id := "a"; s_score := NaN |};
                      {| s_id := "c"; s_score := Num 2 |}])
    by (vm_compute; reflexivity).
  split; [exact E|].
  split; [reflexivity|].
  intros H.
  specialize (H _ E 0 2 _ _ (Nat.le_0_l 2) eq_refl eq_refl).
  simpl in H. lia.
Qed.

Lemma entry_point_invariant_witness : entry_invariant Run.g3.
Proof. apply entry_point_invariant. exact g3_reachable. Defined.

Lemma g4_reachable : reachable Run.g4.
Proof.
  unfold Run.g4. apply reachable_add; [exact g3_reachable|].
  vm_compute. reflexivity.
Qed.

Lemma entry_point_monotone_witness :
  (entryPointId Run.g3 = Some "a" /\ maxLevel Run.g3 = 0) /\
  (entryPointId Run.g4 = Some "d" /\ maxLevel Run.g4 = 1) /\
  (entryPointId Run.g5 = Some "d" /\ maxLevel Run.g5 = 1) /\
  (maxLevel Run.g3 <= maxLevel Run.g5 /\
   (entryPointId Run.g3 <> None -> entryPointId Run.g5 <> None)).
Proof.
  assert (E3 : entryPointId Run.g3 = Some "a") by (vm_compute; reflexivity).
  assert (A4 : addPoint Run.level1 Run.g3 "d" [2; 2]%Z
               = (Return (Run.value
                            (fst (addPoint Run.level1 Run.g3 "d" [2; 2]%Z)) []),
                  Run.g4))
    by (vm_compute; reflexivity).
  assert (A5 : addPoint Run.level0 Run.g4 "e" [3; 1]%Z
               = (Return (Run.value
                            (fst (addPoint Run.level0 Run.g4 "e" [3; 1]%Z)) []),
                  Run.g5))
    by (vm_compute; reflexivity).
  pose proof (proj2 (entry_point_monotone g3_reachable) _ _ _ _ _ _ A4 E3)
    as H4.
  assert (L4 : Nat.ltb (maxLevel Run.g3) (getRandomLevel Run.level1) = true)
    by (vm_compute; reflexivity).
  rewrite L4 in H4.
  pose proof (proj2 (entry_point_monotone g4_reachable) _ _ _ _ _ _ A5
                (proj1 H4)) as H5.
  assert (L5 : Nat.ltb (maxLevel Run.g4) (getRandomLevel Run.level0) = false)
    by (vm_compute; reflexivity).
  rewrite L5 in H5.
  split; [split; [exact E3|vm_compute; reflexivity]|].
  split; [exact H4|]. split; [rewrite (proj2 H5); exact (conj (proj1 H5) (proj2 H4))|].
  apply (proj1 (entry_point_monotone g3_reachable) Run.g5).
  eapply adds_step; [exact A4|]. eapply adds_step; [exact A5|]. apply adds_nil.
Defined.

Lemma toJSON_fromJSON_toJSON_witness :
  toJSON (fromJSON (toJSON Run.g3)) = toJSON Run.g3.
Proof.
  apply toJSON_fromJSON_toJSON.
  - intros x. vm_compute. reflexivity.
  - unfold Run.g3, Run.add. repeat apply inst_addPoint. apply inst_new.
Defined.

Lemma search_whole_corpus_counterexample :
  nodes Run.g18 <> [] /\
  length (nodes Run.g18) <= 18 /\
  map_has "18" (nodes Run.g18) = true /\
  exists res,
    search Run.g18 [1%Z] 18 = Return res /\ length res = 17 /\
    ~ In "18" (map c_id res).
Proof.
  split; [vm_compute; discriminate|].
  split; [vm_compute; lia|].
  split; [vm_compute; reflexivity|].
  eexists. split; [vm_compute; reflexivity|].
  split; [vm_compute; reflexivity|].
  vm_compute. intros H. repeat (destruct H as [H|H]; [discriminate|]). exact H.
Qed.

Lemma search_returns_linked_witness :
  exists res,
    search Run.g3 [0; 1]%Z 3 = Return res /\
    forall x, linked Run.g3 0 "a" x <-> In x (map c_id res).
Proof.
  apply (@search_returns_linked _ Run.g3 [0; 1]%Z 3 "a" Run.g3_a Run.g3_a 1%Z).
  - exact (reachable_wf g3_reachable).
  - vm_compute. lia.
  - vm_compute. lia.
  - vm_compute. reflexivity.
  - vm_compute. reflexivity.
  - vm_compute. reflexivity.
Defined.

Lemma docs5_store_ok : store_ok (Run.indexer_of Run.docs5).
Proof.
  apply store_ok_of_docs with (docs := Run.docs5); [|reflexivity].
  repeat constructor; simpl; intuition discriminate.
Qed.


Lemma migration_batch_preserves_fields_witness :
  exists updated,
    map_get "a"
      (documents
         (db (snd (indexDocuments (num := Run.numeric) (Run.no_coins 0)
                     (reembed (num := Run.numeric) 0 [[1%Z]; [1%Z]]
                        (firstn 2 Run.docs5))
                     (Run.indexer_of Run.docs5))))) = Some updated /\
    d_text updated = "one" /\ d_createdAt updated = 11%Z /\
    d_metadata updated = Some tt /\ d_embedding updated = Some [1%Z].
Proof.
  destruct (@migration_batch_preserves_fields Run.numeric unit (Run.no_coins 0)
              [[1%Z]; [1%Z]] (firstn 2 Run.docs5) (Run.indexer_of Run.docs5)
              (snd (indexDocuments (Run.no_coins 0)
                      (reembed (num := Run.numeric) 0 [[1%Z]; [1%Z]]
                        (firstn 2 Run.docs5))
                      (Run.indexer_of Run.docs5)))
              0 (Run.doc "a" "one" 11))
    as (u & H1 & H2 & H3 & H4 & H5 & H6 & H7).
  - repeat constructor; simpl; intuition discriminate.
  - vm_compute. reflexivity.
  - reflexivity.
  - exists u. split; [exact H2|]. split; [exact H4|]. split; [exact H6|].
    split; [exact H5|exact H7].
Defined.

(** *** The further properties at concrete inputs *)

Lemma g3_ids_ok : ids_ok Run.g3.
Proof. exact (wf_ids (reachable_wf g3_reachable)). Qed.

Lemma getRandomLevel_spec_witness :
  getRandomLevel Run.level1 = 1 /\ Run.level1 0 = true /\ Run.level1 1 = false.
Proof.
  destruct (getRandomLevel_spec Run.level1) as (_ & H1 & H2).
  split; [reflexivity|]. split.
  - apply H1. vm_compute. lia.
  - apply H2. vm_compute. lia.
Defined.

Lemma selectNeighbors_best_witness :
  length (Js.selectNeighbors (sc := Run.scoring)
            [{| s_id := "a"; s_score := NaN |};
             {| s_id := "b"; s_score := Num 3 |}] 1) = 1 /\
  StronglySorted desc_js
    (Js.selectNeighbors (sc := Run.scoring)
       [{| s_id := "a"; s_score := Num 1 |};
        {| s_id := "b"; s_score := Num 3 |};
        {| s_id := "c"; s_score := Num 2 |}] 2).
Proof.
  pose (T := @selectNeighbors_best Run.numeric Run.scoring
               (sort_stable_conforms Run.numeric Run.similarity)).
  split.
  - exact (proj1 (T [{| s_id := "a"; s_score := NaN |};
                     {| s_id := "b"; s_score := Num 3 |}] 1)).
  - destruct (proj2 (T [{| s_id := "a"; s_score := Num 1 |};
                        {| s_id := "b"; s_score := Num 3 |};
                        {| s_id := "c"; s_score := Num 2 |}] 2))
      as (dropped & _ & H).
    apply H. repeat constructor; discriminate.
Defined.

Lemma search_results_sound_witness :
  let res := Run.value (search Run.g3 [0; 1]%Z 2) [] in
  Forall (scored Run.g3 [0; 1]%Z) res /\
  NoDup (map c_id res) /\
  length res <= Nat.min 2 (Nat.max 1 (efSearch Run.g3)).
Proof.
  apply (@search_results_sound _ Run.g3 [0; 1]%Z 2).
  - exact (reachable_wf g3_reachable).
  - vm_compute. reflexivity.
Defined.

Lemma addPoint_touched_witness :
  let r := addPoint Run.level0 Run.g3 "d" [5; 5]%Z in
  (exists rest, Run.value (fst r) [] = "d" :: rest) /\
  NoDup (Run.value (fst r) []) /\
  (forall k, In k (Run.value (fst r) []) -> In k (map_keys (nodes (snd r)))) /\
  (forall k, ~ In k (Run.value (fst r) []) ->
     getNode (snd r) k = getNode Run.g3 k).
Proof.
  apply (@addPoint_touched _ Run.level0 Run.g3 "d" [5; 5]%Z).
  - exact g3_ids_ok.
  - vm_compute. reflexivity.
Defined.

Lemma addPoint_shape_witness :
  fst (addPoint Run.level0 Run.ghost "b" [1%Z]) = Throw TypeError /\
  option_map shape (getNode (snd (addPoint Run.level0 Run.ghost "b" [1%Z])) "b")
  = Some ("b", [1%Z], 0, 1).
Proof.
  split; [vm_compute; reflexivity|].
  apply (@addPoint_shape _ Run.level0 Run.ghost "b" [1%Z]).
  vm_compute. reflexivity.
Defined.

Lemma fromJSON_roundtrip_witness :
  toJSON (fromJSON Run.ghost_json) = Run.ghost_json.
Proof.
  apply fromJSON_roundtrip. unfold json_ok.
  split; [vm_compute; discriminate|].
  split; [vm_compute; discriminate|].
  split; [vm_compute; discriminate|].
  split; [vm_compute; reflexivity|].
  split; [|repeat constructor].
  simpl. constructor; [intros []|constructor].
Defined.

Lemma Vectoria_search_results_witness :
  let r := Vectoria_search (num := Run.numeric) Run.embed Run.dot "q" 2 true
             (Run.indexer_of Run.docs5) in
  snd r = init (Run.indexer_of Run.docs5) /\
  length (Run.value (fst r) []) <= 2 /\
  Forall (fun s => get (d_id (sr_doc s)) (db (Run.indexer_of Run.docs5))
                   = Some (sr_doc s)) (Run.value (fst r) []).
Proof.
  apply (@Vectoria_search_results Run.numeric unit Run.embed Run.dot "q" 2 true
           (Run.indexer_of Run.docs5)).
  - exact docs5_store_ok.
  - vm_compute. reflexivity.
Defined.

Lemma Vectoria_search_ghosts_witness :
  exists res,
    Vectoria_search (num := Run.numeric) Run.embed Run.dot "q" 3 false Run.ghosts
      = (Return res, init Run.ghosts) /\
    map (fun s => sr_score s) res = [1%Z].
Proof.
  destruct (@Vectoria_search_ghosts Run.numeric unit Run.embed Run.dot "q" 3
              Run.ghosts [0; 1]%Z
              (Run.value (search Run.g3 [0; 1]%Z 3) []))
    as (res & H1 & H2).
  - reflexivity.
  - vm_compute. reflexivity.
  - exists res. split; [exact H1|].
    apply (f_equal (map snd)) in H2. rewrite !map_map in H2. exact H2.
Defined.



Lemma addDocument_failure_witness :
  let r := addDocument (num := Run.numeric) Run.embed tt Run.level0 "b" 7%Z
             "text" None Run.broken in
  fst r = Throw TypeError /\ db (snd r) = db Run.broken /\
  map_has "b" (nodes (index (snd r))) = true.
Proof.
  destruct (@addDocument_failure Run.numeric unit Run.embed tt Run.level0 "b"
              7%Z "text" None Run.broken) as [_ H].
  destruct (H [0; 1]%Z eq_refl) as [_ H2].
  destruct H2 as (E1 & E2 & _ & E3); [vm_compute; reflexivity|].
  split; [exact E1|]. split; [exact E2|exact E3].
Defined.

Lemma fresh_mirrors : mirrors Run.fresh.
Proof. split; [constructor|intros k; reflexivity]. Qed.

Lemma addDocument_ok_witness :
  exists doc x',
    addDocument (num := Run.numeric) Run.embed tt Run.level0 "u0" 7%Z "text" None Run.fresh
      = (Return doc, x') /\
    get "u0" (db x') = Some doc /\ persisted x'.
Proof.
  destruct (@addDocument_ok Run.numeric unit Run.embed tt Run.level0 "u0" 7%Z
              "text" None Run.fresh [0; 1]%Z)
    as (doc & x' & H1 & _ & H2 & _ & _ & _ & H3).
  - right. reflexivity.
  - apply new_wf.
  - exact fresh_mirrors.
  - reflexivity.
  - reflexivity.
  - exists doc, x'. auto.
Defined.

Lemma addDocuments_ok_witness :
  exists docs x',
    addDocuments (num := Run.numeric) Run.short_embedder tt (Run.no_coins 0)
      Run.uuid Run.clock Run.items2 Run.fresh = (Return docs, x') /\
    length docs = 2 /\
    map_has "u0" (nodes (index x')) = true /\
    map_has "u1" (nodes (index x')) = false /\
    persisted x'.
Proof.
  destruct (@addDocuments_ok Run.numeric unit Run.short_embedder tt
              (Run.no_coins 0) Run.uuid Run.clock Run.items2 Run.fresh
              [[1; 0]%Z])
    as (docs & x' & H1 & H2 & H3 & _ & H4).
  - right. reflexivity.
  - apply new_wf.
  - exact fresh_mirrors.
  - simpl. repeat constructor; simpl; intuition discriminate.
  - intros i Hi. reflexivity.
  - reflexivity.
  - exists docs, x'. split; [exact H1|]. split; [exact H2|].
    destruct (H3 0 _ eq_refl) as (_ & _ & _ & _ & _ & _ & E0).
    destruct (H3 1 _ eq_refl) as (_ & _ & _ & _ & _ & _ & E1).
    auto.
Defined.

Lemma indexDocuments_persisted_witness :
  persisted Run.saved /\ ids_ok (index Run.saved) /\
  map_keys (nodes (index Run.saved)) = ["a"; "b"].
Proof.
  apply (@indexDocuments_persisted Run.numeric unit (Run.no_coins 0)
           (firstn 2 Run.docs5) (Run.indexer_of Run.docs5) Run.saved).
  - right. reflexivity.
  - split; [constructor|intros k; reflexivity].
  - intros k n H. discriminate.
  - vm_compute. reflexivity.
Defined.

Lemma saved_persisted : persisted Run.saved /\ ids_ok (index Run.saved).
Proof.
  destruct (@indexDocuments_saves Run.numeric unit (Run.no_coins 0)
              (firstn 2 Run.docs5) (Run.indexer_of Run.docs5) Run.saved)
    as (H1 & H2 & _).
  - right. reflexivity.
  - split; [constructor|intros k; reflexivity].
  - intros k n H. discriminate.
  - vm_compute. reflexivity.
  - auto.
Qed.

Lemma init_reload_witness :
  let y := init (new_Vectoria (db Run.saved)) in
  initialized y = true /\ db y = db Run.saved /\
  (forall k, getNode (index y) k = getNode (index Run.saved) k) /\
  meta_of (index y) = meta_of (index Run.saved).
Proof.
  apply (@init_reload Run.numeric unit Run.saved).
  - intros a. reflexivity.
  - exact (proj1 saved_persisted).
  - exact (proj2 saved_persisted).
  - unfold params_ok.
    split; [vm_compute; discriminate|].
    split; [vm_compute; discriminate|].
    split; [vm_compute; discriminate|].
    split; [vm_compute; discriminate|].
    vm_compute. repeat constructor; simpl; intuition discriminate.
Defined.

Lemma start_ends_witness :
  let r := start (num := Run.numeric) Run.reject (fun _ => false) Run.no_coins
             2 new_MigrationManager (Run.indexer_of Run.docs5) in
  isRunning (r_manager r) = false /\
  st_total (status (r_manager r)) = 5 /\
  st_error (status (r_manager r)) = Some EmbedderFailure.
Proof.
  destruct (@start_ends Run.numeric unit Run.reject (fun _ => false)
              Run.no_coins 2 new_MigrationManager (Run.indexer_of Run.docs5))
    as (_ & _ & H).
  destruct (H eq_refl) as (H1 & H2 & H3 & _).
  split; [exact H1|]. split; [exact H2|].
  apply (H3 EmbedderFailure). vm_compute. reflexivity.
Defined.

Lemma start_keeps_documents_witness :
  let r := start (num := Run.numeric) Run.embedder (Run.stop_during 1)
             Run.no_coins 2 new_MigrationManager (Run.indexer_of Run.docs5) in
  map_keys (documents (db (r_indexer r))) = ["a"; "b"; "c"; "d"; "e"] /\
  exists d',
    map_get "a" (documents (db (r_indexer r))) = Some d' /\
    d_text d' = "one" /\ d_createdAt d' = 11%Z.
Proof.
  destruct (@start_keeps_documents Run.numeric unit Run.embedder
              (Run.stop_during 1) Run.no_coins 2 new_MigrationManager
              (Run.indexer_of Run.docs5) docs5_store_ok) as [H1 H2].
  split; [exact H1|].
  destruct (H2 "a" (Run.doc "a" "one" 11) eq_refl)
    as (d' & E & _ & Ht & _ & Hc).
  exists d'. auto.
Defined.

Lemma start_batchSize_zero_witness :
  let r := start (num := Run.numeric) Run.embedder (fun _ => false)
             Run.no_coins 0 new_MigrationManager (Run.indexer_of Run.docs5) in
  r_outcome r = Throw TypeError /\
  st_processed (status (r_manager r)) = 0 /\
  st_error (status (r_manager r)) = Some TypeError.
Proof.
  destruct (@start_batchSize_zero Run.numeric unit Run.embedder
              (fun _ => false) Run.no_coins new_MigrationManager
              (Run.indexer_of Run.docs5) [])
    as (H1 & H2 & H3 & _).
  - reflexivity.
  - reflexivity.
  - vm_compute. discriminate.
  - reflexivity.
  - auto.
Defined.

Lemma search_after_clear_witness :
  fst (Vectoria_search (num := Run.numeric) Run.embed Run.dot "q" 3 true
         (Vectoria_clear (Run.indexer_of Run.docs5))) = Return [] /\
  getAllDocuments (resetIndex (Run.indexer_of Run.docs5)) = Run.docs5.
Proof.
  destruct (@search_after_clear Run.numeric unit Run.embed Run.dot "q" 3 true
              (Run.indexer_of Run.docs5) [0; 1]%Z eq_refl)
    as (H1 & _ & _ & H2 & _).
  split; [exact H1|]. rewrite H2. reflexivity.
Defined.

End Examples.
